(** * ML_Prefetcher: vocabularies, vocabulary builder and the clustering model

  A shallow embedding of [repro/vocab.py] and of the routing logic of
  [repro/clustering_lstm.py], with the properties of the specification
  stated over it.

  Conventions.  Python integers that carry data (codes, cluster labels,
  targets, raw keys) are [Z]; Python integers that count things (list
  lengths, positions produced by [enumerate], [num_pred], [num_clusters],
  [num_output_deltas]) are [nat].  Dictionaries are [gmap]s, Python lists
  and one-dimensional tensors are [list]s. *)

From stdpp Require Import gmap list list_numbers sorting.
From Stdlib Require Import ZArith Lia.

Local Open Scope Z_scope.

(** ** [class Vocab] *)

Section Vocab.
Context `{Countable K}.

(** The three attributes set by [Vocab.__init__]. *)
Record Vocab : Type := MkVocab {
  key_to_val : gmap K Z;
  val_to_key : gmap Z K;
  counter : Z
}.

(** [__len__] *)
Definition len (v : Vocab) : Z := counter v.

(** [get_val]: [self.key_to_val.get(key, self.counter)] *)
Definition get_val (v : Vocab) (key : K) : Z :=
  default (counter v) (key_to_val v !! key).

(** [get_key]: [self.val_to_key.get(val, None)] *)
Definition get_key (v : Vocab) (val : Z) : option K :=
  val_to_key v !! val.

(** [add_key] *)
Definition add_key (v : Vocab) (key : K) : Vocab :=
  match key_to_val v !! key with
  | Some _ => v
  | None =>
      MkVocab (<[key := counter v]> (key_to_val v))
              (<[counter v := key]> (val_to_key v))
              (counter v + 1)
  end.

(** [__init__]: empty dictionaries, counter 0, then [add_key] for each key
    of [all_keys] in order when it is not [None]. *)
Definition Vocab_init (all_keys : option (list K)) : Vocab :=
  match all_keys with
  | None => MkVocab ∅ ∅ 0
  | Some keys => foldl add_key (MkVocab ∅ ∅ 0) keys
  end.

(** The codes handed out so far, as a list (in the map's own order). *)
Definition codes (v : Vocab) : list Z := (map_to_list (key_to_val v)).*2.

(** The representation invariant kept by [add_key]: the two dictionaries are
    inverse to each other and the codes in use are exactly [0 .. counter). *)
Record vocab_inv (v : Vocab) : Prop := {
  inv_nonneg : 0 ≤ counter v;
  inv_inverse : ∀ k c, key_to_val v !! k = Some c ↔ val_to_key v !! c = Some k;
  inv_range : ∀ c, is_Some (val_to_key v !! c) ↔ 0 ≤ c < counter v;
  inv_codes : codes v ≡ₚ seqZ 0 (counter v)
}.

End Vocab.

Arguments Vocab K {_ _}.

(** ** pandas: the [Series] operations used by [build_vocabs]

    A [Series] of counts is a list of (index label, count) pairs in row
    order.  pandas fixes the order of [value_counts] and [nlargest] only up to
    ties, so the ranking is an interface: any function returning its
    argument reordered by descending count. *)

Definition desc_count {K : Type} : relation (K * nat) :=
  λ a b, (b.2 ≤ a.2)%nat.

Class Ranking (K : Type) : Type := {
  sort_values : list (K * nat) → list (K * nat);
  sort_values_perm : ∀ s, sort_values s ≡ₚ s;
  sort_values_desc : ∀ s, Sorted desc_count (sort_values s)
}.

Section Pandas.
Context `{Countable K} `{!Ranking K}.

(** Number of rows of a column holding [k]. *)
Definition count (k : K) (s : list K) : nat :=
  length (filter (λ x, x = k) s).

(** [Series.drop_duplicates()]: the first occurrence of each value is kept. *)
Fixpoint drop_duplicates_from (seen : list K) (s : list K) : list K :=
  match s with
  | [] => []
  | x :: s' =>
      if decide (x ∈ seen) then drop_duplicates_from seen s'
      else x :: drop_duplicates_from (x :: seen) s'
  end.

Definition drop_duplicates (s : list K) : list K := drop_duplicates_from [] s.

(** [Series.value_counts()]: one row per distinct value, holding its number
    of occurrences, most frequent first. *)
Definition value_counts (s : list K) : list (K * nat) :=
  sort_values ((λ k, (k, count k s)) <$> drop_duplicates s).

(** [.loc[lambda count: count >= 10]] *)
Definition loc_count_ge (threshold : nat) (s : list (K * nat)) : list (K * nat) :=
  filter (λ row, (threshold ≤ row.2)%nat) s.

(** [Series.nlargest(n)]: the [n] rows with the largest counts, largest
    first (all rows when there are fewer than [n]). *)
Definition nlargest (n : nat) (s : list (K * nat)) : list (K * nat) :=
  take n (sort_values s).

(** [.keys().tolist()] *)
Definition keys_tolist (s : list (K * nat)) : list K := s.*1.

(** ** [make_output_vocab] and [build_vocabs] *)

(** The training [DataFrame], column by column; the ["cluster"] column is
    optional.  The columns of a frame have one entry per row. *)
Record DataFrame : Type := MkDataFrame {
  col_pc : list K;
  col_delta_in : list K;
  col_delta_out : list K;
  col_cluster : option (list Z)
}.

(** What [build_vocabs] returns as [target_vocab]: a list of vocabularies
    when the frame has a ["cluster"] column, one vocabulary otherwise. *)
Inductive TargetVocab : Type :=
  | PerCluster (vocabs : list (Vocab K))
  | Single (vocab : Vocab K).

Definition make_output_vocab (delta_out : list K) (num_output_deltas : nat)
  : Vocab K :=
  Vocab_init (Some (keys_tolist (nlargest num_output_deltas
                                          (value_counts delta_out)))).

(** [data.loc[data.cluster == cluster, "delta_out"]] *)
Definition loc_cluster (cl : list Z) (delta_out : list K) (cluster : Z)
  : list K :=
  (filter (λ row, row.1 = cluster) (zip cl delta_out)).*2.

Definition build_vocabs (data : DataFrame)
    (num_clusters : nat) (num_output_deltas : nat)
  : Vocab K * Vocab K * TargetVocab :=
  let pc_vocab := Vocab_init (Some (drop_duplicates (col_pc data))) in
  let delta_vocab :=
    Vocab_init (Some (keys_tolist
                        (loc_count_ge 10 (value_counts (col_delta_in data))))) in
  let target_vocab :=
    match col_cluster data with
    | Some cl =>
        PerCluster
          (map (λ cluster : nat,
                  make_output_vocab
                    (loc_cluster cl (col_delta_out data) (Z.of_nat cluster))
                    num_output_deltas)
               (seq 0 num_clusters))
    | None => Single (make_output_vocab (col_delta_out data) num_output_deltas)
    end in
  (pc_vocab, delta_vocab, target_vocab).

(** ** The specification of the output vocabularies

    These two definitions follow the specification's words, not the code:
    they speak of the rows of the training set and of the dictionary of a
    vocabulary, and use none of the [Series] operations above.

    [examples_with cl delta_out c k]: the number of examples (rows of the
    training set) whose cluster label is [c] and whose output delta is
    [k]. *)
Fixpoint examples_with (cl : list Z) (delta_out : list K) (c : Z) (k : K)
  : nat :=
  match cl, delta_out with
  | label :: cl', d :: delta_out' =>
      ((if decide (label = c ∧ d = k) then 1 else 0)
       + examples_with cl' delta_out' c k)%nat
  | _, _ => 0%nat
  end.

(** [top_frequent freq n v]: the vocabulary [v] contains exactly the [n]
    most frequent values, where [freq k] is the number of times the value
    [k] occurs.  With [values] the set of values that occur at all and
    [keys] the set of keys of [v]:
    - [v] holds [n] keys, or all the values when there are at most [n];
    - [len v] is that number of keys, and the codes in use are [0 .. len v);
    - every key is a value that occurs;
    - no value left out occurs more often than a key;
    - a key with a smaller code occurs at least as often as one with a
      larger code. *)
Definition top_frequent (freq : K → nat) (n : nat) (v : Vocab K) : Prop :=
  let keys : gset K := dom (key_to_val v) in
  ∃ values : gset K,
    (∀ k, k ∈ values ↔ (0 < freq k)%nat) ∧
    size keys = min n (size values) ∧
    ((size values ≤ n)%nat → keys = values) ∧
    len v = Z.of_nat (size keys) ∧
    (∀ c, (∃ k, key_to_val v !! k = Some c) ↔ 0 ≤ c < len v) ∧
    keys ⊆ values ∧
    (∀ k k', k ∈ keys → k' ∈ values → k' ∉ keys → (freq k' ≤ freq k)%nat) ∧
    (∀ k1 k2 c1 c2, key_to_val v !! k1 = Some c1 → key_to_val v !! k2 = Some c2 →
                    c1 < c2 → (freq k2 ≤ freq k1)%nat).

End Pandas.

Arguments DataFrame K : clear implicits.
Arguments TargetVocab K {_ _}.

(** A concrete ranking: insertion sort by descending count, stable, so that
    ties stay in order of first appearance. *)
Section StableRanking.
Context {K : Type}.

Fixpoint insert_desc (x : K * nat) (s : list (K * nat)) : list (K * nat) :=
  match s with
  | [] => [x]
  | y :: s' =>
      if decide (y.2 ≤ x.2)%nat then x :: y :: s' else y :: insert_desc x s'
  end.

Definition stable_sort_desc (s : list (K * nat)) : list (K * nat) :=
  foldr insert_desc [] s.

End StableRanking.

(** ** torch: exceptions, tensors and the primitives [forward] calls

    A one-dimensional tensor is a list; a two-dimensional one a list of rows.
    [forward] is modelled for the unbatched input the training script feeds
    it, [pc], [delta] and [clusters] of shape [(T,)]: the batch dimension of
    size 1 that [unsqueeze] adds and [squeeze] removes is not represented.
    The parameters of the network are fixed and every layer is a function of
    its input (the random mask of [Dropout] in training mode is not
    modelled). *)

Inductive exn : Type := IndexError | RuntimeError.

Inductive result (A : Type) : Type :=
  | Ok (a : A)
  | Raise (e : exn).
Arguments Ok {A} a.
Arguments Raise {A} e.

Definition rbind {A B} (r : result A) (f : A → result B) : result B :=
  match r with Ok a => f a | Raise e => Raise e end.

(** A computation that may raise and that records, in order, the index of
    every cluster network it calls. *)
Definition M (A : Type) : Type := list nat → result A * list nat.

Definition ret {A} (a : A) : M A := λ log, (Ok a, log).

Definition bind {A B} (m : M A) (f : A → M B) : M B :=
  λ log, match m log with
         | (Ok a, log') => f a log'
         | (Raise e, log') => (Raise e, log')
         end.

Definition lift {A} (r : result A) : M A := λ log, (r, log).

Definition record_call {A} (cluster : nat) (a : A) : M A :=
  λ log, (Ok a, log ++ [cluster]).

Notation "'do' x <- m ; k" := (bind m (λ x, k))
  (at level 10, x name, m at level 100, k at level 200, only parsing).
Notation "'do' ' pat <- m ; k" := (bind m (λ x, match x with pat => k end))
  (at level 10, pat pattern, m at level 100, k at level 200, only parsing).

(** The scalar operations of the tensor library, as an interface. *)
Class TensorOps (F : Type) : Type := {
  of_int : Z → F;
  fadd : F → F → F;
  fsub : F → F → F;
  dot : list F → list F → F;
  logsumexp : list F → F;
  (** mean of the negated selected log-probabilities ([None]: ignored row) *)
  nll_mean : list (option F) → F;
  dropout_elt : F → F;
  (** the positions of the [k] largest entries of a row, in any order *)
  topk_indices : nat → list F → list Z;
  topk_indices_length :
    ∀ k row, (k ≤ length row)%nat → length (topk_indices k row) = k
}.

(** [nn.Linear]: one weight row and one bias per output. *)
Record Linear (F : Type) : Type := MkLinear { units : list (list F * F) }.
Arguments MkLinear {F} units.
Arguments units {F} l.

Definition out_features {F} (l : Linear F) : nat := length (units l).

(** What [loss] holds: the Python integer it starts as, or a 0-dim tensor. *)
Inductive Loss (F : Type) : Type :=
  | PyInt (z : Z)
  | Tensor (x : F).
Arguments PyInt {F} z.
Arguments Tensor {F} x.

Section Torch.
Context `{!TensorOps F}.

(** Indexing a tensor or a list with a non-negative position. *)
Definition at_pos {A} (xs : list A) (i : nat) : result A :=
  match xs !! i with Some x => Ok x | None => Raise IndexError end.

Fixpoint mapR {A B} (f : A → result B) (xs : list A) : result (list B) :=
  match xs with
  | [] => Ok []
  | x :: xs' =>
      rbind (f x) (λ y, rbind (mapR f xs') (λ ys, Ok (y :: ys)))
  end.

(** [nn.Embedding]: row [i] of the weight; codes outside [0, num) raise. *)
Definition embedding (weight : list (list F)) (codes : list Z)
  : result (list (list F)) :=
  mapR (λ c, if decide (0 ≤ c) then at_pos weight (Z.to_nat c)
             else Raise IndexError) codes.

(** [torch.cat([a, b], dim=-1)] of two matrices. *)
Definition cat_last (a b : list (list F)) : result (list (list F)) :=
  if decide (length a = length b) then Ok (zip_with app a b)
  else Raise RuntimeError.

(** [tensor[positions]] with a list of positions. *)
Definition gather {A} (xs : list A) (positions : list nat) : result (list A) :=
  mapR (at_pos xs) positions.

(** [tensor[positions] = rows] *)
Fixpoint scatter {A} (xs : list A) (positions : list nat) (rows : list A)
  : result (list A) :=
  match positions, rows with
  | [], [] => Ok xs
  | i :: positions', row :: rows' =>
      if decide (i < length xs)%nat
      then scatter (<[i := row]> xs) positions' rows'
      else Raise IndexError
  | _, _ => Raise RuntimeError
  end.

Definition linear (l : Linear F) (x : list F) : list F :=
  map (λ u, fadd (dot u.1 x) u.2) (units l).

Definition dropout (x : list F) : list F := map dropout_elt x.

(** [F.log_softmax(output, dim=-1)] on one row. *)
Definition log_softmax (row : list F) : list F :=
  map (λ x, fsub x (logsumexp row)) row.

(** [F.nll_loss] with its defaults: mean reduction, [ignore_index = -100];
    a target outside [0, C) raises. *)
Definition nll_pick (row : list F) (t : Z) : result (option F) :=
  if decide (t = -100) then Ok None
  else if decide (0 ≤ t) then rbind (at_pos row (Z.to_nat t)) (λ x, Ok (Some x))
  else Raise IndexError.

Fixpoint nll_picks (probabilities : list (list F)) (target : list Z)
  : result (list (option F)) :=
  match probabilities, target with
  | [], [] => Ok []
  | row :: probabilities', t :: target' =>
      rbind (nll_pick row t) (λ p,
      rbind (nll_picks probabilities' target') (λ ps, Ok (p :: ps)))
  | _, _ => Raise RuntimeError
  end.

Definition nll_loss (probabilities : list (list F)) (target : list Z)
  : result F :=
  rbind (nll_picks probabilities target) (λ ps, Ok (nll_mean ps)).

(** [torch.topk(probabilities, k, sorted=False)], indices only: raises when
    [k] exceeds the size of the last dimension. *)
Definition topk (probabilities : list (list F)) (k : nat)
  : result (list (list Z)) :=
  if decide (Forall (λ row, (k ≤ length row)%nat) probabilities)
  then Ok (map (topk_indices k) probabilities)
  else Raise RuntimeError.

(** [torch.zeros(rows, cols, dtype=torch.long)] *)
Definition zeros (rows cols : nat) : list (list Z) :=
  replicate rows (replicate cols 0).

(** [loss += x] *)
Definition loss_add (loss : Loss F) (x : F) : Loss F :=
  match loss with
  | PyInt z => Tensor (fadd (of_int z) x)
  | Tensor y => Tensor (fadd y x)
  end.

End Torch.

(** ** [class ClusteringLSTM] *)

Section Model.
Context `{!TensorOps F} {St : Type}.

(** The attributes set by [__init__].  The recurrent backbone [nn.LSTM] is
    a function from the input sequence and the previous state ([None]: a
    fresh state) to the per-position outputs and the new state; it raises
    on inputs it does not accept. *)
Record ClusteringLSTM : Type := MkClusteringLSTM {
  pc_embed : list (list F);
  delta_embed : list (list F);
  lstm : list (list F) → option St → result (list (list F) * St);
  cluster_networks : list (Linear F);
  num_pred : nat
}.

Definition matrix (rows cols : nat) (entry : nat → nat → F) : list (list F) :=
  map (λ i, map (entry i) (seq 0 cols)) (seq 0 rows).

(** [__init__]: the shapes are those of the source; the initial values,
    which torch draws at random, and the backbone are arguments. *)
Definition ClusteringLSTM_init
    (w_pc w_delta : nat → nat → F)
    (w_head : nat → nat → nat → F) (b_head : nat → nat → F)
    (backbone : list (list F) → option St → result (list (list F) * St))
    (num_pc num_input_delta : nat) (num_output_delta : list nat)
    (embed_dim hidden_dim : nat) (num_pred : nat) : ClusteringLSTM :=
  {| pc_embed := matrix num_pc embed_dim w_pc;
     delta_embed := matrix num_input_delta embed_dim w_delta;
     lstm := backbone;
     cluster_networks :=
       imap (λ cluster num_outputs,
               MkLinear (map (λ j, (map (w_head cluster j) (seq 0 hidden_dim),
                                    b_head cluster j))
                             (seq 0 num_outputs)))
            num_output_delta;
     num_pred := num_pred |}.

(** Python list indexing [xs[i]] for a list of length [n]: negative
    positions count from the end, anything else out of range raises. *)
Definition py_index (n : nat) (i : Z) : option nat :=
  if decide (0 ≤ i < Z.of_nat n) then Some (Z.to_nat i)
  else if decide (- Z.of_nat n ≤ i < 0) then Some (Z.to_nat (Z.of_nat n + i))
  else None.

(** [for orig, cluster in enumerate(clusters):
       indices[cluster.item()].append(orig)] *)
Fixpoint route_from (orig : nat) (clusters : list Z)
    (indices : list (list nat)) : result (list (list nat)) :=
  match clusters with
  | [] => Ok indices
  | cluster :: clusters' =>
      match py_index (length indices) cluster with
      | Some j =>
          route_from (S orig) clusters' (alter (λ l, l ++ [orig]) j indices)
      | None => Raise IndexError
      end
  end.

Definition route (num_networks : nat) (clusters : list Z)
  : result (list (list nat)) :=
  route_from 0 clusters (replicate num_networks []).

(** [network(inputs)]: [Linear] then [Dropout], on every gathered row. *)
Definition network_apply (network : Linear F) (inputs : list (list F))
  : list (list F) :=
  map (λ x, dropout (linear network x)) inputs.

(** The body of the loop over [enumerate(self.cluster_networks)]. *)
Definition cluster_step (net : ClusteringLSTM) (lstm_out : list (list F))
    (indices : list (list nat)) (target : option (list Z))
    (acc : Loss F * list (list Z)) (cluster : nat) (network : Linear F)
  : M (Loss F * list (list Z)) :=
  let '(loss, outputs) := acc in
  do orig_indices <- lift (at_pos indices cluster);
  if decide (length orig_indices = 0%nat) then ret (loss, outputs)
  else
    do inputs <- lift (gather lstm_out orig_indices);
    do output <- record_call cluster (network_apply network inputs);
    let probabilities := map log_softmax output in
    do loss <- match target with
               | Some target =>
                   do tgt <- lift (gather target orig_indices);
                   do l <- lift (nll_loss probabilities tgt);
                   ret (loss_add loss l)
               | None => ret loss
               end;
    do preds <- lift (topk probabilities (num_pred net));
    do outputs <- lift (scatter outputs orig_indices preds);
    ret (loss, outputs).

Fixpoint clusters_loop (net : ClusteringLSTM) (lstm_out : list (list F))
    (indices : list (list nat)) (target : option (list Z))
    (cluster : nat) (networks : list (Linear F))
    (acc : Loss F * list (list Z)) : M (Loss F * list (list Z)) :=
  match networks with
  | [] => ret acc
  | network :: networks' =>
      do acc' <- cluster_step net lstm_out indices target acc cluster network;
      clusters_loop net lstm_out indices target (S cluster) networks' acc'
  end.

(** Steps up to and including the LSTM call. *)
Definition backbone (net : ClusteringLSTM) (pc delta : list Z)
    (lstm_state : option St) : result (list (list F) * St) :=
  rbind (embedding (pc_embed net) pc) (λ pc_e,
  rbind (embedding (delta_embed net) delta) (λ delta_e,
  rbind (cat_last pc_e delta_e) (λ lstm_in,
  lstm net lstm_in lstm_state))).

Definition forward (net : ClusteringLSTM) (X : list Z * list Z * list Z)
    (lstm_state : option St) (target : option (list Z))
  : M (Loss F * list (list Z) * St) :=
  let '(pc, delta, clusters) := X in
  let batch_size := length pc in
  do '(lstm_out, state) <- lift (backbone net pc delta lstm_state);
  do indices <- lift (route (length (cluster_networks net)) clusters);
  do '(loss, outputs) <-
    clusters_loop net lstm_out indices target 0 (cluster_networks net)
                  (PyInt 0, zeros batch_size (num_pred net));
  ret (loss, outputs, state).

Definition predict (net : ClusteringLSTM) (X : list Z * list Z * list Z)
    (lstm_state : option St) : M (list (list Z) * St) :=
  do '(_, preds, state) <- forward net X lstm_state None;
  ret (preds, state).

(** *** Notions used to state the properties of [forward] *)

(** Cluster labels as the data model has them: within [0, num_clusters). *)
Definition valid_labels (num_clusters : nat) (clusters : list Z) : Prop :=
  Forall (λ c, 0 ≤ c < Z.of_nat num_clusters) clusters.

(** The positions, counted from [orig], of the labels that Python's list
    indexing sends to slot [j] of a list of [n] slots. *)
Fixpoint routed_from (n j orig : nat) (clusters : list Z) : list nat :=
  match clusters with
  | [] => []
  | c :: clusters' =>
      if decide (py_index n c = Some j)
      then orig :: routed_from n j (S orig) clusters'
      else routed_from n j (S orig) clusters'
  end.

(** The positions whose label is [k], in increasing order. *)
Definition positions_of (k : nat) (clusters : list Z) : list nat :=
  (filter (λ p, p.2 = Z.of_nat k) (imap pair clusters)).*1.

(** The model with the network of cluster [k] replaced by [h]. *)
Definition with_network (k : nat) (h : Linear F) (net : ClusteringLSTM)
  : ClusteringLSTM :=
  {| pc_embed := pc_embed net;
     delta_embed := delta_embed net;
     lstm := lstm net;
     cluster_networks := <[k := h]> (cluster_networks net);
     num_pred := num_pred net |}.

(** The log-probabilities [forward] computes for a cluster from the rows
    it gathered. *)
Definition probabilities_of (network : Linear F) (inputs : list (list F))
  : list (list F) :=
  map log_softmax (network_apply network inputs).

(** What an iteration of the loop needs of the positions [orig_indices] of
    a cluster to run through: they are positions of [lstm_out], of [target]
    and of the output tensor, and the targets there are codes of the
    network's output (or the ignored code -100). *)
Definition positions_ok (lstm_out : list (list F)) (batch_size : nat)
    (target : option (list Z)) (network : Linear F)
    (orig_indices : list nat) : Prop :=
  Forall (λ i, (i < length lstm_out)%nat ∧ (i < batch_size)%nat ∧
               match target with
               | Some target =>
                   ∃ t, target !! i = Some t ∧
                        (t = -100 ∨ 0 ≤ t < Z.of_nat (out_features network))
               | None => True
               end)
         orig_indices.

(** The targets of a batch are codes of the output of the network their
    position is routed to (or the ignored code -100). *)
Definition targets_ok (net : ClusteringLSTM) (clusters : list Z)
    (target : option (list Z)) : Prop :=
  match target with
  | Some target =>
      ∀ i c, clusters !! i = Some c →
        ∃ t network,
          target !! i = Some t ∧
          cluster_networks net !! Z.to_nat c = Some network ∧
          (t = -100 ∨ 0 ≤ t < Z.of_nat (out_features network))
  | None => True
  end.

(** The precondition of the top-K selection: [num_pred] is at most the
    output width of every network that a label of the batch selects. *)
Definition num_pred_fits (net : ClusteringLSTM) (clusters : list Z) : Prop :=
  ∀ c network, c ∈ clusters →
    cluster_networks net !! Z.to_nat c = Some network →
    (num_pred net ≤ out_features network)%nat.

(** Following the specification: the negative-log-likelihood loss of one
    cluster, computed from that cluster's positions alone. *)
Definition cluster_nll (lstm_out : list (list F)) (target : list Z)
    (orig_indices : list nat) (network : Linear F) : result F :=
  rbind (gather lstm_out orig_indices) (λ inputs,
  rbind (gather target orig_indices) (λ tgt,
  nll_loss (map log_softmax (network_apply network inputs)) tgt)).

(** The clusters that received a position, with their networks, in order
    of cluster index (the first cluster has index [first]). *)
Definition contributing (indices : list (list nat)) (first : nat)
    (networks : list (Linear F)) : list (list nat * Linear F) :=
  omap (λ p : nat * Linear F,
          match indices !! p.1 with
          | Some [] | None => None
          | Some orig_indices => Some (orig_indices, p.2)
          end)
       (zip (seq first (length networks)) networks).

(** Following the specification: the per-cluster losses, added up in order
    of cluster index starting from the integer 0. *)
Definition total_nll (lstm_out : list (list F)) (target : list Z)
    (indices : list (list nat)) (networks : list (Linear F))
  : result (Loss F) :=
  rbind (mapR (λ p, cluster_nll lstm_out target p.1 p.2)
              (contributing indices 0 networks))
        (λ losses, Ok (foldl loss_add (PyInt 0) losses)).

End Model.

Arguments ClusteringLSTM F St : clear implicits.

(** ** [train_clustering_lstm.py]: the output widths [main] asks for *)

Section Main.
Context `{Countable K}.

(** [num_output_delta = [len(vocab) + 1 for vocab in target_vocab]] *)
Definition num_output_delta_of (target_vocab : list (Vocab K)) : list nat :=
  map (λ vocab, Z.to_nat (len vocab + 1)) target_vocab.

End Main.

(** * Properties

    ** Vocabulary *)

Section VocabFacts.
Context `{Countable K}.
Implicit Types (v : Vocab K) (k key : K) (keys more : list K).

Lemma vocab_inv_empty : vocab_inv (K:=K) (MkVocab ∅ ∅ 0).
Proof.
  split; simpl.
  - lia.
  - intros k c. by rewrite !lookup_empty.
  - intros c. rewrite lookup_empty. split; [by intros [? ?] | lia].
  - unfold codes. simpl. by rewrite map_to_list_empty.
Qed.

Lemma add_key_seen v key c :
  key_to_val v !! key = Some c → add_key v key = v.
Proof. intros Hc. unfold add_key. by rewrite Hc. Qed.

Lemma add_key_unseen v key :
  key_to_val v !! key = None →
  add_key v key =
    MkVocab (<[key := counter v]> (key_to_val v))
            (<[counter v := key]> (val_to_key v))
            (counter v + 1).
Proof. intros Hc. unfold add_key. by rewrite Hc. Qed.

Lemma fallback_unassigned v :
  vocab_inv v → val_to_key v !! counter v = None.
Proof.
  intros Hv. apply eq_None_not_Some. rewrite (inv_range v Hv). lia.
Qed.

Lemma vocab_inv_add_key v key : vocab_inv v → vocab_inv (add_key v key).
Proof.
  intros Hv. destruct (key_to_val v !! key) as [c|] eqn:Hk.
  { by rewrite (add_key_seen v key c). }
  rewrite add_key_unseen by done.
  pose proof (fallback_unassigned v Hv) as Hfree.
  destruct Hv as [Hnn Hinv Hrng Hcodes].
  split; simpl.
  - lia.
  - intros k c. destruct (decide (k = key)) as [->|Hne].
    + rewrite lookup_insert_eq. destruct (decide (c = counter v)) as [->|Hc].
      * by rewrite lookup_insert_eq.
      * rewrite lookup_insert_ne by done. split; [congruence|].
        intros Hck. apply Hinv in Hck. congruence.
    + rewrite lookup_insert_ne by done.
      destruct (decide (c = counter v)) as [->|Hc].
      * rewrite lookup_insert_eq. split; [|congruence].
        intros Hck. apply Hinv in Hck. congruence.
      * rewrite lookup_insert_ne by done. apply Hinv.
  - intros c. destruct (decide (c = counter v)) as [->|Hc].
    + rewrite lookup_insert_eq. split; [lia | eauto].
    + rewrite lookup_insert_ne by done. rewrite Hrng. lia.
  - unfold codes in *. simpl.
    rewrite map_to_list_insert by done. simpl. rewrite Hcodes.
    rewrite (seqZ_app 0 (counter v) 1) by lia.
    rewrite Z.add_0_l. by rewrite Permutation_cons_append.
Qed.

Lemma vocab_inv_foldl keys v :
  vocab_inv v → vocab_inv (foldl add_key v keys).
Proof.
  revert v. induction keys as [|k keys IH]; intros v Hv; simpl; [done|].
  apply IH. by apply vocab_inv_add_key.
Qed.

Lemma vocab_inv_init (all_keys : option (list K)) : vocab_inv (Vocab_init all_keys).
Proof.
  destruct all_keys as [keys|]; simpl.
  - apply vocab_inv_foldl, vocab_inv_empty.
  - apply vocab_inv_empty.
Qed.


(** Which keys have a code after a run of [add_key]. *)
Lemma assigned_add_key v key k :
  is_Some (key_to_val (add_key v key) !! k) ↔
  k = key ∨ is_Some (key_to_val v !! k).
Proof.
  unfold add_key. destruct (key_to_val v !! key) as [c|] eqn:Hk; simpl.
  - split; [by right|]. intros [->|Hs]; [eauto|done].
  - rewrite lookup_insert_is_Some.
    destruct (decide (key = k)) as [->|Hne]; [tauto|].
    split; [intros [?|[_ ?]]; [done|by right] | intros [->|?]; [done|by right]].
Qed.

Lemma assigned_foldl keys v k :
  is_Some (key_to_val (foldl add_key v keys) !! k) ↔
  k ∈ keys ∨ is_Some (key_to_val v !! k).
Proof.
  revert v. induction keys as [|key keys IH]; intros v; simpl.
  - split; [by right|]. intros [Hin|Hs]; [by apply elem_of_nil in Hin|done].
  - rewrite IH, assigned_add_key, elem_of_cons. tauto.
Qed.

Lemma assigned_init keys k :
  is_Some (key_to_val (Vocab_init (Some keys)) !! k) ↔ k ∈ keys.
Proof.
  simpl. rewrite assigned_foldl. simpl. rewrite lookup_empty.
  split; [intros [Hin|[? ?]]; done | by left].
Qed.

(** A code, once assigned, is kept by every later [add_key]. *)
Lemma add_key_keeps v key k c :
  key_to_val v !! k = Some c → key_to_val (add_key v key) !! k = Some c.
Proof.
  intros Hk. unfold add_key.
  destruct (key_to_val v !! key) as [c'|] eqn:Hkey; [done|]. simpl.
  rewrite lookup_insert_ne; [done|congruence].
Qed.

Lemma foldl_add_key_keeps keys v k c :
  key_to_val v !! k = Some c →
  key_to_val (foldl add_key v keys) !! k = Some c.
Proof.
  revert v. induction keys as [|key keys IH]; intros v Hk; simpl; [done|].
  by apply IH, add_key_keeps.
Qed.

Lemma get_val_unassigned v k :
  key_to_val v !! k = None → get_val v k = len v.
Proof. intros Hk. unfold get_val, len. by rewrite Hk. Qed.

Lemma get_key_get_val v k :
  vocab_inv v → is_Some (key_to_val v !! k) → get_key v (get_val v k) = Some k.
Proof.
  intros Hv [c Hc]. unfold get_key, get_val. rewrite Hc. simpl.
  by apply (inv_inverse v Hv).
Qed.

Lemma get_key_invalid v c :
  vocab_inv v → c < 0 ∨ len v ≤ c → get_key v c = None.
Proof.
  intros Hv Hc. unfold get_key, len in *. apply eq_None_not_Some.
  rewrite (inv_range v Hv). lia.
Qed.

(** Every code [get_val] returns fits an output of width [len + 1]. *)
Lemma get_val_within_width v k :
  vocab_inv v → 0 ≤ get_val v k < len v + 1.
Proof.
  intros Hv. unfold get_val, len.
  destruct (key_to_val v !! k) as [c|] eqn:Hc; simpl.
  - apply (inv_inverse v Hv) in Hc.
    assert (0 ≤ c < counter v) by (apply (inv_range v Hv); eauto). lia.
  - pose proof (inv_nonneg v Hv). lia.
Qed.

(** C2: a key that was never added is mapped by [get_val] to [len], the
    fallback code, and it still is after other keys are added; [get_val] is
    a total function, so the lookup cannot fail. *)
Theorem unknown_key_gets_fallback_code (keys more : list K) (k : K) :
  k ∉ keys → k ∉ more →
  get_val (Vocab_init (Some keys)) k = len (Vocab_init (Some keys)) ∧
  get_val (foldl add_key (Vocab_init (Some keys)) more) k
  = len (foldl add_key (Vocab_init (Some keys)) more).
Proof.
  intros Hkeys Hmore. split; apply get_val_unassigned, eq_None_not_Some.
  - by rewrite assigned_init.
  - rewrite assigned_foldl, assigned_init. tauto.
Qed.

(** C3: a key that was added has a code that later adds do not change,
    [get_key] maps that code back to the key, and [get_key] answers [None]
    for the fallback code and for every code outside [0, len). *)
Theorem added_key_code_stable_and_inverse (keys more : list K) (k : K) :
  k ∈ keys →
  let v := Vocab_init (Some keys) in
  get_val (foldl add_key v more) k = get_val v k ∧
  0 ≤ get_val v k < len v ∧
  get_key v (get_val v k) = Some k ∧
  get_key (foldl add_key v more) (get_val v k) = Some k ∧
  get_key v (len v) = None ∧
  ∀ c, c < 0 ∨ len v ≤ c → get_key v c = None.
Proof.
  intros Hin v.
  pose proof (vocab_inv_init (Some keys)) as Hv. fold v in Hv.
  assert (is_Some (key_to_val v !! k)) as Hs by by apply assigned_init.
  destruct Hs as [c Hc].
  assert (key_to_val (foldl add_key v more) !! k = Some c) as Hc'
    by by apply foldl_add_key_keeps.
  assert (get_val v k = c) as Hgv by (unfold get_val; by rewrite Hc).
  assert (get_key v c = Some k) as Hback.
  { rewrite <- Hgv. apply get_key_get_val; eauto. }
  repeat split.
  - unfold get_val. by rewrite Hc, Hc'.
  - rewrite Hgv. apply (inv_range v Hv). unfold get_key in Hback. eauto.
  - rewrite Hgv. fold (len v). apply (inv_range v Hv).
    unfold get_key in Hback. eauto.
  - by rewrite Hgv.
  - rewrite Hgv. unfold get_key.
    apply (inv_inverse _ (vocab_inv_foldl more v Hv)), Hc'.
  - apply get_key_invalid; [done|lia].
  - intros c0. by apply get_key_invalid.
Qed.

(** C4: in a vocabulary built by [add_key] from the empty one, the codes in
    use are a duplicate-free rearrangement of [0 .. len), exactly the added
    keys have a code and distinct keys have distinct codes; an unseen key
    gets code [len] and [len] grows by one, the other keys keeping their
    codes; adding a key that is present changes nothing. *)
Theorem codes_are_a_permutation_and_add_is_sequential (keys : list K) :
  let v := Vocab_init (Some keys) in
  codes v ≡ₚ seqZ 0 (len v) ∧
  NoDup (codes v) ∧
  (∀ k, is_Some (key_to_val v !! k) ↔ k ∈ keys) ∧
  (∀ k1 k2 c, key_to_val v !! k1 = Some c → key_to_val v !! k2 = Some c →
              k1 = k2) ∧
  (∀ k, k ∉ keys →
        get_val (add_key v k) k = len v ∧
        get_key (add_key v k) (len v) = Some k ∧
        len (add_key v k) = len v + 1 ∧
        ∀ k', k' ≠ k → key_to_val (add_key v k) !! k' = key_to_val v !! k') ∧
  (∀ k, k ∈ keys → add_key v k = v) ∧
  (∀ k, add_key (add_key v k) k = add_key v k).
Proof.
  intros v. pose proof (vocab_inv_init (Some keys)) as Hv. fold v in Hv.
  split_and!.
  - apply (inv_codes v Hv).
  - rewrite (inv_codes v Hv). apply NoDup_seqZ.
  - intros k. apply assigned_init.
  - intros k1 k2 c H1 H2.
    apply (inv_inverse v Hv) in H1. apply (inv_inverse v Hv) in H2. congruence.
  - intros k Hk.
    assert (key_to_val v !! k = None) as Hnone.
    { apply eq_None_not_Some. unfold v. by rewrite assigned_init. }
    rewrite add_key_unseen by done. unfold get_val, get_key, len. simpl.
    rewrite !lookup_insert_eq. split_and!; try done.
    intros k' Hne. by rewrite lookup_insert_ne.
  - intros k Hk. apply assigned_init in Hk as [c Hc].
    by apply add_key_seen with c.
  - intros k. destruct (key_to_val v !! k) as [c|] eqn:Hk.
    + rewrite !(add_key_seen v k c); done.
    + rewrite (add_key_unseen v k) by done.
      apply add_key_seen with (counter v). simpl. apply lookup_insert_eq.
Qed.

End VocabFacts.

(** ** Vocabulary builder *)

Section PandasFacts.
Context `{Countable K} `{!Ranking K}.
Implicit Types (k : K) (s keys : list K) (v : Vocab K).

Global Instance desc_count_trans : Transitive (@desc_count K).
Proof. intros a b c. unfold desc_count. lia. Qed.

Lemma elem_of_drop_duplicates_from seen s k :
  k ∈ drop_duplicates_from seen s ↔ k ∈ s ∧ k ∉ seen.
Proof.
  revert seen. induction s as [|x s IH]; intros seen; simpl.
  - rewrite elem_of_nil. tauto.
  - case_decide as Hx.
    + rewrite IH, elem_of_cons. split; [tauto|].
      intros [[->|?] ?]; tauto.
    + rewrite elem_of_cons, IH, !elem_of_cons.
      destruct (decide (k = x)) as [->|Hne]; tauto.
Qed.

Lemma NoDup_drop_duplicates_from seen s :
  NoDup (drop_duplicates_from seen s).
Proof.
  revert seen. induction s as [|x s IH]; intros seen; simpl.
  - constructor.
  - case_decide; [apply IH|]. constructor; [|apply IH].
    rewrite elem_of_drop_duplicates_from, elem_of_cons. tauto.
Qed.

Lemma elem_of_drop_duplicates s k : k ∈ drop_duplicates s ↔ k ∈ s.
Proof.
  unfold drop_duplicates. rewrite elem_of_drop_duplicates_from, elem_of_nil.
  tauto.
Qed.

Lemma NoDup_drop_duplicates s : NoDup (drop_duplicates s).
Proof. apply NoDup_drop_duplicates_from. Qed.

Lemma count_pos k s : (0 < count k s)%nat ↔ k ∈ s.
Proof.
  unfold count. induction s as [|x s IH]; simpl.
  - rewrite elem_of_nil. simpl. lia.
  - rewrite filter_cons, elem_of_cons. case_decide as Hx; simpl.
    + subst. split; [tauto|lia].
    + rewrite IH. split; [tauto|]. intros [->|?]; done.
Qed.

(** The rows of [value_counts]: each distinct value once, with its count. *)
Lemma value_counts_perm s :
  value_counts s ≡ₚ (λ k, (k, count k s)) <$> drop_duplicates s.
Proof. apply sort_values_perm. Qed.

Lemma elem_of_value_counts s k n :
  (k, n) ∈ value_counts s ↔ k ∈ s ∧ n = count k s.
Proof.
  rewrite value_counts_perm, list_elem_of_fmap. split.
  - intros (k' & Heq & Hin). injection Heq as -> ->.
    rewrite elem_of_drop_duplicates in Hin. by split.
  - intros [Hin ->]. exists k. by rewrite elem_of_drop_duplicates.
Qed.

Lemma value_counts_keys s : (value_counts s).*1 ≡ₚ drop_duplicates s.
Proof.
  rewrite value_counts_perm, <- list_fmap_compose.
  by rewrite (list_fmap_ext _ id (drop_duplicates s) (λ _ _ _, eq_refl)),
    list_fmap_id.
Qed.

Lemma NoDup_value_counts_keys s : NoDup (value_counts s).*1.
Proof. rewrite value_counts_keys. apply NoDup_drop_duplicates. Qed.

Lemma value_counts_sorted s : StronglySorted desc_count (value_counts s).
Proof. apply Sorted_StronglySorted; [apply _|apply sort_values_desc]. Qed.

(** Rows of a sorted series are in descending order of count. *)
Lemma sorted_lookup_desc (rows : list (K * nat)) i j a b :
  StronglySorted desc_count rows → (i < j)%nat →
  rows !! i = Some a → rows !! j = Some b → (b.2 ≤ a.2)%nat.
Proof.
  intros Hs. revert i j. induction Hs as [|x rows Hs IH Hall]; intros i j Hij Hi Hj.
  - by rewrite lookup_nil in Hi.
  - destruct j as [|j]; [lia|]. simpl in Hj. destruct i as [|i]; simpl in Hi.
    + injection Hi as ->. rewrite Forall_forall in Hall.
      apply Hall, list_elem_of_lookup. eauto.
    + apply (IH i j); [lia|done..].
Qed.


Lemma StronglySorted_sublist (l1 l2 : list (K * nat)) :
  l1 `sublist_of` l2 → StronglySorted desc_count l2 →
  StronglySorted desc_count l1.
Proof.
  induction 1 as [|x l1 l2 Hsub IH|x l1 l2 Hsub IH]; intros Hs.
  - constructor.
  - apply StronglySorted_inv in Hs as [Hs Hall]. constructor; [by apply IH|].
    rewrite Forall_forall in *. intros y Hy. apply Hall.
    by eapply elem_of_sublist.
  - apply StronglySorted_inv in Hs as [Hs _]. by apply IH.
Qed.

(** On a duplicate-free list of keys, [Vocab] numbers the keys by position. *)
Lemma foldl_add_key_NoDup keys v :
  vocab_inv v → NoDup keys → (∀ k, k ∈ keys → key_to_val v !! k = None) →
  counter (foldl add_key v keys) = counter v + Z.of_nat (length keys) ∧
  ∀ k c, key_to_val (foldl add_key v keys) !! k = Some c ↔
         key_to_val v !! k = Some c ∨
         ∃ i, keys !! i = Some k ∧ c = counter v + Z.of_nat i.
Proof.
  revert v. induction keys as [|key keys IH]; intros v Hv Hnd Hfresh; simpl.
  - split; [lia|]. intros k c. split; [by left|].
    intros [?|(i & Hi & _)]; [done|by rewrite lookup_nil in Hi].
  - apply NoDup_cons in Hnd as [Hkey Hnd].
    assert (key_to_val v !! key = None) as Hnone by (apply Hfresh; left).
    destruct (IH (add_key v key)) as [Hcnt Hlook].
    { by apply vocab_inv_add_key. }
    { done. }
    { intros k Hk. rewrite add_key_unseen by done. simpl.
      rewrite lookup_insert_ne; [apply Hfresh; by right|]. by intros ->. }
    rewrite add_key_unseen in Hcnt, Hlook |- * by done. simpl in Hcnt, Hlook.
    split; [lia|]. intros k c. rewrite Hlook. split.
    + intros [Hk|(i & Hi & ->)].
      * destruct (decide (key = k)) as [->|Hne].
        -- rewrite lookup_insert_eq in Hk. injection Hk as <-.
           right. exists 0%nat. split; [done|lia].
        -- rewrite lookup_insert_ne in Hk by done. by left.
      * right. exists (S i). split; [done|lia].
    + intros [Hk|(i & Hi & ->)].
      * left. rewrite lookup_insert_ne; [done|]. intros ->. congruence.
      * destruct i as [|i]; simpl in Hi.
        -- injection Hi as ->. left. rewrite lookup_insert_eq. f_equal. lia.
        -- right. exists i. split; [done|lia].
Qed.

Lemma Vocab_init_NoDup keys :
  NoDup keys →
  len (Vocab_init (Some keys)) = Z.of_nat (length keys) ∧
  ∀ k c, key_to_val (Vocab_init (Some keys)) !! k = Some c ↔
         ∃ i, keys !! i = Some k ∧ c = Z.of_nat i.
Proof.
  intros Hnd.
  destruct (foldl_add_key_NoDup keys (MkVocab ∅ ∅ 0)) as [Hcnt Hlook];
    [apply vocab_inv_empty|done|by intros; apply lookup_empty|].
  simpl in *. split; [unfold len; lia|].
  intros k c. rewrite Hlook, lookup_empty. simpl. split.
  - intros [?|?]; done.
  - by right.
Qed.

(** A series obtained from [value_counts] by keeping some rows, in order. *)
Lemma vocab_of_rows_ordered s (rows : list (K * nat)) k1 k2 c1 c2 :
  StronglySorted desc_count rows → NoDup rows.*1 →
  (∀ k n, (k, n) ∈ rows → n = count k s) →
  key_to_val (Vocab_init (Some rows.*1)) !! k1 = Some c1 →
  key_to_val (Vocab_init (Some rows.*1)) !! k2 = Some c2 →
  c1 < c2 → (count k2 s ≤ count k1 s)%nat.
Proof.
  intros Hs Hnd Hcount H1 H2 Hlt.
  apply (Vocab_init_NoDup _ Hnd) in H1 as (i1 & Hi1 & ->).
  apply (Vocab_init_NoDup _ Hnd) in H2 as (i2 & Hi2 & ->).
  apply list_lookup_fmap_Some in Hi1 as ([k1' n1] & -> & Hr1).
  apply list_lookup_fmap_Some in Hi2 as ([k2' n2] & -> & Hr2).
  simpl. rewrite <- (Hcount k1' n1), <- (Hcount k2' n2)
    by (apply list_elem_of_lookup; eauto).
  apply (sorted_lookup_desc rows i1 i2 (k1', n1) (k2', n2)); [done|lia|done..].
Qed.


(** The keys of a vocabulary built from a list. *)
Lemma dom_Vocab_init (keys : list K) :
  dom (key_to_val (Vocab_init (Some keys))) = (list_to_set keys : gset K).
Proof.
  apply set_eq. intros k.
  by rewrite elem_of_dom, assigned_init, elem_of_list_to_set.
Qed.

(** [make_output_vocab] meets [top_frequent] for the frequencies of the
    column it is given. *)
Lemma make_output_vocab_top_frequent s n :
  top_frequent (λ k, count k s) n (make_output_vocab s n).
Proof.
  unfold make_output_vocab, keys_tolist, nlargest.
  set (L := sort_values (value_counts s)).
  assert (L ≡ₚ value_counts s) as HL by apply sort_values_perm.
  assert (StronglySorted desc_count L) as Hsorted.
  { apply Sorted_StronglySorted; [apply _|apply sort_values_desc]. }
  assert (NoDup L.*1) as HndL.
  { rewrite HL. apply NoDup_value_counts_keys. }
  assert (NoDup (take n L).*1) as Hnd.
  { apply (sublist_NoDup _ L.*1); [done|]. apply fmap_sublist, sublist_take. }
  assert (∀ k m, (k, m) ∈ L ↔ k ∈ s ∧ m = count k s) as HinL.
  { intros k m. rewrite HL. apply elem_of_value_counts. }
  assert (∀ k, is_Some (key_to_val (Vocab_init (Some (take n L).*1)) !! k) ↔
               (k, count k s) ∈ take n L) as Hadm.
  { intros k. rewrite assigned_init, list_elem_of_fmap. split.
    - intros ([k' m] & -> & Hin). simpl.
      assert ((k', m) ∈ L) as HkL by (eapply elem_of_sublist, sublist_take; done).
      apply HinL in HkL as [_ ->]. done.
    - intros Hin. by exists (k, count k s). }
  assert ((list_to_set L.*1 : gset K) = list_to_set s) as Hvalues.
  { apply set_eq. intros k. rewrite !elem_of_list_to_set, list_elem_of_fmap.
    split.
    - intros ([k' m] & -> & Hin). by apply HinL in Hin as [? _].
    - intros Hk. exists (k, count k s). split; [done|]. by apply HinL. }
  assert (size (list_to_set s : gset K) = length L) as Hsize.
  { by rewrite <- Hvalues, size_list_to_set, length_fmap. }
  set (v := Vocab_init (Some (take n L).*1)).
  assert (size (dom (key_to_val v) : gset K) = min n (length L)) as Hkeys.
  { unfold v. rewrite dom_Vocab_init, size_list_to_set by done.
    by rewrite length_fmap, length_take. }
  destruct (Vocab_init_NoDup _ Hnd) as [Hlen Hcode]. fold v in Hlen, Hcode.
  rewrite length_fmap, length_take in Hlen.
  exists (list_to_set s). simpl. split_and!.
  - intros k. by rewrite elem_of_list_to_set, count_pos.
  - by rewrite Hkeys, Hsize.
  - rewrite Hsize. intros Hfew. unfold v.
    by rewrite dom_Vocab_init, take_ge, Hvalues by lia.
  - by rewrite Hkeys, Hlen.
  - intros c. rewrite Hlen. split.
    + intros (k & Hk). apply Hcode in Hk as (i & Hi & ->).
      apply lookup_lt_Some in Hi. rewrite length_fmap, length_take in Hi. lia.
    + intros Hc.
      destruct (lookup_lt_is_Some_2 (take n L).*1 (Z.to_nat c)) as [k Hk].
      { rewrite length_fmap, length_take. lia. }
      exists k. apply Hcode. exists (Z.to_nat c). split; [done|lia].
  - intros k. rewrite elem_of_dom, elem_of_list_to_set. intros Hk.
    apply Hadm in Hk.
    assert ((k, count k s) ∈ L) as HkL by (eapply elem_of_sublist, sublist_take; done).
    by apply HinL in HkL as [? _].
  - intros k k'. rewrite elem_of_list_to_set, !elem_of_dom.
    intros Hk Hk' Hout. apply Hadm in Hk.
    assert ((k', count k' s) ∈ drop n L) as Hdrop.
    { assert ((k', count k' s) ∈ take n L ++ drop n L) as Hin
        by (rewrite take_drop; by apply HinL).
      apply elem_of_app in Hin as [Hin|Hin]; [|done].
      by apply Hadm in Hin. }
    rewrite <- (take_drop n L) in Hsorted.
    apply (StronglySorted_app_1_elem_of _ _ _ _ _ Hsorted Hk Hdrop).
  - intros k1 k2 c1 c2. apply vocab_of_rows_ordered; [|done|].
    + rewrite <- (take_drop n L) in Hsorted.
      by apply StronglySorted_app_1_l in Hsorted.
    + intros k m Hin.
      assert ((k, m) ∈ L) as HkL by (eapply elem_of_sublist, sublist_take; done).
      by apply HinL in HkL as [_ ->].
Qed.

(** [top_frequent] depends on the frequencies only. *)
Lemma top_frequent_ext (freq freq' : K → nat) n v :
  (∀ k, freq k = freq' k) → top_frequent freq n v → top_frequent freq' n v.
Proof.
  intros Heq (values & Hval & Hsize & Hall & Hlen & Hcodes & Hsub & Hout & Hord).
  exists values. split_and!; try done.
  - intros k. by rewrite <- Heq.
  - intros k k'. rewrite <- !Heq. apply Hout.
  - intros k1 k2 c1 c2. rewrite <- !Heq. apply Hord.
Qed.

Lemma top_frequent_len_le freq n v : top_frequent freq n v → len v ≤ Z.of_nat n.
Proof. intros (values & _ & Hsize & _ & -> & _). lia. Qed.

(** [top_frequent] fixes the number of keys: a vocabulary with fewer keys
    than the cap allows does not meet it. *)
Lemma top_frequent_size freq n v (values : gset K) :
  (∀ k, k ∈ values ↔ (0 < freq k)%nat) → top_frequent freq n v →
  size (dom (key_to_val v) : gset K) = min n (size values).
Proof.
  intros Hvalues (values' & Hval & Hsize & _).
  assert (values = values') as ->; [|done].
  apply set_eq. intros k. by rewrite Hvalues, Hval.
Qed.

(** The rows selected by [loc_cluster] hold a value as often as the frame
    has examples with that cluster label and that output delta. *)
Lemma count_loc_cluster (cl : list Z) (d : list K) (c : Z) k :
  count k (loc_cluster cl d c) = examples_with cl d c k.
Proof.
  unfold count, loc_cluster. revert d.
  induction cl as [|label cl IH]; intros [|x d]; simpl; try done.
  rewrite filter_cons. simpl.
  destruct (decide (label = c)) as [->|Hne].
  - rewrite fmap_cons, filter_cons. simpl.
    destruct (decide (x = k)) as [->|Hx].
    + rewrite decide_True by done. simpl. by rewrite IH.
    + rewrite decide_False by tauto. by rewrite IH.
  - rewrite decide_False by tauto. by rewrite IH.
Qed.

(** The rows that [loc_cluster] selects. *)
Lemma elem_of_loc_cluster (cl : list Z) (d : list K) (c : Z) k :
  k ∈ loc_cluster cl d c ↔ ∃ i, cl !! i = Some c ∧ d !! i = Some k.
Proof.
  unfold loc_cluster. rewrite list_elem_of_fmap. split.
  - intros ([c' k'] & -> & Hin). apply list_elem_of_filter in Hin as [Hc Hin].
    simpl in Hc. subst c'. apply elem_of_lookup_zip_with in Hin
      as (i & c' & k'' & [= <- <-] & Hc & Hk). eauto.
  - intros (i & Hc & Hk). exists (c, k). split; [done|].
    apply list_elem_of_filter. split; [done|].
    apply elem_of_lookup_zip_with. eauto 10.
Qed.

(** C5: the input-delta vocabulary of [build_vocabs] holds exactly the
    values of the [delta_in] column that occur at least 10 times, and a key
    with a smaller code is at least as frequent as one with a larger code. *)
Theorem input_delta_vocab_is_frequency_pruned
    (data : DataFrame K) (num_clusters num_output_deltas : nat) :
  let delta_vocab := (build_vocabs data num_clusters num_output_deltas).1.2 in
  let s := col_delta_in data in
  (∀ k, is_Some (key_to_val delta_vocab !! k) ↔ (10 ≤ count k s)%nat) ∧
  (∀ k1 k2 c1 c2,
     key_to_val delta_vocab !! k1 = Some c1 →
     key_to_val delta_vocab !! k2 = Some c2 →
     c1 < c2 → (count k2 s ≤ count k1 s)%nat).
Proof.
  intros delta_vocab s. set (rows := loc_count_ge 10 (value_counts s)).
  assert (delta_vocab = Vocab_init (Some rows.*1)) as -> by reflexivity.
  assert (rows `sublist_of` value_counts s) as Hsub by apply sublist_filter.
  assert (∀ k n, (k, n) ∈ rows ↔ (10 ≤ n)%nat ∧ k ∈ s ∧ n = count k s) as Hrows.
  { intros k n. unfold rows, loc_count_ge.
    by rewrite list_elem_of_filter, elem_of_value_counts. }
  split.
  - intros k. rewrite assigned_init, list_elem_of_fmap. split.
    + intros ([k' n] & -> & Hin). apply Hrows in Hin as (? & _ & ->). done.
    + intros Hk. exists (k, count k s). split; [done|]. apply Hrows.
      split_and!; [done| |done]. apply count_pos. lia.
  - intros k1 k2 c1 c2. apply vocab_of_rows_ordered.
    + by apply (StronglySorted_sublist _ _ Hsub), value_counts_sorted.
    + apply (sublist_NoDup _ (value_counts s).*1);
        [apply NoDup_value_counts_keys | by apply fmap_sublist].
    + intros k n Hin. by apply Hrows in Hin as (_ & _ & ->).
Qed.

(** C6: with a ["cluster"] column, [build_vocabs] returns one output
    vocabulary per cluster index below [num_clusters], in order.  The one of
    cluster [c] contains exactly the [num_output_deltas] most frequent
    output deltas of the examples labelled [c], their frequency being the
    number of rows of the frame with label [c] and that output delta: it
    holds [num_output_deltas] keys, or every output delta of the cluster
    when there are no more than that, so its size is at most
    [num_output_deltas]; each of its keys is the output delta of a row
    labelled [c]; no output delta of the cluster left out is more frequent
    there than a key.  Without the column it returns a single vocabulary
    made by the same rule from the frequencies in the whole [delta_out]
    column. *)
Theorem output_vocabs_are_top_frequent_per_cluster
    (data : DataFrame K) (num_clusters num_output_deltas : nat) :
  match col_cluster data with
  | Some cl =>
      ∃ vocabs,
        (build_vocabs data num_clusters num_output_deltas).2 = PerCluster vocabs ∧
        length vocabs = num_clusters ∧
        ∀ c, (c < num_clusters)%nat →
          ∃ v, vocabs !! c = Some v ∧
               top_frequent
                 (examples_with cl (col_delta_out data) (Z.of_nat c))
                 num_output_deltas v ∧
               len v ≤ Z.of_nat num_output_deltas ∧
               ∀ k, is_Some (key_to_val v !! k) →
                    ∃ i, cl !! i = Some (Z.of_nat c) ∧
                         col_delta_out data !! i = Some k
  | None =>
      ∃ v,
        (build_vocabs data num_clusters num_output_deltas).2 = Single v ∧
        top_frequent (λ k, count k (col_delta_out data)) num_output_deltas v ∧
        len v ≤ Z.of_nat num_output_deltas
  end.
Proof.
  unfold build_vocabs. simpl. destruct (col_cluster data) as [cl|].
  - eexists. split; [done|]. split; [by rewrite length_map, length_seq|].
    intros c Hc. eexists. split.
    { change map with (@fmap list _). rewrite list_lookup_fmap.
      by rewrite lookup_seq_lt. }
    pose proof (make_output_vocab_top_frequent
                  (loc_cluster cl (col_delta_out data) (Z.of_nat c))
                  num_output_deltas) as Htop.
    split_and!.
    + eapply top_frequent_ext; [|exact Htop].
      intros k. apply count_loc_cluster.
    + by eapply top_frequent_len_le.
    + intros k Hk. apply elem_of_loc_cluster.
      unfold make_output_vocab in Hk. apply assigned_init in Hk.
      unfold keys_tolist, nlargest in Hk.
      apply list_elem_of_fmap in Hk as ([k' m] & -> & Hin).
      apply elem_of_take in Hin as (i & Hin & _).
      apply list_elem_of_lookup_2 in Hin.
      rewrite sort_values_perm in Hin.
      by apply elem_of_value_counts in Hin as [? _].
  - eexists. split; [done|].
    pose proof (make_output_vocab_top_frequent (col_delta_out data)
                  num_output_deltas) as Htop.
    split; [done|by eapply top_frequent_len_le].
Qed.

End PandasFacts.

(** The stable insertion sort is a ranking. *)
Section StableRankingFacts.
Context {K : Type}.
Implicit Types (x : K * nat) (s : list (K * nat)).

Lemma insert_desc_perm x s : insert_desc x s ≡ₚ x :: s.
Proof.
  induction s as [|y s IH]; simpl; [done|].
  case_decide; [done|]. rewrite IH. apply perm_swap.
Qed.

Lemma insert_desc_sorted x s :
  StronglySorted desc_count s → StronglySorted desc_count (insert_desc x s).
Proof.
  induction 1 as [|y s Hs IH Hall]; simpl.
  - repeat constructor.
  - case_decide as Hxy.
    + constructor; [by constructor|]. constructor; [done|].
      rewrite Forall_forall in *. intros z Hz. specialize (Hall z Hz).
      unfold desc_count in *. lia.
    + constructor; [done|]. rewrite insert_desc_perm.
      constructor; [unfold desc_count; lia|done].
Qed.

Lemma stable_sort_desc_perm s : stable_sort_desc s ≡ₚ s.
Proof.
  induction s as [|x s IH]; simpl; [done|].
  by rewrite insert_desc_perm, IH.
Qed.

Lemma stable_sort_desc_sorted s : Sorted desc_count (stable_sort_desc s).
Proof.
  apply StronglySorted_Sorted.
  induction s as [|x s IH]; simpl; [constructor|by apply insert_desc_sorted].
Qed.

End StableRankingFacts.

Definition stable_ranking (K : Type) : Ranking K :=
  {| sort_values := stable_sort_desc;
     sort_values_perm := stable_sort_desc_perm;
     sort_values_desc := stable_sort_desc_sorted |}.

(** ** The clustering model *)

Section ModelFacts.
Context `{!TensorOps F} {St : Type}.
Implicit Types (net : ClusteringLSTM F St) (network h : Linear F).
Implicit Types (indices : list (list nat)) (clusters target : list Z).
Implicit Types (log calls : list nat) (outputs : list (list Z)).

(** *** Results and indexing *)

Lemma rbind_Ok {A B} (r : result A) (f : A → result B) b :
  rbind r f = Ok b ↔ ∃ a, r = Ok a ∧ f a = Ok b.
Proof.
  destruct r as [a|e]; simpl; split.
  - eauto.
  - by intros (a' & [= <-] & ?).
  - done.
  - by intros (? & ? & ?).
Qed.

Lemma at_pos_Ok {A} (xs : list A) i x : at_pos xs i = Ok x ↔ xs !! i = Some x.
Proof.
  unfold at_pos. destruct (xs !! i); split; intros; simplify_eq; done.
Qed.

Lemma at_pos_lt {A} (xs : list A) i :
  (i < length xs)%nat → ∃ x, at_pos xs i = Ok x.
Proof.
  intros Hi. destruct (lookup_lt_is_Some_2 xs i Hi) as [x Hx].
  exists x. by apply at_pos_Ok.
Qed.

Lemma mapR_length {A B} (f : A → result B) xs ys :
  mapR f xs = Ok ys → length ys = length xs.
Proof.
  revert ys. induction xs as [|x xs IH]; intros ys; simpl.
  - by intros [= <-].
  - intros (y & _ & (ys' & Hys & [= <-])%rbind_Ok)%rbind_Ok.
    simpl. f_equal. by apply IH.
Qed.

Lemma mapR_total {A B} (f : A → result B) xs :
  Forall (λ x, ∃ y, f x = Ok y) xs → ∃ ys, mapR f xs = Ok ys.
Proof.
  induction 1 as [|x xs [y Hy] _ [ys Hys]]; simpl; [by eexists|].
  rewrite Hy, Hys. simpl. by eexists.
Qed.

Lemma gather_length {A} (xs : list A) positions ys :
  gather xs positions = Ok ys → length ys = length positions.
Proof. apply mapR_length. Qed.

Lemma gather_total {A} (xs : list A) positions :
  Forall (λ i, i < length xs)%nat positions → ∃ ys, gather xs positions = Ok ys.
Proof.
  intros Hall. apply mapR_total. eapply Forall_impl; [done|].
  intros i Hi. by apply at_pos_lt.
Qed.

(** *** Routing *)

Lemma py_index_lt n i j : py_index n i = Some j → (j < n)%nat.
Proof.
  unfold py_index. repeat case_decide; intros [= <-]; lia.
Qed.

Lemma py_index_valid n c :
  0 ≤ c < Z.of_nat n → py_index n c = Some (Z.to_nat c).
Proof. intros Hc. unfold py_index. by rewrite decide_True. Qed.

Lemma route_from_spec clusters : ∀ orig indices indices',
  route_from orig clusters indices = Ok indices' →
  length indices' = length indices ∧
  ∀ j l, indices !! j = Some l →
         indices' !! j = Some (l ++ routed_from (length indices) j orig clusters).
Proof.
  induction clusters as [|c clusters IH]; intros orig indices indices'; simpl.
  - intros [= <-]. split; [done|]. intros j l Hj. by rewrite app_nil_r.
  - destruct (py_index (length indices) c) as [i|] eqn:Hc; [|done].
    intros Hroute. apply IH in Hroute as [Hlen Hslots].
    rewrite length_alter in Hlen, Hslots. split; [done|].
    intros j l Hj. case_decide as Hij.
    + injection Hij as ->.
      rewrite (Hslots j (l ++ [orig])), <- app_assoc; [done|].
      by rewrite list_lookup_alter_eq, Hj.
    + apply Hslots. rewrite list_lookup_alter_ne; [done|congruence].
Qed.

Lemma route_spec n clusters indices :
  route n clusters = Ok indices →
  length indices = n ∧
  ∀ j, (j < n)%nat → indices !! j = Some (routed_from n j 0 clusters).
Proof.
  unfold route. intros Hroute. apply route_from_spec in Hroute as [Hlen Hslots].
  rewrite length_replicate in Hlen, Hslots. split; [done|].
  intros j Hj. by rewrite (Hslots j []) by by apply lookup_replicate_2.
Qed.

Lemma route_from_total clusters : ∀ orig indices,
  valid_labels (length indices) clusters →
  ∃ indices', route_from orig clusters indices = Ok indices'.
Proof.
  induction clusters as [|c clusters IH]; intros orig indices Hvalid; simpl.
  - by eexists.
  - apply Forall_cons in Hvalid as [Hc Hvalid].
    rewrite py_index_valid by done. apply IH. by rewrite length_alter.
Qed.

Lemma route_total n clusters :
  valid_labels n clusters → ∃ indices, route n clusters = Ok indices.
Proof.
  intros Hvalid. apply route_from_total. by rewrite length_replicate.
Qed.

(** With labels in range, slot [k] receives the positions labelled [k]. *)
Lemma routed_from_valid n k orig clusters :
  valid_labels n clusters →
  routed_from n k orig clusters
  = (filter (λ p, p.2 = Z.of_nat k) (imap (λ i c, (orig + i, c)%nat) clusters)).*1.
Proof.
  revert orig. induction clusters as [|c clusters IH]; intros orig Hvalid.
  - done.
  - apply Forall_cons in Hvalid as [Hc Hvalid]. simpl.
    rewrite py_index_valid, filter_cons by done. simpl.
    rewrite (imap_ext _ (λ i c, (S orig + i, c)%nat)) by (intros; simpl; f_equal; lia).
    rewrite (IH (S orig)) by done.
    destruct (decide (Some (Z.to_nat c) = Some k)) as [Heq|Hne].
    + injection Heq as <-. rewrite decide_True by lia. simpl.
      f_equal. lia.
    + rewrite decide_False; [done|]. intros ->. apply Hne. f_equal. lia.
Qed.

Lemma routed_valid n k clusters :
  valid_labels n clusters → routed_from n k 0 clusters = positions_of k clusters.
Proof. intros Hvalid. by rewrite routed_from_valid. Qed.

Lemma elem_of_positions_of k clusters i :
  i ∈ positions_of k clusters ↔ clusters !! i = Some (Z.of_nat k).
Proof.
  unfold positions_of. rewrite list_elem_of_fmap. split.
  - intros ([i' c] & -> & Hin). apply list_elem_of_filter in Hin as [Hc Hin].
    simpl in *. subst c.
    by apply elem_of_lookup_imap in Hin as (? & ? & [= -> ->] & ?).
  - intros Hi. exists (i, Z.of_nat k). split; [done|].
    apply list_elem_of_filter. split; [done|].
    apply elem_of_lookup_imap. eauto.
Qed.

Lemma positions_of_nil k clusters :
  Z.of_nat k ∉ clusters → positions_of k clusters = [].
Proof.
  intros Hk. destruct (positions_of k clusters) as [|i rest] eqn:Hpos; [done|].
  assert (i ∈ positions_of k clusters) as Hin by (rewrite Hpos; left).
  apply elem_of_positions_of in Hin.
  exfalso. apply Hk. apply list_elem_of_lookup. by exists i.
Qed.


(** *** Shapes *)

Lemma probabilities_of_length network (inputs : list (list F)) :
  length (probabilities_of network inputs) = length inputs.
Proof. unfold probabilities_of, network_apply. by rewrite !length_map. Qed.

Lemma probabilities_of_width network (inputs : list (list F)) :
  Forall (λ row, length row = out_features network)
         (probabilities_of network inputs).
Proof.
  unfold probabilities_of, network_apply. rewrite !Forall_map.
  apply Forall_true. intros x.
  unfold log_softmax, dropout, linear, out_features. by rewrite !length_map.
Qed.

Lemma topk_Ok (probabilities : list (list F)) k :
  Forall (λ row, (k ≤ length row)%nat) probabilities →
  ∃ preds, topk probabilities k = Ok preds ∧
           length preds = length probabilities ∧
           Forall (λ row, length row = k) preds.
Proof.
  intros Hwide. unfold topk. rewrite decide_True by done.
  eexists. split_and!; [done|by rewrite length_map|].
  rewrite Forall_map. eapply Forall_impl; [done|].
  intros row Hrow. by apply topk_indices_length.
Qed.

Lemma topk_narrow (probabilities : list (list F)) k w :
  probabilities ≠ [] → Forall (λ row, length row = w) probabilities →
  (w < k)%nat → topk probabilities k = Raise RuntimeError.
Proof.
  intros Hne Hw Hlt. unfold topk. rewrite decide_False; [done|].
  destruct probabilities as [|row rest]; [done|].
  intros [Hrow _]%Forall_cons. apply Forall_cons in Hw as [Hw _]. lia.
Qed.

Lemma scatter_total {A} (P : A → Prop) (positions : list nat) :
  ∀ (xs rows : list A),
  Forall (λ i, i < length xs)%nat positions →
  length rows = length positions →
  ∃ xs', scatter xs positions rows = Ok xs' ∧ length xs' = length xs ∧
         (Forall P xs → Forall P rows → Forall P xs').
Proof.
  induction positions as [|i positions IH]; intros xs rows Hpos Hlen.
  - destruct rows; [|done]. by exists xs.
  - destruct rows as [|row rows]; [done|]. simpl.
    apply Forall_cons in Hpos as [Hi Hpos]. rewrite decide_True by done.
    destruct (IH (<[i := row]> xs) rows) as (xs' & Hxs' & Hlen' & HP).
    { by rewrite length_insert. }
    { simpl in Hlen. lia. }
    exists xs'. rewrite length_insert in Hlen'. split_and!; [done..|].
    intros Hxs [Hrow Hrows]%Forall_cons. apply HP; [|done].
    by apply Forall_insert.
Qed.

Lemma gather_Forall {A} (P : A → Prop) (xs : list A) positions ys :
  gather xs positions = Ok ys →
  Forall (λ i, ∀ x, xs !! i = Some x → P x) positions → Forall P ys.
Proof.
  unfold gather. revert ys.
  induction positions as [|i positions IH]; intros ys; simpl.
  - intros [= <-]. constructor.
  - intros (y & Hy%at_pos_Ok & (ys' & Hys & [= <-])%rbind_Ok)%rbind_Ok.
    intros [Hi Hall]%Forall_cons. constructor; [by apply Hi|by apply IH].
Qed.

Lemma nll_picks_total (w : nat) : ∀ (probabilities : list (list F)) tgt,
  length probabilities = length tgt →
  Forall (λ row, length row = w) probabilities →
  Forall (λ t, t = -100 ∨ 0 ≤ t < Z.of_nat w) tgt →
  ∃ ps, nll_picks probabilities tgt = Ok ps.
Proof.
  induction probabilities as [|row probabilities IH]; intros tgt Hlen Hw Ht.
  - destruct tgt; [|done]. by eexists.
  - destruct tgt as [|t tgt]; [done|]. simpl.
    apply Forall_cons in Hw as [Hrow Hw]. apply Forall_cons in Ht as [Hv Ht].
    destruct (IH tgt) as [ps Hps]; [simpl in Hlen; lia|done..|].
    assert (∃ p, nll_pick row t = Ok p) as [p Hp].
    { unfold nll_pick. case_decide; [by eexists|].
      rewrite decide_True by lia.
      destruct (at_pos_lt row (Z.to_nat t)) as [x Hx]; [lia|].
      rewrite Hx. by eexists. }
    rewrite Hp, Hps. by eexists.
Qed.

(** *** One iteration of the loop over the cluster networks *)

Ltac unfold_monad := unfold bind, lift, ret, record_call in *.

Ltac case_result :=
  match goal with
  | |- context [match ?r with Ok _ => _ | Raise _ => _ end] =>
      destruct r eqn:?; simpl
  | |- context [rbind ?r _] => destruct r eqn:?; simpl
  end.

(** A cluster without positions: nothing is called, nothing is changed,
    nothing is raised. *)
Lemma cluster_step_skip net lstm_out indices (target : option (list Z))
    acc k network log :
  indices !! k = Some [] →
  cluster_step net lstm_out indices target acc k network log = (Ok acc, log).
Proof.
  intros Hk. unfold cluster_step. destruct acc as [loss outputs].
  unfold_monad. by rewrite (proj2 (at_pos_Ok indices k []) Hk).
Qed.

(** What one iteration adds to the log of calls. *)
Lemma cluster_step_log net lstm_out indices (target : option (list Z))
    acc k network log r log' :
  cluster_step net lstm_out indices target acc k network log = (r, log') →
  log' = log ∨
  (log' = log ++ [k] ∧ ∃ orig, indices !! k = Some orig ∧ orig ≠ []).
Proof.
  unfold cluster_step. destruct acc as [loss outputs]. unfold_monad.
  destruct (at_pos indices k) as [orig|e] eqn:Hk; simpl; [|intros [= <- <-]; by left].
  apply at_pos_Ok in Hk. case_decide as Hlen; [intros [= <- <-]; by left|].
  assert (orig ≠ []) as Hne by (by intros ->).
  destruct (gather lstm_out orig); simpl; [|intros [= <- <-]; by left].
  destruct target as [target|]; unfold_monad; repeat case_result;
    intros [= <- <-]; right; eauto.
Qed.

(** The network is irrelevant to an iteration that is skipped, and
    [cluster_step] reads nothing of the model but [num_pred]. *)
Lemma cluster_step_with_network net lstm_out indices (target : option (list Z))
    acc c network k h :
  cluster_step (with_network k h net) lstm_out indices target acc c network
  = cluster_step net lstm_out indices target acc c network.
Proof. reflexivity. Qed.

(** The loss after one iteration, with a target. *)
Lemma cluster_step_loss net lstm_out indices target loss outputs k network
    log loss' outputs' log' :
  cluster_step net lstm_out indices (Some target) (loss, outputs) k network log
  = (Ok (loss', outputs'), log') →
  (indices !! k = Some [] ∧ loss' = loss) ∨
  (∃ orig l, indices !! k = Some orig ∧ orig ≠ [] ∧
             cluster_nll lstm_out target orig network = Ok l ∧
             loss' = loss_add loss l).
Proof.
  unfold cluster_step, cluster_nll. unfold_monad.
  destruct (at_pos indices k) as [orig|e] eqn:Hk; simpl; [|done].
  apply at_pos_Ok in Hk. case_decide as Hlen.
  { intros [= <- <- <-]. left. by destruct orig. }
  assert (orig ≠ []) as Hne by (by intros ->).
  repeat case_result; try done. intros [= <- <- <-]. right.
  eexists orig, _. split_and!; [done..| |done].
  by repeat match goal with Hr : _ = Ok _ |- _ => rewrite Hr; clear Hr; simpl end.
Qed.

(** Without a target the loss is left alone. *)
Lemma cluster_step_no_target net lstm_out indices loss outputs k network
    log loss' outputs' log' :
  cluster_step net lstm_out indices None (loss, outputs) k network log
  = (Ok (loss', outputs'), log') →
  loss' = loss.
Proof.
  unfold cluster_step. unfold_monad.
  destruct (at_pos indices k) as [orig|e] eqn:Hk; simpl; [|done].
  case_decide as Hlen; [by intros [= <- <- <-]|].
  repeat case_result; try done. by intros [= <- <- <-].
Qed.


(** *** The loop over the cluster networks *)

Lemma clusters_loop_cons net lstm_out indices (target : option (list Z))
    c network networks acc log :
  clusters_loop net lstm_out indices target c (network :: networks) acc log
  = match cluster_step net lstm_out indices target acc c network log with
    | (Ok acc', log') =>
        clusters_loop net lstm_out indices target (S c) networks acc' log'
    | (Raise e, log') => (Raise e, log')
    end.
Proof. reflexivity. Qed.

(** The calls made by the loop: only networks of clusters that own a
    position. *)
Lemma clusters_loop_log net lstm_out indices (target : option (list Z)) networks :
  ∀ c acc log r log',
  clusters_loop net lstm_out indices target c networks acc log = (r, log') →
  ∃ calls, log' = log ++ calls ∧
           ∀ j, j ∈ calls → ∃ orig, indices !! j = Some orig ∧ orig ≠ [].
Proof.
  induction networks as [|network networks IH]; intros c acc log r log'.
  - intros [= <- <-]. exists []. split; [by rewrite app_nil_r|].
    intros j Hj. by apply elem_of_nil in Hj.
  - rewrite clusters_loop_cons.
    destruct (cluster_step net lstm_out indices target acc c network log)
      as [[acc'|e] log1] eqn:Hstep.
    + intros Hloop. apply IH in Hloop as (calls & -> & Hcalls).
      apply cluster_step_log in Hstep as [->|[-> Horig]]; [by exists calls|].
      exists (c :: calls). split; [by rewrite <- app_assoc|].
      intros j [->|Hj]%elem_of_cons; [done|by apply Hcalls].
    + intros [= <- <-].
      apply cluster_step_log in Hstep as [->|[-> Horig]].
      * exists []. split; [by rewrite app_nil_r|].
        intros j Hj. by apply elem_of_nil in Hj.
      * exists [c]. split; [done|].
        by intros j ->%list_elem_of_singleton.
Qed.

Lemma clusters_loop_with_network net lstm_out indices (target : option (list Z))
    k h networks :
  ∀ c acc log,
  clusters_loop (with_network k h net) lstm_out indices target c networks
                acc log
  = clusters_loop net lstm_out indices target c networks acc log.
Proof.
  induction networks as [|network networks IH]; intros c acc log; [done|].
  rewrite !clusters_loop_cons, cluster_step_with_network.
  destruct (cluster_step _ _ _ _ _ _ _ _) as [[acc'|e] log1]; [apply IH|done].
Qed.

(** Replacing the network of a cluster without positions changes nothing. *)
Lemma clusters_loop_insert_skipped net lstm_out indices
    (target : option (list Z)) h networks :
  ∀ c i acc log,
  indices !! (c + i)%nat = Some [] →
  clusters_loop net lstm_out indices target c (<[i := h]> networks) acc log
  = clusters_loop net lstm_out indices target c networks acc log.
Proof.
  induction networks as [|network networks IH]; intros c i acc log Hskip;
    [done|].
  destruct i as [|i]; simpl insert; rewrite !clusters_loop_cons.
  - rewrite Nat.add_0_r in Hskip. by rewrite !cluster_step_skip.
  - destruct (cluster_step _ _ _ _ _ _ _ _) as [[acc'|e] log1]; [|done].
    apply IH. by replace (S c + i)%nat with (c + S i)%nat by lia.
Qed.

Lemma contributing_cons indices c network networks :
  contributing indices c (network :: networks)
  = match indices !! c with
    | Some (i :: orig) => [(i :: orig, network)]
    | _ => []
    end ++ contributing indices (S c) networks.
Proof.
  unfold contributing. simpl.
  by destruct (indices !! c) as [[|i orig]|].
Qed.

(** The loss the loop returns is the sum of the losses of the clusters
    that own a position, each computed on its own positions. *)
Lemma clusters_loop_loss net lstm_out indices target networks :
  ∀ c loss outputs log loss' outputs' log',
  clusters_loop net lstm_out indices (Some target) c networks
                (loss, outputs) log
  = (Ok (loss', outputs'), log') →
  ∃ losses,
    mapR (λ p, cluster_nll lstm_out target p.1 p.2)
         (contributing indices c networks) = Ok losses ∧
    loss' = foldl loss_add loss losses.
Proof.
  induction networks as [|network networks IH];
    intros c loss outputs log loss' outputs' log'.
  - intros [= <- <- <-]. by exists [].
  - rewrite clusters_loop_cons, contributing_cons.
    destruct (cluster_step _ _ _ _ _ _ _ _) as [[[loss1 outputs1]|e] log1]
      eqn:Hstep; [|done].
    intros (losses & Hlosses & ->)%IH.
    apply cluster_step_loss in Hstep
      as [[Hk ->]|(orig & l & Hk & Hne & Hl & ->)]; rewrite Hk.
    + by exists losses.
    + destruct orig as [|i orig]; [done|]. exists (l :: losses).
      simpl. by rewrite Hl, Hlosses.
Qed.

Lemma clusters_loop_no_target net lstm_out indices networks :
  ∀ c loss outputs log loss' outputs' log',
  clusters_loop net lstm_out indices None c networks (loss, outputs) log
  = (Ok (loss', outputs'), log') →
  loss' = loss.
Proof.
  induction networks as [|network networks IH];
    intros c loss outputs log loss' outputs' log'.
  - by intros [= <- <- <-].
  - rewrite clusters_loop_cons.
    destruct (cluster_step _ _ _ _ _ _ _ _) as [[[loss1 outputs1]|e] log1]
      eqn:Hstep; [|done].
    intros ->%IH. by apply cluster_step_no_target in Hstep.
Qed.

(** When no cluster owns a position the loop returns what it was given. *)
Lemma clusters_loop_all_empty net lstm_out indices (target : option (list Z))
    networks :
  ∀ c acc log,
  (∀ j, (c ≤ j < c + length networks)%nat → indices !! j = Some []) →
  clusters_loop net lstm_out indices target c networks acc log = (Ok acc, log).
Proof.
  induction networks as [|network networks IH]; intros c acc log Hempty;
    [done|].
  rewrite clusters_loop_cons, cluster_step_skip by (apply Hempty; simpl; lia).
  apply IH. intros j Hj. apply Hempty. simpl. lia.
Qed.


(** *** When the loop raises and when it does not *)

(** A cluster that owns a position and whose network is narrower than
    [num_pred] makes its iteration raise. *)
Lemma cluster_step_narrow net lstm_out indices (target : option (list Z))
    acc k network log orig :
  indices !! k = Some orig → orig ≠ [] →
  (out_features network < num_pred net)%nat →
  ∃ e log', cluster_step net lstm_out indices target acc k network log
            = (Raise e, log').
Proof.
  intros Hk Hne Hnarrow. unfold cluster_step. destruct acc as [loss outputs].
  unfold_monad. rewrite (proj2 (at_pos_Ok indices k orig) Hk).
  rewrite decide_False by (by destruct orig).
  destruct (gather lstm_out orig) as [inputs|e] eqn:Hg; simpl; [|by eauto].
  assert (topk (probabilities_of network inputs) (num_pred net)
          = Raise RuntimeError) as Htopk.
  { apply topk_narrow with (out_features network);
      [|apply probabilities_of_width|done].
    intros Hnil. apply (f_equal length) in Hnil.
    rewrite probabilities_of_length, (gather_length _ _ _ Hg) in Hnil.
    by destruct orig. }
  unfold probabilities_of in Htopk.
  destruct target as [target|]; unfold_monad; repeat case_result; eauto;
    congruence.
Qed.

Lemma clusters_loop_narrow net lstm_out indices (target : option (list Z))
    networks :
  ∀ c acc log i network orig,
  networks !! i = Some network → indices !! (c + i)%nat = Some orig →
  orig ≠ [] → (out_features network < num_pred net)%nat →
  ∃ e log', clusters_loop net lstm_out indices target c networks acc log
            = (Raise e, log').
Proof.
  induction networks as [|network0 networks IH];
    intros c acc log i network orig Hi Hk Hne Hnarrow; [done|].
  rewrite clusters_loop_cons. destruct i as [|i]; simpl in Hi.
  - injection Hi as ->. rewrite Nat.add_0_r in Hk.
    destruct (cluster_step_narrow net lstm_out indices target acc c network
                log orig) as (e & log' & ->); eauto.
  - destruct (cluster_step _ _ _ _ _ _ _ _) as [[acc'|e] log1]; [|by eauto].
    apply (IH (S c) acc' log1 i network orig); [done| |done..].
    by replace (S c + i)%nat with (c + S i)%nat by lia.
Qed.

(** An iteration whose positions are in range and whose network is wide
    enough returns, and keeps the shape of the output tensor. *)
Lemma cluster_step_total net lstm_out indices (target : option (list Z))
    loss outputs k network log orig :
  indices !! k = Some orig →
  positions_ok lstm_out (length outputs) target network orig →
  (orig ≠ [] → (num_pred net ≤ out_features network)%nat) →
  Forall (λ row, length row = num_pred net) outputs →
  ∃ loss' outputs' log',
    cluster_step net lstm_out indices target (loss, outputs) k network log
    = (Ok (loss', outputs'), log') ∧
    length outputs' = length outputs ∧
    Forall (λ row, length row = num_pred net) outputs'.
Proof.
  intros Hk Hpos Hwide Hshape.
  destruct (decide (orig = [])) as [->|Hne].
  { rewrite cluster_step_skip by done. eauto 10. }
  specialize (Hwide Hne). unfold cluster_step, positions_ok in *.
  unfold_monad. rewrite (proj2 (at_pos_Ok indices k orig) Hk).
  rewrite decide_False by (by destruct orig).
  destruct (gather_total lstm_out orig) as [inputs Hg].
  { eapply Forall_impl; [done|]. by intros i (? & _). }
  rewrite Hg. simpl. fold (probabilities_of network inputs).
  pose proof (probabilities_of_length network inputs) as Hplen.
  pose proof (probabilities_of_width network inputs) as Hpw.
  rewrite (gather_length _ _ _ Hg) in Hplen.
  destruct (topk_Ok (probabilities_of network inputs) (num_pred net))
    as (preds & Htopk & Hlen & Hrows).
  { eapply Forall_impl; [done|]. intros row ->. done. }
  destruct (scatter_total (λ row, length row = num_pred net) orig outputs preds)
    as (outputs' & Hsc & Hlen' & Hshape'); [|lia|].
  { eapply Forall_impl; [done|]. by intros i (_ & ? & _). }
  assert (∃ loss',
    match target with
    | Some target =>
        λ log0, match gather target orig with
                | Ok tgt =>
                    match nll_loss (probabilities_of network inputs) tgt with
                    | Ok l => (Ok (loss_add loss l), log0)
                    | Raise e => (Raise e, log0)
                    end
                | Raise e => (Raise e, log0)
                end
    | None => λ log0, (Ok loss, log0)
    end (log ++ [k]) = (Ok loss', log ++ [k])) as [loss' Hloss].
  { destruct target as [target|]; [|by eexists].
    destruct (gather_total target orig) as [tgt Htgt].
    { eapply Forall_impl; [done|]. intros i (_ & _ & t & Ht & _).
      by apply lookup_lt_Some in Ht. }
    rewrite Htgt.
    destruct (nll_picks_total (out_features network)
                (probabilities_of network inputs) tgt) as [ps Hps];
      [by rewrite Hplen, (gather_length _ _ _ Htgt)|done| |].
    { apply (gather_Forall _ _ _ _ Htgt). eapply Forall_impl; [done|].
      intros i (_ & _ & t & Ht & Hv) x Hx. congruence. }
    unfold nll_loss. rewrite Hps. by eexists. }
  exists loss', outputs', (log ++ [k]).
  split; [|by auto]. unfold probabilities_of in *.
  destruct target as [target|]; unfold_monad.
  - destruct (gather target orig) as [tgt|]; [|done].
    destruct (nll_loss _ tgt) as [l|]; [|done].
    injection Hloss as <-. by rewrite Htopk, Hsc.
  - injection Hloss as <-. by rewrite Htopk, Hsc.
Qed.

Lemma clusters_loop_total net lstm_out indices (target : option (list Z))
    networks :
  ∀ c loss outputs log,
  (∀ i network, networks !! i = Some network →
     ∃ orig, indices !! (c + i)%nat = Some orig ∧
             positions_ok lstm_out (length outputs) target network orig ∧
             (orig ≠ [] → (num_pred net ≤ out_features network)%nat)) →
  Forall (λ row, length row = num_pred net) outputs →
  ∃ loss' outputs' log',
    clusters_loop net lstm_out indices target c networks (loss, outputs) log
    = (Ok (loss', outputs'), log') ∧
    length outputs' = length outputs ∧
    Forall (λ row, length row = num_pred net) outputs'.
Proof.
  induction networks as [|network networks IH];
    intros c loss outputs log Hready Hshape.
  - exists loss, outputs, log. by split_and!.
  - rewrite clusters_loop_cons.
    destruct (Hready 0%nat network) as (orig & Hk & Hpos & Hwide); [done|].
    rewrite Nat.add_0_r in Hk.
    destruct (cluster_step_total net lstm_out indices target loss outputs c
                network log orig)
      as (loss1 & outputs1 & log1 & -> & Hlen1 & Hshape1); [done..|].
    destruct (IH (S c) loss1 outputs1 log1)
      as (loss' & outputs' & log' & -> & Hlen' & Hshape'); [|done|].
    { intros i network' Hi. rewrite Hlen1.
      replace (S c + i)%nat with (c + S i)%nat by lia. by apply Hready. }
    exists loss', outputs', log'. split_and!; [done|lia|done].
Qed.

Lemma zeros_shape rows cols :
  length (zeros rows cols) = rows ∧
  Forall (λ row, length row = cols) (zeros rows cols).
Proof.
  unfold zeros. split; [apply length_replicate|].
  apply Forall_replicate, length_replicate.
Qed.

Lemma routed_from_nonempty n j c clusters : ∀ orig,
  c ∈ clusters → py_index n c = Some j → routed_from n j orig clusters ≠ [].
Proof.
  induction clusters as [|c' clusters IH]; intros orig Hin Hc.
  - by apply elem_of_nil in Hin.
  - simpl. apply elem_of_cons in Hin as [<-|Hin].
    + by rewrite decide_True.
    + case_decide; [done|]. by apply IH.
Qed.

(** [__init__] gives the network of cluster [c] the output width
    [num_output_delta[c]]. *)
Lemma init_out_features w_pc w_delta w_head b_head
    (backbone : list (list F) → option St → result (list (list F) * St))
    num_pc num_input_delta num_output_delta embed_dim hidden_dim k c :
  out_features <$>
    cluster_networks (ClusteringLSTM_init w_pc w_delta w_head b_head backbone
                        num_pc num_input_delta num_output_delta
                        embed_dim hidden_dim k) !! c
  = num_output_delta !! c.
Proof.
  simpl. rewrite list_lookup_imap.
  destruct (num_output_delta !! c) as [num_outputs|]; [|done]. simpl.
  unfold out_features. simpl. by rewrite length_map, length_seq.
Qed.

(** *** [forward] and [predict] *)

Lemma forward_eq net pc delta clusters (st : option St)
    (target : option (list Z)) log :
  forward net (pc, delta, clusters) st target log
  = match backbone net pc delta st with
    | Ok (lstm_out, state) =>
        match route (length (cluster_networks net)) clusters with
        | Ok indices =>
            match clusters_loop net lstm_out indices target 0
                    (cluster_networks net)
                    (PyInt 0, zeros (length pc) (num_pred net)) log with
            | (Ok (loss, outputs), log') => (Ok (loss, outputs, state), log')
            | (Raise e, log') => (Raise e, log')
            end
        | Raise e => (Raise e, log)
        end
    | Raise e => (Raise e, log)
    end.
Proof.
  unfold forward. unfold_monad.
  destruct (backbone net pc delta st) as [[lstm_out state]|e]; [|done].
  destruct (route _ clusters) as [indices|e]; [|done].
  by destruct (clusters_loop _ _ _ _ _ _ _ _) as [[[loss outputs]|e] log'].
Qed.

Lemma forward_Ok net pc delta clusters (st : option St)
    (target : option (list Z)) log loss outputs state log' :
  forward net (pc, delta, clusters) st target log
  = (Ok (loss, outputs, state), log') →
  ∃ lstm_out indices,
    backbone net pc delta st = Ok (lstm_out, state) ∧
    route (length (cluster_networks net)) clusters = Ok indices ∧
    clusters_loop net lstm_out indices target 0 (cluster_networks net)
                  (PyInt 0, zeros (length pc) (num_pred net)) log
    = (Ok (loss, outputs), log').
Proof.
  rewrite forward_eq.
  destruct (backbone net pc delta st) as [[lstm_out state']|e]; [|done].
  destruct (route _ clusters) as [indices|e]; [|done].
  destruct (clusters_loop _ _ _ _ _ _ _ _) as [[[loss1 outputs1]|e] log1] eqn:Hl;
    [|done].
  intros [= -> -> -> ->]. eauto.
Qed.

(** A well-formed batch whose labels select networks at least [num_pred]
    wide goes through [forward], which returns one row of [num_pred] codes
    per position. *)
Lemma forward_total net pc delta clusters (st : option St)
    (target : option (list Z)) log lstm_out state :
  backbone net pc delta st = Ok (lstm_out, state) →
  length lstm_out = length pc →
  valid_labels (length (cluster_networks net)) clusters →
  (length clusters ≤ length pc)%nat →
  targets_ok net clusters target →
  num_pred_fits net clusters →
  ∃ loss outputs log',
    forward net (pc, delta, clusters) st target log
    = (Ok (loss, outputs, state), log') ∧
    length outputs = length pc ∧
    Forall (λ row, length row = num_pred net) outputs.
Proof.
  intros Hb Hout Hvalid Hlen Htargets Hfits.
  destruct (route_total _ _ Hvalid) as [indices Hroute].
  pose proof (route_spec _ _ _ Hroute) as [_ Hslots].
  destruct (zeros_shape (length pc) (num_pred net)) as [Hzlen Hzshape].
  destruct (clusters_loop_total net lstm_out indices target
              (cluster_networks net) 0 (PyInt 0)
              (zeros (length pc) (num_pred net)) log)
    as (loss & outputs & log' & Hloop & Hlen' & Hshape'); [|done|].
  { intros j network Hj. simpl.
    assert (j < length (cluster_networks net))%nat as Hjn
      by by eapply lookup_lt_Some.
    exists (positions_of j clusters).
    rewrite Hslots, routed_valid by done. split_and!; [done| |].
    - unfold positions_ok. rewrite Forall_forall, Hzlen.
      intros i Hi%elem_of_positions_of.
      pose proof (lookup_lt_Some _ _ _ Hi) as Hilt.
      split_and!; [lia..|].
      destruct target as [target|]; [|done].
      destruct (Htargets i _ Hi) as (t & network' & Ht & Hnet & Hv).
      rewrite Nat2Z.id, Hj in Hnet. injection Hnet as <-. eauto.
    - intros Hne. destruct (positions_of j clusters) as [|i rest] eqn:Hpos;
        [done|].
      assert (i ∈ positions_of j clusters) as Hi by (rewrite Hpos; left).
      apply elem_of_positions_of in Hi.
      apply (Hfits (Z.of_nat j)); [|by rewrite Nat2Z.id].
      apply list_elem_of_lookup. eauto. }
  exists loss, outputs, log'. rewrite forward_eq, Hb, Hroute, Hloop.
  split_and!; [done|lia|done].
Qed.

(** With labels in range, a cluster whose index is no label gets no
    position. *)
Lemma route_unlabelled n clusters indices k :
  route n clusters = Ok indices → valid_labels n clusters → (k < n)%nat →
  Z.of_nat k ∉ clusters → indices !! k = Some [].
Proof.
  intros Hroute Hvalid Hk Hnot. apply route_spec in Hroute as [_ Hslots].
  by rewrite Hslots, routed_valid, positions_of_nil.
Qed.

(** C1: with labels in range and no label equal to [k], routing gives
    cluster [k] no position; the loop iteration for [k] is then the identity
    on the loss and the output tensor and raises nothing, whatever network
    it is given; no run of [forward] calls the network of cluster [k]; and
    [forward] returns the same whatever that network is, so it adds nothing
    to the loss and writes no output row. *)
Theorem empty_cluster_is_skipped net pc delta clusters (st : option St)
    (target : option (list Z)) log k :
  (k < length (cluster_networks net))%nat →
  valid_labels (length (cluster_networks net)) clusters →
  Z.of_nat k ∉ clusters →
  (∃ indices,
     route (length (cluster_networks net)) clusters = Ok indices ∧
     indices !! k = Some [] ∧
     ∀ lstm_out acc network log0,
       cluster_step net lstm_out indices target acc k network log0
       = (Ok acc, log0)) ∧
  (∀ r log', forward net (pc, delta, clusters) st target log = (r, log') →
             ∃ calls, log' = log ++ calls ∧ k ∉ calls) ∧
  (∀ h, forward (with_network k h net) (pc, delta, clusters) st target log
        = forward net (pc, delta, clusters) st target log).
Proof.
  intros Hk Hvalid Hnot.
  destruct (route_total _ _ Hvalid) as [indices Hroute].
  pose proof (route_unlabelled _ _ _ _ Hroute Hvalid Hk Hnot) as Hempty.
  split_and!.
  - exists indices. split_and!; [done..|].
    intros lstm_out acc network log0. by apply cluster_step_skip.
  - intros r log'. rewrite forward_eq, Hroute.
    destruct (backbone net pc delta st) as [[lstm_out state]|e].
    + destruct (clusters_loop _ _ _ _ _ _ _ _) as [r1 log1] eqn:Hloop.
      apply clusters_loop_log in Hloop as (calls & -> & Hcalls).
      intros Hr. exists calls. split.
      { by destruct r1 as [[loss outputs]|e]; injection Hr as <- <-. }
      intros (orig & Horig & Hne)%Hcalls. congruence.
    + intros [= <- <-]. exists []. split; [by rewrite app_nil_r|].
      apply not_elem_of_nil.
  - intros h. rewrite !forward_eq. simpl. rewrite length_insert, Hroute.
    change (backbone (with_network k h net) pc delta st)
      with (backbone net pc delta st).
    destruct (backbone net pc delta st) as [[lstm_out state]|e]; [|done].
    by rewrite clusters_loop_with_network, clusters_loop_insert_skipped.
Qed.

(** C7: the loss [forward] returns for a target is the sum, in order of
    cluster index and starting from the integer 0, of the losses of the
    clusters that own a position, each computed by [nll_loss] on the
    log-probabilities and targets gathered at that cluster's positions;
    without a target it is the integer 0; and when no cluster owns a
    position the loop raises nothing and [forward] returns the integer 0
    and the zero tensor. *)
Theorem loss_is_sum_of_cluster_losses net pc delta clusters (st : option St)
    log :
  (∀ target loss outputs state log',
     forward net (pc, delta, clusters) st (Some target) log
     = (Ok (loss, outputs, state), log') →
     ∃ lstm_out indices,
       backbone net pc delta st = Ok (lstm_out, state) ∧
       route (length (cluster_networks net)) clusters = Ok indices ∧
       total_nll lstm_out target indices (cluster_networks net) = Ok loss) ∧
  (∀ loss outputs state log',
     forward net (pc, delta, clusters) st None log
     = (Ok (loss, outputs, state), log') →
     loss = PyInt 0) ∧
  (∀ (maybe_target : option (list Z)) lstm_out state indices,
     backbone net pc delta st = Ok (lstm_out, state) →
     route (length (cluster_networks net)) clusters = Ok indices →
     (∀ j, (j < length (cluster_networks net))%nat → indices !! j = Some []) →
     forward net (pc, delta, clusters) st maybe_target log
     = (Ok (PyInt 0, zeros (length pc) (num_pred net), state), log)).
Proof.
  split_and!.
  - intros target loss outputs state log' Hfwd.
    apply forward_Ok in Hfwd as (lstm_out & indices & Hb & Hr & Hloop).
    exists lstm_out, indices. split_and!; [done..|].
    apply clusters_loop_loss in Hloop as (losses & Hlosses & ->).
    unfold total_nll. by rewrite Hlosses.
  - intros loss outputs state log' Hfwd.
    apply forward_Ok in Hfwd as (lstm_out & indices & _ & _ & Hloop).
    by apply clusters_loop_no_target in Hloop.
  - intros target lstm_out state indices Hb Hr Hempty.
    rewrite forward_eq, Hb, Hr, clusters_loop_all_empty; [done|].
    intros j Hj. apply Hempty. lia.
Qed.

(** C9: [predict] runs [forward] without a target and returns its
    predictions and state, raising whenever [forward] does; that run of
    [forward] computes no loss: what it returns as loss is the integer 0 it
    started from.  (Gradient tracking has no counterpart in the model.) *)
Theorem predict_is_forward_without_target net
    (X : list Z * list Z * list Z) (st : option St) log :
  predict net X st log
  = match forward net X st None log with
    | (Ok (_, preds, state), log') => (Ok (preds, state), log')
    | (Raise e, log') => (Raise e, log')
    end ∧
  ∀ loss preds state log',
    forward net X st None log = (Ok (loss, preds, state), log') →
    loss = PyInt 0 ∧ predict net X st log = (Ok (preds, state), log').
Proof.
  assert (predict net X st log
          = match forward net X st None log with
            | (Ok (_, preds, state), log') => (Ok (preds, state), log')
            | (Raise e, log') => (Raise e, log')
            end) as Hpredict.
  { unfold predict. unfold_monad.
    by destruct (forward net X st None log) as [[[[loss preds] state]|e] log']. }
  split; [done|]. intros loss preds state log' Hfwd.
  rewrite Hpredict, Hfwd. split; [|done].
  destruct X as [[pc delta] clusters].
  apply forward_Ok in Hfwd as (lstm_out & indices & _ & _ & Hloop).
  by apply clusters_loop_no_target in Hloop.
Qed.


(** C10: for a cluster that owns a position, [topk] returns exactly when
    [num_pred] is at most the output width of the cluster's network, a
    width that [__init__] takes from [num_output_delta], which [main] sets
    to the size of the cluster's vocabulary plus one.  When that holds
    for every network a label selects (and the batch is otherwise well
    formed: labels in range, one label and one valid target at most per
    position, the backbone returning one output per position), [forward]
    returns a tensor of [len(pc)] rows of [num_pred] codes.  When a label
    selects a network narrower than [num_pred], [forward] raises. *)
Theorem topk_needs_num_pred_within_head_width net pc delta clusters
    (st : option St) (target : option (list Z)) log :
  (∀ network (inputs : list (list F)), inputs ≠ [] →
     (∃ preds, topk (probabilities_of network inputs) (num_pred net) = Ok preds)
     ↔ (num_pred net ≤ out_features network)%nat) ∧
  (∀ (w_pc w_delta : nat → nat → F) w_head b_head run_lstm num_pc
     num_input_delta num_output_delta embed_dim hidden_dim k c,
     out_features <$>
       cluster_networks
         (ClusteringLSTM_init (St:=St) w_pc w_delta w_head b_head run_lstm
            num_pc num_input_delta num_output_delta embed_dim hidden_dim k)
       !! c
     = num_output_delta !! c) ∧
  (∀ `{Countable K} (target_vocab : list (Vocab K)) (vocab : Vocab K)
     (w_pc w_delta : nat → nat → F) w_head b_head run_lstm num_pc
     num_input_delta embed_dim hidden_dim k c,
     target_vocab !! c = Some vocab →
     out_features <$>
       cluster_networks
         (ClusteringLSTM_init (St:=St) w_pc w_delta w_head b_head run_lstm
            num_pc num_input_delta (num_output_delta_of target_vocab)
            embed_dim hidden_dim k)
       !! c
     = Some (Z.to_nat (len vocab + 1))) ∧
  (∀ lstm_out state,
     backbone net pc delta st = Ok (lstm_out, state) →
     length lstm_out = length pc →
     valid_labels (length (cluster_networks net)) clusters →
     (length clusters ≤ length pc)%nat →
     targets_ok net clusters target →
     num_pred_fits net clusters →
     ∃ loss outputs log',
       forward net (pc, delta, clusters) st target log
       = (Ok (loss, outputs, state), log') ∧
       length outputs = length pc ∧
       Forall (λ row, length row = num_pred net) outputs) ∧
  (∀ c j network,
     c ∈ clusters →
     py_index (length (cluster_networks net)) c = Some j →
     cluster_networks net !! j = Some network →
     (out_features network < num_pred net)%nat →
     ∃ e log', forward net (pc, delta, clusters) st target log
               = (Raise e, log')).
Proof.
  split_and!.
  - intros network inputs Hne. split.
    + intros [preds Hpreds].
      destruct (decide (num_pred net ≤ out_features network)%nat); [done|].
      rewrite (topk_narrow _ _ (out_features network)) in Hpreds;
        [done| |apply probabilities_of_width|lia].
      intros Hnil%(f_equal length).
      rewrite probabilities_of_length in Hnil. by destruct inputs.
    + intros Hfits.
      destruct (topk_Ok (probabilities_of network inputs) (num_pred net))
        as (preds & Hpreds & _); [|by eauto].
      eapply Forall_impl; [apply probabilities_of_width|]. by intros row ->.
  - intros. apply init_out_features.
  - intros K ? ? target_vocab vocab w_pc w_delta w_head b_head run_lstm num_pc
      num_input_delta embed_dim hidden_dim k c Hvocab.
    rewrite init_out_features. unfold num_output_delta_of.
    change map with (@fmap list _). by rewrite list_lookup_fmap, Hvocab.
  - intros lstm_out state. apply forward_total.
  - intros c j network Hc Hj Hnet Hnarrow. rewrite forward_eq.
    destruct (backbone net pc delta st) as [[lstm_out state]|e]; [|by eauto].
    destruct (route _ clusters) as [indices|e] eqn:Hroute; [|by eauto].
    apply route_spec in Hroute as [_ Hslots].
    destruct (clusters_loop_narrow net lstm_out indices target
                (cluster_networks net) 0
                (PyInt 0, zeros (length pc) (num_pred net)) log
                j network (routed_from (length (cluster_networks net)) j 0
                                       clusters))
      as (e & log' & ->); [done| | |done|by eauto].
    + simpl. apply Hslots. by eapply py_index_lt.
    + by eapply routed_from_nonempty.
Qed.

End ModelFacts.

(** ** Running the definitions *)

(** *** A stand-in for the tensor library: integers for floats

    Sums and products are exact, the maximum stands in for [logsumexp], the
    reduction of [nll_loss] is the negated sum divided by the number of rows
    that count, [Dropout] is the identity (evaluation mode), and the top-K
    selection ranks the positions of a row by descending value. *)

Definition by_value_desc : relation (Z * Z) := λ a b, b.2 ≤ a.2.

Global Instance by_value_desc_dec : RelDecision by_value_desc.
Proof. intros a b. unfold by_value_desc. apply _. Defined.

Definition argsort_desc (row : list Z) : list Z :=
  (merge_sort by_value_desc (imap (λ i x, (Z.of_nat i, x)) row)).*1.

Definition int_topk (k : nat) (row : list Z) : list Z :=
  take k (argsort_desc row).

Lemma int_topk_length k (row : list Z) :
  (k ≤ length row)%nat → length (int_topk k row) = k.
Proof.
  intros Hk. unfold int_topk, argsort_desc.
  rewrite length_take, length_fmap, merge_sort_Permutation, length_imap. lia.
Qed.

Definition int_nll_mean (picks : list (option Z)) : Z :=
  let kept := omap id picks in
  (- foldr Z.add 0 kept) `div` Z.of_nat (length kept).

Definition int_ops : TensorOps Z :=
  {| of_int := id;
     fadd := Z.add;
     fsub := Z.sub;
     dot := λ u x, foldr Z.add 0 (zip_with Z.mul u x);
     logsumexp := foldr Z.max 0;
     nll_mean := int_nll_mean;
     dropout_elt := id;
     topk_indices := int_topk;
     topk_indices_length := int_topk_length |}.

(** A stand-in for the recurrent backbone: the state is one vector, each
    output is the running sum of the inputs seen so far, cut or padded to
    [hidden_dim]; as torch does, it refuses an empty sequence. *)
Definition resize (hidden_dim : nat) (x : list Z) : list Z :=
  take hidden_dim (x ++ replicate hidden_dim 0).

Fixpoint running_sums (h : list Z) (xs : list (list Z))
  : list (list Z) * list Z :=
  match xs with
  | [] => ([], h)
  | x :: xs' =>
      let h' := zip_with Z.add h (resize (length h) x) in
      let (out, final) := running_sums h' xs' in
      (h' :: out, final)
  end.

Definition sum_lstm (hidden_dim : nat) (xs : list (list Z))
    (state : option (list Z)) : result (list (list Z) * list Z) :=
  match xs with
  | [] => Raise RuntimeError
  | _ => Ok (running_sums (default (replicate hidden_dim 0) state) xs)
  end.

(** The model of [test_net]: [ClusteringLSTM(4, 4, [4] * 6, 10, 30,
    num_pred=2)], with initial values chosen here. *)
Definition test_model : ClusteringLSTM Z (list Z) :=
  ClusteringLSTM_init
    (λ i j, Z.of_nat (i + j)) (λ i j, Z.of_nat (i * j))
    (λ c j i, Z.of_nat (c + j * i) - 3) (λ c j, Z.of_nat j - Z.of_nat c)
    (sum_lstm 30)
    4 4 (replicate 6 4%nat) 10 30 2.

Definition test_X : list Z * list Z * list Z :=
  ([0; 1; 2; 3], [3; 2; 1; 0], [2; 3; 4; 5]).

Definition test_target : list Z := [0; 1; 2; 3].

Definition test_backbone_out : list (list Z) * list Z :=
  Eval vm_compute in
    match backbone test_model [0; 1; 2; 3] [3; 2; 1; 0] None with
    | Ok r => r
    | Raise _ => ([], [])
    end.

(** The same model asked for five predictions from networks four wide. *)
Definition narrow_model : ClusteringLSTM Z (list Z) :=
  {| pc_embed := pc_embed test_model;
     delta_embed := delta_embed test_model;
     lstm := lstm test_model;
     cluster_networks := cluster_networks test_model;
     num_pred := 5 |}.

(** *** Vocabularies on concrete keys *)

Definition first_keys : list Z := [40; -8; 16].
Definition later_keys : list Z := [7; 12].

Example vocab_assigns_codes_in_order :
  let v := Vocab_init (Some [40; -8; 40; 16]) in
  (get_val v 40, get_val v (-8), get_val v 16, get_val v 99, len v)
  = (0, 1, 2, 3, 3) ∧
  (get_key v 1, get_key v 3, get_key v (-1)) = (Some (-8), None, None).
Proof. by vm_compute. Qed.

Lemma unknown_key_gets_fallback_code_witness :
  (99 ∉ first_keys) ∧ (99 ∉ later_keys) ∧
  get_val (Vocab_init (Some first_keys)) 99 = 3 ∧
  get_val (foldl add_key (Vocab_init (Some first_keys)) later_keys) 99 = 5.
Proof.
  assert (99 ∉ first_keys) as H1 by compute_done.
  assert (99 ∉ later_keys) as H2 by compute_done.
  split; [exact H1|]. split; [exact H2|].
  exact (unknown_key_gets_fallback_code first_keys later_keys 99 H1 H2).
Defined.

Lemma added_key_code_stable_and_inverse_witness :
  (16 ∈ first_keys) ∧
  get_val (foldl add_key (Vocab_init (Some first_keys)) later_keys) 16
  = get_val (Vocab_init (Some first_keys)) 16 ∧
  get_key (Vocab_init (Some first_keys))
          (get_val (Vocab_init (Some first_keys)) 16) = Some 16.
Proof.
  assert (16 ∈ first_keys) as H1 by compute_done.
  split; [exact H1|].
  pose proof (added_key_code_stable_and_inverse first_keys later_keys 16 H1)
    as (Hstable & _ & Hback & _).
  split; [exact Hstable | exact Hback].
Defined.

(** *** [build_vocabs] on a crafted frame

    [delta_in] holds 5 twelve times, 8 ten times and 7 nine times;
    [delta_out] holds, in cluster 0, 1 three times, 2 twice and 3 once and,
    in cluster 1, 4 once. *)
Definition crafted_frame : DataFrame Z :=
  {| col_pc := replicate 31 0;
     col_delta_in := replicate 9 7 ++ replicate 10 8 ++ replicate 12 5;
     col_delta_out := [1; 2; 4; 1; 3; 2; 1] ++ replicate 24 9;
     col_cluster := Some ([0; 0; 1; 0; 0; 0; 0] ++ replicate 24 5) |}.

Example crafted_input_delta_vocab :
  let delta_vocab :=
    (build_vocabs (Ranking0:=stable_ranking Z) crafted_frame 2 2).1.2 in
  (get_val delta_vocab 5, get_val delta_vocab 8, get_val delta_vocab 7,
   len delta_vocab) = (0, 1, 2, 2).
Proof. by vm_compute. Qed.

Example crafted_output_vocabs :
  match (build_vocabs (Ranking0:=stable_ranking Z) crafted_frame 2 2).2 with
  | PerCluster [v0; v1] =>
      (get_val v0 1, get_val v0 2, get_val v0 3, len v0) = (0, 1, 2, 2) ∧
      (get_val v1 4, get_val v1 1, len v1) = (0, 1, 1)
  | _ => False
  end.
Proof. by vm_compute. Qed.

(** The frequencies of the crafted frame, counted on its rows. *)
Example crafted_frame_frequencies :
  let freq c k :=
    examples_with ([0; 0; 1; 0; 0; 0; 0] ++ replicate 24 5)
                  (col_delta_out crafted_frame) c k in
  (freq 0 1, freq 0 2, freq 0 3, freq 0 4) = (3, 2, 1, 0)%nat ∧
  (freq 1 4, freq 1 1) = (1, 0)%nat.
Proof. by vm_compute. Qed.

(** A vocabulary without keys does not pass for the two most frequent of
    three values, whatever its counter says. *)
Example top_frequent_needs_its_keys (counter : Z) :
  ¬ top_frequent (λ k, count k [1; 2; 2; 3; 3; 3]) 2 (MkVocab ∅ ∅ counter).
Proof.
  intros Htop.
  apply (top_frequent_size _ _ _ (list_to_set [1; 2; 2; 3; 3; 3])) in Htop.
  - simpl in Htop. rewrite dom_empty_L, size_empty in Htop.
    revert Htop. by vm_compute.
  - intros k. by rewrite elem_of_list_to_set, count_pos.
Qed.

(** *** [test_net] *)

Example route_test_net :
  route 6 [2; 3; 4; 5] = Ok [[]; []; [0]; [1]; [2]; [3]]%nat.
Proof. reflexivity. Qed.

(** Python's indexing sends the label -1 to the last cluster. *)
Example route_negative_label :
  route 6 [-1; 0] = Ok [[1]; []; []; []; []; [0]]%nat ∧
  route 6 [6] = Raise IndexError.
Proof. split; reflexivity. Qed.

Example test_net_forward :
  ∃ loss state,
    forward (TensorOps0:=int_ops) test_model test_X None (Some test_target) []
    = (Ok (Tensor loss, [[3; 2]; [3; 2]; [3; 2]; [3; 2]], state),
       [2; 3; 4; 5]%nat) ∧
    ∃ loss' state',
      forward (TensorOps0:=int_ops) test_model test_X (Some state)
              (Some test_target) []
      = (Ok (Tensor loss', [[3; 2]; [3; 2]; [3; 2]; [3; 2]], state'),
         [2; 3; 4; 5]%nat) ∧
      length state' = length state.
Proof. do 2 eexists. split; [by vm_compute|]. do 2 eexists. by vm_compute. Qed.

(** *** Witnesses for the properties of [forward] *)

Lemma empty_cluster_is_skipped_witness :
  (0 < length (cluster_networks test_model))%nat ∧
  valid_labels (length (cluster_networks test_model)) [2; 3; 4; 5] ∧
  (Z.of_nat 0 ∉ [2; 3; 4; 5]) ∧
  (∀ r log',
     forward (TensorOps0:=int_ops) test_model test_X None (Some test_target) []
     = (r, log') →
     ∃ calls, log' = [] ++ calls ∧ 0%nat ∉ calls) ∧
  (∀ h,
     forward (TensorOps0:=int_ops) (with_network 0 h test_model) test_X None
             (Some test_target) []
     = forward (TensorOps0:=int_ops) test_model test_X None
               (Some test_target) []).
Proof.
  assert (0 < length (cluster_networks test_model))%nat as H1
    by (vm_compute; lia).
  assert (valid_labels (length (cluster_networks test_model)) [2; 3; 4; 5])
    as H2 by (unfold valid_labels; simpl; repeat constructor; lia).
  assert (Z.of_nat 0 ∉ [2; 3; 4; 5]) as H3 by compute_done.
  split; [exact H1|]. split; [exact H2|]. split; [exact H3|].
  exact (proj2 (empty_cluster_is_skipped (TensorOps0:=int_ops) test_model
                  [0; 1; 2; 3] [3; 2; 1; 0] [2; 3; 4; 5] None
                  (Some test_target) [] 0 H1 H2 H3)).
Defined.

Lemma loss_is_sum_of_cluster_losses_witness :
  ∃ lstm_out indices,
    backbone test_model [0; 1; 2; 3] [3; 2; 1; 0] None
    = Ok (lstm_out, test_backbone_out.2) ∧
    route (length (cluster_networks test_model)) [2; 3; 4; 5] = Ok indices ∧
    total_nll (TensorOps0:=int_ops) lstm_out test_target indices
              (cluster_networks test_model) = Ok (Tensor 21456).
Proof.
  apply (proj1 (loss_is_sum_of_cluster_losses (TensorOps0:=int_ops) test_model
                  [0; 1; 2; 3] [3; 2; 1; 0] [2; 3; 4; 5] None [])
               test_target (Tensor 21456)
               [[3; 2]; [3; 2]; [3; 2]; [3; 2]] test_backbone_out.2
               [2; 3; 4; 5]%nat).
  vm_compute. reflexivity.
Defined.

Lemma topk_needs_num_pred_within_head_width_witness :
  (∃ loss outputs log',
     forward (TensorOps0:=int_ops) test_model test_X None (Some test_target) []
     = (Ok (loss, outputs, test_backbone_out.2), log') ∧
     length outputs = 4%nat ∧
     Forall (λ row, length row = 2%nat) outputs) ∧
  (∃ e log',
     forward (TensorOps0:=int_ops) narrow_model test_X None
             (Some test_target) []
     = (Raise e, log')).
Proof.
  split.
  - apply (proj1 (proj2 (proj2 (proj2
             (topk_needs_num_pred_within_head_width (TensorOps0:=int_ops)
                test_model [0; 1; 2; 3] [3; 2; 1; 0] [2; 3; 4; 5] None
                (Some test_target) []))))
             test_backbone_out.1 test_backbone_out.2).
    + vm_compute. reflexivity.
    + reflexivity.
    + unfold valid_labels. simpl. repeat constructor; lia.
    + simpl. lia.
    + intros i c Hi.
      destruct i as [|[|[|[|i]]]]; simpl in Hi; [..|done];
        injection Hi as <-; eexists _, _;
        (split; [reflexivity|]); (split; [reflexivity|]);
        right; vm_compute; split; congruence.
    + intros c network Hc Hnet.
      repeat (apply elem_of_cons in Hc as [->|Hc];
              [injection Hnet as <-; vm_compute; lia|]).
      by apply elem_of_nil in Hc.
  - apply (proj2 (proj2 (proj2 (proj2
             (topk_needs_num_pred_within_head_width (TensorOps0:=int_ops)
                narrow_model [0; 1; 2; 3] [3; 2; 1; 0] [2; 3; 4; 5] None
                (Some test_target) []))))
             2 2%nat (MkLinear (map (λ j, (map (λ i, Z.of_nat (2 + j * i) - 3)
                                                (seq 0 30),
                                           Z.of_nat j - 2))
                                    (seq 0 4)))).
    + compute_done.
    + reflexivity.
    + reflexivity.
    + vm_compute. lia.
Defined.

(** The routing part of the [test_net] scenario, for any tensor library,
    any initial values and any backbone that returns one output per
    position: [forward] returns, with four rows of two predicted codes. *)
Section TestNet.
Context `{!TensorOps F} {St : Type}.

Lemma test_net_predictions_shape
    (w_pc w_delta : nat → nat → F) w_head b_head run_lstm
    (st : option St) log lstm_out state :
  let net := ClusteringLSTM_init w_pc w_delta w_head b_head run_lstm
               4 4 (replicate 6 4%nat) 10 30 2 in
  backbone net [0; 1; 2; 3] [3; 2; 1; 0] st = Ok (lstm_out, state) →
  length lstm_out = 4%nat →
  ∃ loss outputs log',
    forward net test_X st (Some test_target) log
    = (Ok (loss, outputs, state), log') ∧
    length outputs = 4%nat ∧
    Forall (λ row, length row = 2%nat) outputs.
Proof.
  intros net Hb Hlen. unfold test_X, test_target.
  apply (forward_total net _ _ _ st _ log lstm_out state Hb Hlen).
  - unfold valid_labels. simpl. repeat constructor; lia.
  - simpl. lia.
  - intros i c Hi.
    destruct i as [|[|[|[|i]]]]; simpl in Hi; [..|done];
      injection Hi as <-; eexists _, _;
      (split; [reflexivity|]); (split; [reflexivity|]);
      right; unfold out_features; simpl; lia.
  - intros c network Hc Hnet.
    repeat (apply elem_of_cons in Hc as [->|Hc];
            [injection Hnet as <-; unfold out_features; simpl; lia|]).
    by apply elem_of_nil in Hc.
Qed.

End TestNet.

(** * Further properties

    ** [Vocab]: the range of codes, decoding, and first-seen numbering *)

Section VocabMore.
Context `{Countable K}.
Implicit Types (v : Vocab K) (k key : K) (keys more prefix rest : list K).

Lemma vocab_inv_reachable (all_keys : option (list K)) more :
  vocab_inv (foldl add_key (Vocab_init all_keys) more).
Proof. apply vocab_inv_foldl, vocab_inv_init. Qed.

Lemma get_val_assigned_iff v k :
  vocab_inv v → get_val v k < len v ↔ is_Some (key_to_val v !! k).
Proof.
  intros Hv. unfold get_val, len.
  destruct (key_to_val v !! k) as [c|] eqn:Hc; simpl.
  - split; [eauto|]. intros _. apply (inv_inverse v Hv) in Hc.
    assert (0 ≤ c < counter v) by (apply (inv_range v Hv); eauto). lia.
  - split; [lia|]. by intros [? ?].
Qed.

(** X1: whatever was added, [get_val] answers a code between 0 and [len];
    it answers [len] exactly for the keys that were never added, so the
    fallback code is never the code of a known key. *)
Theorem get_val_is_a_code_or_the_fallback (all_keys : option (list K)) more k :
  let v := foldl add_key (Vocab_init all_keys) more in
  0 ≤ get_val v k ≤ len v ∧
  (get_val v k < len v ↔ k ∈ default [] all_keys ++ more) ∧
  (get_val v k = len v ↔ k ∉ default [] all_keys ++ more).
Proof.
  intros v. pose proof (vocab_inv_reachable all_keys more) as Hv. fold v in Hv.
  pose proof (get_val_within_width v k Hv) as Hrange.
  assert (is_Some (key_to_val v !! k) ↔ k ∈ default [] all_keys ++ more)
    as Hassigned.
  { unfold v. rewrite assigned_foldl, elem_of_app.
    destruct all_keys as [keys|]; simpl.
    - rewrite assigned_foldl. simpl. rewrite lookup_empty.
      split; [intros [?|[?|[? ?]]]; [by right|by left|done] | tauto].
    - rewrite lookup_empty, elem_of_nil.
      split; [intros [?|[? ?]]; [by right|done] | tauto]. }
  pose proof (get_val_assigned_iff v k Hv) as Hlt.
  split_and!; [lia|lia|by rewrite Hlt| ].
  rewrite <- Hassigned, <- Hlt. lia.
Qed.

(** X2: [get_key] decodes every code below [len] to a key that was added
    and that [get_val] encodes back to the same code; it answers a key for
    no other code. *)
Theorem get_key_decodes_every_code keys (c : Z) :
  let v := Vocab_init (Some keys) in
  (0 ≤ c < len v ↔ is_Some (get_key v c)) ∧
  (∀ k, get_key v c = Some k → k ∈ keys ∧ get_val v k = c).
Proof.
  intros v. pose proof (vocab_inv_init (Some keys)) as Hv. fold v in Hv.
  split.
  - unfold get_key, len. by rewrite (inv_range v Hv).
  - intros k Hk. unfold get_key in Hk. apply (inv_inverse v Hv) in Hk.
    split.
    + apply assigned_init. fold v. eauto.
    + unfold get_val. by rewrite Hk.
Qed.

(** Keys that are present already can be dropped from a list of adds. *)
Lemma foldl_add_key_drop_duplicates keys : ∀ v seen,
  (∀ x, x ∈ seen → is_Some (key_to_val v !! x)) →
  foldl add_key v (drop_duplicates_from seen keys) = foldl add_key v keys.
Proof.
  induction keys as [|key keys IH]; intros v seen Hseen; simpl; [done|].
  case_decide as Hin.
  - destruct (Hseen key Hin) as [c Hc].
    rewrite (add_key_seen v key c Hc). by apply IH.
  - simpl. apply IH. intros x [->|Hx]%elem_of_cons.
    + apply assigned_add_key. by left.
    + apply assigned_add_key. right. by apply Hseen.
Qed.

Lemma Vocab_init_drop_duplicates keys :
  Vocab_init (Some (drop_duplicates keys)) = Vocab_init (Some keys).
Proof.
  simpl. apply foldl_add_key_drop_duplicates.
  intros x Hx. by apply elem_of_nil in Hx.
Qed.

Lemma length_drop_duplicates_from (seen s : list K) :
  (length (drop_duplicates_from seen s) ≤ length s)%nat.
Proof.
  revert seen. induction s as [|x s IH]; intros seen; simpl; [lia|].
  case_decide; simpl; [specialize (IH seen)|specialize (IH (x :: seen))]; lia.
Qed.

Lemma len_Vocab_init_distinct keys :
  len (Vocab_init (Some keys)) = Z.of_nat (length (drop_duplicates keys)).
Proof.
  rewrite <- Vocab_init_drop_duplicates.
  by destruct (Vocab_init_NoDup (drop_duplicates keys)
                 (NoDup_drop_duplicates keys)) as [-> _].
Qed.

Lemma len_is_number_of_keys v :
  vocab_inv v → len v = Z.of_nat (size (dom (key_to_val v))).
Proof.
  intros Hv. rewrite size_dom. unfold len.
  pose proof (inv_codes v Hv) as Hcodes. pose proof (inv_nonneg v Hv).
  apply Permutation_length in Hcodes.
  unfold codes in Hcodes. rewrite length_fmap, length_seqZ in Hcodes.
  rewrite length_map_to_list in Hcodes. lia.
Qed.

Lemma get_val_first_occurrence prefix k rest :
  k ∉ prefix →
  get_val (Vocab_init (Some (prefix ++ k :: rest))) k
  = len (Vocab_init (Some prefix)).
Proof.
  intros Hk. simpl. rewrite foldl_app. simpl.
  set (v0 := foldl add_key (MkVocab ∅ ∅ 0) prefix).
  assert (key_to_val v0 !! k = None) as Hnone.
  { apply eq_None_not_Some. unfold v0.
    change (foldl add_key (MkVocab ∅ ∅ 0) prefix)
      with (Vocab_init (Some prefix)).
    by rewrite assigned_init. }
  unfold get_val.
  rewrite (foldl_add_key_keeps rest (add_key v0 k) k (counter v0)); [done|].
  rewrite add_key_unseen by done. simpl. apply lookup_insert_eq.
Qed.

Lemma len_Vocab_init_size keys :
  len (Vocab_init (Some keys)) = Z.of_nat (size (list_to_set keys : gset K)).
Proof.
  rewrite (len_is_number_of_keys (Vocab_init (Some keys)))
    by apply vocab_inv_init.
  do 2 f_equal. apply set_eq. intros k.
  rewrite elem_of_dom, elem_of_list_to_set. apply assigned_init.
Qed.

(** X3: the constructor numbers the keys in order of first appearance: the
    code of a key is the number of distinct keys before its first
    occurrence (the size of the vocabulary of the keys before it); repeated
    keys change nothing, so [len] is the number of distinct keys. *)
Theorem Vocab_init_numbers_keys_in_first_seen_order keys :
  let v := Vocab_init (Some keys) in
  (∀ prefix k rest, keys = prefix ++ k :: rest → k ∉ prefix →
     get_val v k = len (Vocab_init (Some prefix))) ∧
  len v = Z.of_nat (size (list_to_set keys : gset K)) ∧
  len v ≤ Z.of_nat (length keys) ∧
  v = Vocab_init (Some (drop_duplicates keys)).
Proof.
  intros v. split_and!.
  - intros prefix k rest -> Hk. by apply get_val_first_occurrence.
  - apply len_Vocab_init_size.
  - unfold v. rewrite len_Vocab_init_distinct.
    pose proof (length_drop_duplicates_from [] keys). unfold drop_duplicates.
    lia.
  - unfold v. by rewrite Vocab_init_drop_duplicates.
Qed.

End VocabMore.

(** ** [build_vocabs]: the PC vocabulary and the size of the pruned one *)

Section BuilderMore.
Context `{Countable K} `{!Ranking K}.
Implicit Types (k : K) (s ks : list K).

Lemma count_cons x k s :
  count k (x :: s) = ((if decide (x = k) then 1 else 0) + count k s)%nat.
Proof. unfold count. rewrite filter_cons. by case_decide. Qed.

Lemma sum_list_with_plus {A} (f g : A → nat) (l : list A) :
  sum_list_with (λ a, f a + g a)%nat l
  = (sum_list_with f l + sum_list_with g l)%nat.
Proof. induction l as [|a l IH]; simpl; [done|]. rewrite IH. lia. Qed.

Lemma sum_list_with_pointwise {A} (f g : A → nat) (l : list A) :
  (∀ a, f a = g a) → sum_list_with f l = sum_list_with g l.
Proof.
  intros Hfg. induction l as [|a l IH]; simpl; [done|]. by rewrite Hfg, IH.
Qed.

Lemma hits_le_one x ks :
  NoDup ks →
  (sum_list_with (λ k, if decide (x = k) then 1 else 0) ks ≤ 1)%nat.
Proof.
  induction 1 as [|k ks Hk Hnd IH]; simpl; [lia|].
  case_decide as Hx; [|lia]. subst k.
  assert (sum_list_with (λ k, if decide (x = k) then 1 else 0)%nat ks = 0%nat)
    as ->; [|lia].
  clear IH Hnd. induction ks as [|k ks IH]; simpl; [done|].
  apply not_elem_of_cons in Hk as [Hne Hk].
  rewrite decide_False by done. by rewrite IH.
Qed.

(** Distinct keys cannot account for more rows than there are. *)
Lemma sum_counts_le ks s :
  NoDup ks → (sum_list_with (λ k, count k s) ks ≤ length s)%nat.
Proof.
  intros Hnd. induction s as [|x s IH].
  - clear Hnd. induction ks as [|k ks IHk]; [done|].
    change (count k [] + sum_list_with (λ k, count k []) ks ≤ 0)%nat.
    change (count k []) with 0%nat. simpl in *. lia.
  - simpl length.
    rewrite (sum_list_with_pointwise _
               (λ k, (if decide (x = k) then 1 else 0) + count k s)%nat)
      by (intros; apply count_cons).
    rewrite sum_list_with_plus. pose proof (hits_le_one x ks Hnd). lia.
Qed.

Lemma sum_list_with_ge {A} (f : A → nat) (n : nat) (l : list A) :
  Forall (λ a, n ≤ f a)%nat l → (n * length l ≤ sum_list_with f l)%nat.
Proof. induction 1 as [|a l Ha _ IH]; simpl; lia. Qed.

(** X4: [build_vocabs] gives every PC of the column its own code, numbered
    in order of first appearance, and no code to any other value; the
    vocabulary is as large as the number of distinct PCs, and [get_key]
    decodes the code of every PC of the column. *)
Theorem pc_vocab_numbers_pcs_in_first_seen_order
    (data : DataFrame K) (num_clusters num_output_deltas : nat) :
  let pc_vocab := (build_vocabs data num_clusters num_output_deltas).1.1 in
  (∀ k, get_val pc_vocab k < len pc_vocab ↔ k ∈ col_pc data) ∧
  (∀ prefix k rest, col_pc data = prefix ++ k :: rest → k ∉ prefix →
     get_val pc_vocab k = Z.of_nat (size (list_to_set prefix : gset K))) ∧
  len pc_vocab = Z.of_nat (size (list_to_set (col_pc data) : gset K)) ∧
  (∀ k, k ∈ col_pc data → get_key pc_vocab (get_val pc_vocab k) = Some k).
Proof.
  intros pc_vocab.
  assert (pc_vocab = Vocab_init (Some (col_pc data))) as ->.
  { unfold pc_vocab, build_vocabs. simpl fst.
    apply Vocab_init_drop_duplicates. }
  pose proof (vocab_inv_init (Some (col_pc data))) as Hv.
  split_and!.
  - intros k. by rewrite get_val_assigned_iff, assigned_init.
  - intros prefix k rest Hcol Hk.
    by rewrite Hcol, get_val_first_occurrence, len_Vocab_init_size.
  - apply len_Vocab_init_size.
  - intros k Hk. apply get_key_get_val; [done|]. by apply assigned_init.
Qed.

(** X5: every key of the input-delta vocabulary accounts for at least ten
    rows of its own, so the vocabulary holds at most a tenth as many keys as
    the column has rows (none at all for fewer than ten rows). *)
Theorem input_delta_vocab_size_bound
    (data : DataFrame K) (num_clusters num_output_deltas : nat) :
  let delta_vocab := (build_vocabs data num_clusters num_output_deltas).1.2 in
  10 * len delta_vocab ≤ Z.of_nat (length (col_delta_in data)) ∧
  ((length (col_delta_in data) < 10)%nat →
   len delta_vocab = 0 ∧ ∀ k, get_val delta_vocab k = 0).
Proof.
  intros delta_vocab. set (s := col_delta_in data).
  set (rows := loc_count_ge 10 (value_counts s)).
  assert (delta_vocab = Vocab_init (Some rows.*1)) as -> by reflexivity.
  assert (rows `sublist_of` value_counts s) as Hsub by apply sublist_filter.
  assert (NoDup rows.*1) as Hnd.
  { apply (sublist_NoDup _ (value_counts s).*1);
      [apply NoDup_value_counts_keys | by apply fmap_sublist]. }
  assert (Forall (λ k, 10 ≤ count k s)%nat rows.*1) as Hten.
  { rewrite Forall_fmap, Forall_forall. intros [k n] Hin. simpl.
    apply list_elem_of_filter in Hin as [Hn Hin]. simpl in Hn.
    by apply elem_of_value_counts in Hin as [_ <-]. }
  destruct (Vocab_init_NoDup _ Hnd) as [Hlen Hcodes].
  pose proof (sum_list_with_ge _ _ _ Hten) as Hge.
  pose proof (sum_counts_le rows.*1 s Hnd) as Hle.
  assert (10 * len (Vocab_init (Some rows.*1)) ≤ Z.of_nat (length s)) as Hbound
    by (rewrite Hlen; lia).
  split; [done|]. intros Hshort.
  assert (len (Vocab_init (Some rows.*1)) = 0) as Hzero.
  { pose proof (vocab_inv_init (Some rows.*1)) as Hv.
    pose proof (inv_nonneg _ Hv). unfold len in *. lia. }
  split; [done|]. intros k.
  pose proof (get_val_within_width (Vocab_init (Some rows.*1)) k
                (vocab_inv_init _)). lia.
Qed.

(** X6: a cluster index that labels no row gets the empty vocabulary:
    its size is 0, every key is encoded as 0 and no code is decoded. *)
Theorem cluster_without_rows_gets_empty_vocab
    (data : DataFrame K) (num_clusters num_output_deltas : nat)
    (cl : list Z) (c : nat) :
  col_cluster data = Some cl → (c < num_clusters)%nat → Z.of_nat c ∉ cl →
  ∃ vocabs v,
    (build_vocabs data num_clusters num_output_deltas).2 = PerCluster vocabs ∧
    vocabs !! c = Some v ∧
    v = Vocab_init None ∧
    len v = 0 ∧ (∀ k, get_val v k = 0) ∧ (∀ z, get_key v z = None).
Proof.
  intros Hcl Hc Hnot. unfold build_vocabs. simpl. rewrite Hcl.
  eexists _, (make_output_vocab
                (loc_cluster cl (col_delta_out data) (Z.of_nat c))
                num_output_deltas).
  split; [done|]. split.
  { change map with (@fmap list _). rewrite list_lookup_fmap.
    by rewrite lookup_seq_lt. }
  assert (loc_cluster cl (col_delta_out data) (Z.of_nat c) = []) as ->.
  { destruct (loc_cluster _ _ _) as [|k rest] eqn:Hloc; [done|].
    assert (k ∈ loc_cluster cl (col_delta_out data) (Z.of_nat c)) as Hk
      by (rewrite Hloc; left).
    apply elem_of_loc_cluster in Hk as (i & Hi & _).
    exfalso. apply Hnot, list_elem_of_lookup. eauto. }
  assert (make_output_vocab [] num_output_deltas = Vocab_init None) as ->.
  { unfold make_output_vocab, nlargest, value_counts, keys_tolist. simpl.
    assert (sort_values (K:=K) [] = []) as Hnil
      by (apply Permutation_nil_r, sort_values_perm).
    by rewrite !Hnil, take_nil. }
  by split_and!.
Qed.

End BuilderMore.

(** ** [forward]: what each output row holds *)

Section ModelMore.
Context `{!TensorOps F} {St : Type}.
Implicit Types (net : ClusteringLSTM F St) (network h : Linear F).
Implicit Types (indices : list (list nat)) (clusters target : list Z).
Implicit Types (log calls : list nat) (outputs : list (list Z)).

(** The codes [forward] predicts from the LSTM output [x] of one position
    with the network of that position's cluster. *)
Definition predict_row (net : ClusteringLSTM F St) (network : Linear F)
    (x : list F) : list Z :=
  topk_indices (num_pred net) (log_softmax (dropout (linear network x))).

Ltac unfold_monad := unfold bind, lift, ret, record_call in *.

Ltac case_result :=
  match goal with
  | |- context [match ?r with Ok _ => _ | Raise _ => _ end] =>
      destruct r eqn:?; simpl
  | |- context [rbind ?r _] => destruct r eqn:?; simpl
  end.

Lemma gather_lookup {A} (xs : list A) positions ys :
  gather xs positions = Ok ys →
  ∀ j p, positions !! j = Some p →
         ∃ x, xs !! p = Some x ∧ ys !! j = Some x.
Proof.
  unfold gather. revert ys.
  induction positions as [|i positions IH]; intros ys; simpl.
  - intros _ j p Hj. by rewrite lookup_nil in Hj.
  - intros (y & Hy%at_pos_Ok & (ys' & Hys & [= <-])%rbind_Ok)%rbind_Ok j p Hj.
    destruct j as [|j]; simpl in *.
    + injection Hj as <-. eauto.
    + by apply IH.
Qed.

Lemma scatter_spec {A} (positions : list nat) : ∀ (xs rows xs' : list A),
  scatter xs positions rows = Ok xs' → NoDup positions →
  length xs' = length xs ∧
  (∀ p, p ∉ positions → xs' !! p = xs !! p) ∧
  (∀ j p, positions !! j = Some p →
          is_Some (rows !! j) ∧ xs' !! p = rows !! j).
Proof.
  induction positions as [|i positions IH]; intros xs rows xs'.
  - destruct rows; [|done]. intros [= <-] _. split_and!; [done..|].
    intros j p Hj. by rewrite lookup_nil in Hj.
  - destruct rows as [|row rows]; [done|]. simpl.
    case_decide as Hi; [|done]. intros Hsc [Hnotin Hnd]%NoDup_cons.
    destruct (IH _ _ _ Hsc Hnd) as (Hlen & Hout & Hin).
    rewrite length_insert in Hlen. split_and!; [done| |].
    + intros p [Hpi Hp]%not_elem_of_cons.
      rewrite Hout by done. by rewrite list_lookup_insert_ne.
    + intros j p Hj. destruct j as [|j]; simpl in *.
      * injection Hj as <-. split; [eauto|].
        rewrite Hout by done. by apply list_lookup_insert_eq.
      * by apply Hin.
Qed.

Lemma topk_rows (probabilities : list (list F)) k preds :
  topk probabilities k = Ok preds → preds = map (topk_indices k) probabilities.
Proof. unfold topk. case_decide; [by intros [= <-]|done]. Qed.

(** What one iteration writes in the output tensor. *)
Lemma cluster_step_outputs net lstm_out indices (target : option (list Z))
    loss outputs k network log loss' outputs' log' :
  cluster_step net lstm_out indices target (loss, outputs) k network log
  = (Ok (loss', outputs'), log') →
  ∃ orig,
    indices !! k = Some orig ∧
    (NoDup orig →
     length outputs' = length outputs ∧
     (∀ p, p ∉ orig → outputs' !! p = outputs !! p) ∧
     (∀ p, p ∈ orig →
           ∃ x, lstm_out !! p = Some x ∧
                outputs' !! p = Some (predict_row net network x))).
Proof.
  unfold cluster_step. unfold_monad.
  destruct (at_pos indices k) as [orig|e] eqn:Hk; simpl; [|done].
  apply at_pos_Ok in Hk. intros Hstep. exists orig. split; [done|].
  intros Hnd. revert Hstep. case_decide as Hlen.
  { intros [= <- <- <-]. destruct orig; [|done]. split_and!; [done..|].
    intros p Hp. by apply elem_of_nil in Hp. }
  destruct (gather lstm_out orig) as [inputs|e] eqn:Hg; simpl; [|done].
  assert (∀ preds, topk (map log_softmax (network_apply network inputs))
                        (num_pred net) = Ok preds →
                   scatter outputs orig preds = Ok outputs' →
          length outputs' = length outputs ∧
          (∀ p, p ∉ orig → outputs' !! p = outputs !! p) ∧
          (∀ p, p ∈ orig →
                ∃ x, lstm_out !! p = Some x ∧
                     outputs' !! p = Some (predict_row net network x)))
    as Hmain.
  { intros preds ->%topk_rows Hsc.
    destruct (scatter_spec _ _ _ _ Hsc Hnd) as (Hl & Hout & Hin).
    split_and!; [done..|]. intros p (j & Hj)%list_elem_of_lookup.
    destruct (gather_lookup _ _ _ Hg j p Hj) as (x & Hx & Hinp).
    exists x. split; [done|]. destruct (Hin j p Hj) as [_ ->].
    unfold network_apply. change map with (@fmap list _).
    by rewrite !list_lookup_fmap, Hinp. }
  destruct target as [target|]; unfold_monad; repeat case_result; try done;
    intros [= <- <- <-]; by eapply Hmain.
Qed.

Lemma clusters_loop_outputs net lstm_out indices (target : option (list Z))
    networks :
  (∀ j orig, indices !! j = Some orig → NoDup orig) →
  (∀ j1 j2 o1 o2 p, indices !! j1 = Some o1 → indices !! j2 = Some o2 →
                    p ∈ o1 → p ∈ o2 → j1 = j2) →
  ∀ c loss outputs log loss' outputs' log',
  clusters_loop net lstm_out indices target c networks (loss, outputs) log
  = (Ok (loss', outputs'), log') →
  length outputs' = length outputs ∧
  (∀ p, (∀ j orig, (c ≤ j < c + length networks)%nat →
                   indices !! j = Some orig → p ∉ orig) →
        outputs' !! p = outputs !! p) ∧
  (∀ i network orig p,
     networks !! i = Some network → indices !! (c + i)%nat = Some orig →
     p ∈ orig →
     ∃ x, lstm_out !! p = Some x ∧
          outputs' !! p = Some (predict_row net network x)).
Proof.
  intros Hnodup Hdisj.
  induction networks as [|network0 networks IH];
    intros c loss outputs log loss' outputs' log'.
  - intros [= <- <- <-]. split_and!; [done..|]. by intros i network orig p.
  - rewrite clusters_loop_cons.
    destruct (cluster_step _ _ _ _ _ _ _ _) as [[[loss1 outputs1]|e] log1]
      eqn:Hstep; [|done].
    intros Hloop. destruct (IH _ _ _ _ _ _ _ Hloop) as (Hlen & Hout & Hin).
    apply cluster_step_outputs in Hstep as (orig0 & Hc & Hstep).
    destruct (Hstep (Hnodup _ _ Hc)) as (Hlen0 & Hout0 & Hin0).
    split_and!.
    + lia.
    + intros p Hp. rewrite Hout, Hout0; [done| |].
      * apply (Hp c); [simpl; lia|done].
      * intros j orig Hj. apply Hp. simpl. lia.
    + intros i network orig p Hi Horig Hp. destruct i as [|i]; simpl in Hi.
      * injection Hi as ->. rewrite Nat.add_0_r in Horig.
        assert (orig = orig0) as -> by congruence.
        destruct (Hin0 p Hp) as (x & Hx & Hrow). exists x. split; [done|].
        rewrite Hout; [done|]. intros j orig' Hj Horig' Hp'.
        assert (j = c) by (by eapply Hdisj). lia.
      * apply (Hin i network orig p); [done| |done].
        by replace (S c + i)%nat with (c + S i)%nat by lia.
Qed.

Lemma positions_of_sublist k clusters :
  positions_of k clusters `sublist_of` seq 0 (length clusters).
Proof.
  unfold positions_of.
  assert ((imap pair clusters).*1 = seq 0 (length clusters)) as <-.
  { apply list_eq. intros i.
    rewrite list_lookup_fmap, list_lookup_imap.
    destruct (clusters !! i) as [c|] eqn:Hc; simpl.
    - by rewrite lookup_seq_lt by by eapply lookup_lt_Some.
    - symmetry. apply lookup_ge_None. rewrite length_seq.
      by apply lookup_ge_None. }
  apply fmap_sublist, sublist_filter.
Qed.

Lemma NoDup_positions_of k clusters : NoDup (positions_of k clusters).
Proof.
  eapply sublist_NoDup; [apply NoDup_seq|apply positions_of_sublist].
Qed.

(** What routing returns for labels in range. *)
Lemma route_valid n clusters indices :
  route n clusters = Ok indices → valid_labels n clusters →
  length indices = n ∧
  ∀ j orig, indices !! j = Some orig → orig = positions_of j clusters.
Proof.
  intros Hroute Hvalid. apply route_spec in Hroute as [Hlen Hslots].
  split; [done|]. intros j orig Hj.
  assert (j < n)%nat as Hjn by (rewrite <- Hlen; by eapply lookup_lt_Some).
  rewrite Hslots, routed_valid in Hj by done. congruence.
Qed.

Lemma lookup_zeros rows cols i :
  (i < rows)%nat → zeros rows cols !! i = Some (replicate cols 0).
Proof. intros Hi. unfold zeros. by apply lookup_replicate_2. Qed.

(** A run of [forward] on labels in range, taken apart. *)
Lemma forward_valid_Ok net pc delta clusters (st : option St)
    (target : option (list Z)) log loss outputs state log' :
  forward net (pc, delta, clusters) st target log
  = (Ok (loss, outputs, state), log') →
  valid_labels (length (cluster_networks net)) clusters →
  ∃ lstm_out indices,
    backbone net pc delta st = Ok (lstm_out, state) ∧
    length indices = length (cluster_networks net) ∧
    (∀ j orig, indices !! j = Some orig → orig = positions_of j clusters) ∧
    clusters_loop net lstm_out indices target 0 (cluster_networks net)
                  (PyInt 0, zeros (length pc) (num_pred net)) log
    = (Ok (loss, outputs), log').
Proof.
  intros (lstm_out & indices & Hb & Hr & Hloop)%forward_Ok Hvalid.
  destruct (route_valid _ _ _ Hr Hvalid) as [Hlen Hpos].
  exists lstm_out, indices. by split_and!.
Qed.

(** X7: on a batch whose labels are in range, a run of [forward] that
    returns gives one row per position of [pc]; the row of a position with
    label [c] holds the top-K codes computed by network [c] from the LSTM
    output of that position alone, and the rows of positions beyond the
    labels are left at zero. *)
Theorem forward_rows_are_cluster_predictions net pc delta clusters
    (st : option St) (target : option (list Z)) log loss outputs state log' :
  forward net (pc, delta, clusters) st target log
  = (Ok (loss, outputs, state), log') →
  valid_labels (length (cluster_networks net)) clusters →
  ∃ lstm_out,
    backbone net pc delta st = Ok (lstm_out, state) ∧
    length outputs = length pc ∧
    (∀ i c, clusters !! i = Some c →
       ∃ network x,
         cluster_networks net !! Z.to_nat c = Some network ∧
         lstm_out !! i = Some x ∧
         outputs !! i = Some (predict_row net network x)) ∧
    (∀ i, (length clusters ≤ i < length pc)%nat →
          outputs !! i = Some (replicate (num_pred net) 0)).
Proof.
  intros Hfwd Hvalid.
  destruct (forward_valid_Ok _ _ _ _ _ _ _ _ _ _ _ Hfwd Hvalid)
    as (lstm_out & indices & Hb & Hlen & Hpos & Hloop).
  apply clusters_loop_outputs in Hloop as (Hl & Hout & Hin).
  - exists lstm_out. destruct (zeros_shape (length pc) (num_pred net)) as [Hz _].
    split_and!; [done|lia| |].
    + intros i c Hi. unfold valid_labels in Hvalid.
      rewrite Forall_forall in Hvalid.
      assert (0 ≤ c < Z.of_nat (length (cluster_networks net))) as Hc
        by (apply Hvalid, list_elem_of_lookup; eauto).
      destruct (lookup_lt_is_Some_2 (cluster_networks net) (Z.to_nat c))
        as [network Hnet]; [lia|].
      destruct (lookup_lt_is_Some_2 indices (Z.to_nat c)) as [orig Horig];
        [lia|].
      destruct (Hin (Z.to_nat c) network orig i) as (x & Hx & Hrow);
        [done..| |by eauto].
      rewrite (Hpos _ _ Horig). apply elem_of_positions_of.
      by rewrite Z2Nat.id by lia.
    + intros i Hi. rewrite Hout; [apply lookup_zeros; lia|].
      intros j orig _ Horig Hin'. rewrite (Hpos _ _ Horig) in Hin'.
      apply elem_of_positions_of, lookup_lt_Some in Hin'. lia.
  - intros j orig Horig. rewrite (Hpos _ _ Horig). apply NoDup_positions_of.
  - intros j1 j2 o1 o2 p H1 H2 Hp1 Hp2.
    rewrite (Hpos _ _ H1) in Hp1. rewrite (Hpos _ _ H2) in Hp2.
    apply elem_of_positions_of in Hp1, Hp2.
    assert (Z.of_nat j1 = Z.of_nat j2) by congruence. lia.
Qed.

(** *** Routing *)

Lemma concat_alter_snoc (x : nat) (ls : list (list nat)) j :
  (j < length ls)%nat → concat (alter (λ l, l ++ [x]) j ls) ≡ₚ x :: concat ls.
Proof.
  revert j. induction ls as [|l ls IH]; intros j Hj; simpl in Hj; [lia|].
  destruct j as [|j].
  - change (((l ++ [x]) ++ concat ls) ≡ₚ x :: l ++ concat ls).
    rewrite <- app_assoc. simpl. by rewrite <- Permutation_middle.
  - change (l ++ concat (alter (λ l, l ++ [x]) j ls) ≡ₚ x :: l ++ concat ls).
    rewrite IH by lia. by rewrite <- Permutation_middle.
Qed.

Lemma route_from_concat clusters : ∀ orig indices indices',
  route_from orig clusters indices = Ok indices' →
  concat indices' ≡ₚ concat indices ++ seq orig (length clusters).
Proof.
  induction clusters as [|c clusters IH]; intros orig indices indices'; simpl.
  - intros [= <-]. by rewrite app_nil_r.
  - destruct (py_index (length indices) c) as [j|] eqn:Hc; [|done].
    intros ->%IH. rewrite concat_alter_snoc by by eapply py_index_lt.
    by rewrite <- Permutation_middle.
Qed.

Lemma routed_from_sublist n j clusters : ∀ orig,
  routed_from n j orig clusters `sublist_of` seq orig (length clusters).
Proof.
  induction clusters as [|c clusters IH]; intros orig; simpl; [done|].
  case_decide; [by apply sublist_skip|by apply sublist_cons].
Qed.

Lemma elem_of_routed_from n j clusters : ∀ orig i,
  i ∈ routed_from n j orig clusters ↔
  (orig ≤ i)%nat ∧ ∃ c, clusters !! (i - orig)%nat = Some c ∧
                        py_index n c = Some j.
Proof.
  induction clusters as [|c clusters IH]; intros orig i; simpl.
  - rewrite elem_of_nil. split; [done|]. by intros (_ & c & Hc & _).
  - assert (i ∈ routed_from n j (S orig) clusters ↔
            (orig < i)%nat ∧ ∃ c', (c :: clusters) !! (i - orig)%nat = Some c' ∧
                                   py_index n c' = Some j) as Hrest.
    { rewrite IH. split.
      - intros (Hi & c' & Hc' & Hj). split; [lia|]. exists c'.
        replace (i - orig)%nat with (S (i - S orig)) by lia. done.
      - intros (Hi & c' & Hc' & Hj). split; [lia|]. exists c'.
        replace (i - orig)%nat with (S (i - S orig)) in Hc' by lia. done. }
    case_decide as Hc.
    + rewrite elem_of_cons, Hrest. split.
      * intros [->|(Hi & Hex)]; [|split; [lia|done]].
        split; [lia|]. exists c. by rewrite Nat.sub_diag.
      * intros (Hi & c' & Hc' & Hj).
        destruct (decide (i = orig)) as [->|Hne]; [by left|].
        right. split; [lia|eauto].
    + rewrite Hrest. split.
      * intros (Hi & Hex). split; [lia|done].
      * intros (Hi & c' & Hc' & Hj).
        destruct (decide (i = orig)) as [->|Hne]; [|split; [lia|eauto]].
        rewrite Nat.sub_diag in Hc'. simpl in Hc'. congruence.
Qed.

(** X8: when routing returns, it returns one list per cluster network;
    every position of the batch is in exactly one of the lists, the one
    that Python's indexing selects for its label, and each list is in
    increasing order of position. *)
Theorem route_sends_each_position_to_one_cluster n clusters indices :
  route n clusters = Ok indices →
  length indices = n ∧
  concat indices ≡ₚ seq 0 (length clusters) ∧
  ∀ j orig, indices !! j = Some orig →
    orig `sublist_of` seq 0 (length clusters) ∧
    ∀ i, i ∈ orig ↔ ∃ c, clusters !! i = Some c ∧ py_index n c = Some j.
Proof.
  intros Hroute. pose proof (route_spec _ _ _ Hroute) as [Hlen Hslots].
  split; [done|]. split.
  - unfold route in Hroute. apply route_from_concat in Hroute.
    rewrite Hroute. clear. induction n as [|n IH]; simpl; [done|].
    by rewrite IH.
  - intros j orig Hj.
    assert (j < n)%nat as Hjn by (rewrite <- Hlen; by eapply lookup_lt_Some).
    rewrite Hslots in Hj by done. injection Hj as <-.
    split; [apply routed_from_sublist|].
    intros i. rewrite elem_of_routed_from, Nat.sub_0_r.
    split; [by intros [_ ?]|]. intros ?. split; [lia|done].
Qed.

Lemma route_from_out_of_range clusters : ∀ orig indices c,
  c ∈ clusters → py_index (length indices) c = None →
  route_from orig clusters indices = Raise IndexError.
Proof.
  induction clusters as [|c0 clusters IH]; intros orig indices c Hc Hnone.
  - by apply elem_of_nil in Hc.
  - simpl. destruct (py_index (length indices) c0) as [j|] eqn:Hc0; [|done].
    apply elem_of_cons in Hc as [->|Hc]; [congruence|].
    apply (IH _ _ c); [done|]. by rewrite length_alter.
Qed.

(** X9: a label that Python's indexing rejects, one not below the number of
    networks or below its negation, makes [forward] raise before any
    cluster network is called; once the backbone has returned, the
    exception is [IndexError]. *)
Theorem out_of_range_label_raises net pc delta clusters (st : option St)
    (target : option (list Z)) log c :
  c ∈ clusters →
  ¬ (- Z.of_nat (length (cluster_networks net)) ≤ c
     < Z.of_nat (length (cluster_networks net))) →
  (∃ e, forward net (pc, delta, clusters) st target log = (Raise e, log)) ∧
  (∀ lstm_out state,
     backbone net pc delta st = Ok (lstm_out, state) →
     forward net (pc, delta, clusters) st target log
     = (Raise IndexError, log)).
Proof.
  intros Hc Hout.
  assert (route (length (cluster_networks net)) clusters = Raise IndexError)
    as Hroute.
  { apply route_from_out_of_range with c; [done|].
    rewrite length_replicate. unfold py_index.
    rewrite !decide_False; [done|lia..]. }
  rewrite forward_eq, Hroute. split.
  - destruct (backbone net pc delta st) as [[lstm_out state]|e]; eauto.
  - by intros lstm_out state ->.
Qed.

Lemma py_index_mod n c :
  - Z.of_nat n ≤ c < Z.of_nat n →
  py_index n (c `mod` Z.of_nat n) = py_index n c.
Proof.
  intros Hc. unfold py_index.
  destruct (decide (0 ≤ c)) as [Hpos|Hneg].
  - by rewrite Z.mod_small by lia.
  - assert (c `mod` Z.of_nat n = Z.of_nat n + c) as ->.
    { symmetry. apply (Z.mod_unique _ _ (-1)); lia. }
    rewrite decide_True by lia. rewrite (decide_False (P:=0 ≤ c < _)) by lia.
    by rewrite decide_True by lia.
Qed.

Lemma route_from_mod clusters : ∀ orig indices,
  Forall (λ c, - Z.of_nat (length indices) ≤ c < Z.of_nat (length indices))
         clusters →
  route_from orig ((λ c, c `mod` Z.of_nat (length indices)) <$> clusters) indices
  = route_from orig clusters indices.
Proof.
  induction clusters as [|c clusters IH]; intros orig indices Hall; [done|].
  apply Forall_cons in Hall as [Hc Hall]. simpl.
  rewrite py_index_mod by done.
  destruct (py_index (length indices) c) as [j|]; [|done].
  specialize (IH (S orig) (alter (λ l, l ++ [orig]) j indices)).
  rewrite length_alter in IH. by apply IH.
Qed.

(** X10: a negative label [c], down to minus the number of networks,
    selects the same cluster as [c] plus that number: [forward] returns the
    same on a batch and on the batch with every label reduced modulo the
    number of networks. *)
Theorem negative_label_counts_from_the_end net pc delta clusters
    (st : option St) (target : option (list Z)) log :
  Forall (λ c, - Z.of_nat (length (cluster_networks net)) ≤ c
               < Z.of_nat (length (cluster_networks net))) clusters →
  forward net
    (pc, delta,
     (λ c, c `mod` Z.of_nat (length (cluster_networks net))) <$> clusters)
    st target log
  = forward net (pc, delta, clusters) st target log.
Proof.
  intros Hall. rewrite !forward_eq. unfold route.
  pose proof (route_from_mod clusters 0
                (replicate (length (cluster_networks net)) [])) as Hmod.
  rewrite length_replicate in Hmod. by rewrite Hmod.
Qed.

(** *** The target, the calls, and what makes [forward] raise *)

Lemma cluster_step_drop_target net lstm_out indices target loss outputs k
    network log loss' outputs' log' :
  cluster_step net lstm_out indices (Some target) (loss, outputs) k network log
  = (Ok (loss', outputs'), log') →
  ∀ loss0,
    cluster_step net lstm_out indices None (loss0, outputs) k network log
    = (Ok (loss0, outputs'), log').
Proof.
  unfold cluster_step. unfold_monad.
  destruct (at_pos indices k) as [orig|e]; simpl; [|done].
  case_decide; [by intros [= <- <- <-]|].
  repeat case_result; try done. by intros [= <- <- <-].
Qed.

Lemma clusters_loop_drop_target net lstm_out indices target networks :
  ∀ c loss outputs log loss' outputs' log',
  clusters_loop net lstm_out indices (Some target) c networks
                (loss, outputs) log
  = (Ok (loss', outputs'), log') →
  ∀ loss0,
    clusters_loop net lstm_out indices None c networks (loss0, outputs) log
    = (Ok (loss0, outputs'), log').
Proof.
  induction networks as [|network networks IH];
    intros c loss outputs log loss' outputs' log'.
  - by intros [= <- <- <-].
  - rewrite !clusters_loop_cons.
    destruct (cluster_step _ _ _ (Some target) _ _ _ _)
      as [[[loss1 outputs1]|e] log1] eqn:Hstep; [|done].
    intros Hloop loss0. rewrite clusters_loop_cons.
    rewrite (cluster_step_drop_target _ _ _ _ _ _ _ _ _ _ _ _ Hstep loss0).
    by eapply IH.
Qed.

(** X11: the target only feeds the loss: when [forward] returns for a
    target, it returns the same predictions and the same state without one
    (with the integer 0 as loss), calling the same networks, and so does
    [predict]. *)
Theorem target_does_not_change_predictions net pc delta clusters
    (st : option St) target log loss outputs state log' :
  forward net (pc, delta, clusters) st (Some target) log
  = (Ok (loss, outputs, state), log') →
  forward net (pc, delta, clusters) st None log
  = (Ok (PyInt 0, outputs, state), log') ∧
  predict net (pc, delta, clusters) st log = (Ok (outputs, state), log').
Proof.
  intros (lstm_out & indices & Hb & Hr & Hloop)%forward_Ok.
  apply clusters_loop_drop_target with (loss0 := PyInt 0) in Hloop.
  assert (forward net (pc, delta, clusters) st None log
          = (Ok (PyInt 0, outputs, state), log')) as Hnone
    by by rewrite forward_eq, Hb, Hr, Hloop.
  split; [done|]. unfold predict. unfold_monad. by rewrite Hnone.
Qed.

Definition owns_positions (indices : list (list nat)) (j : nat) : bool :=
  match indices !! j with
  | Some (_ :: _) => true
  | _ => false
  end.

Lemma cluster_step_calls net lstm_out indices (target : option (list Z))
    acc k network log acc' log' :
  cluster_step net lstm_out indices target acc k network log = (Ok acc', log') →
  log' = log ++ (if owns_positions indices k then [k] else []).
Proof.
  unfold cluster_step, owns_positions. destruct acc as [loss outputs].
  unfold_monad.
  destruct (at_pos indices k) as [orig|e] eqn:Hk; simpl; [|done].
  apply at_pos_Ok in Hk. rewrite Hk. case_decide as Hlen.
  { intros [= <- <-]. destruct orig; [|done]. by rewrite app_nil_r. }
  destruct orig as [|i orig]; [done|].
  destruct target as [target|]; unfold_monad; repeat case_result; try done;
    by intros [= <- <-].
Qed.

Lemma clusters_loop_calls net lstm_out indices (target : option (list Z))
    networks :
  ∀ c acc log acc' log',
  clusters_loop net lstm_out indices target c networks acc log
  = (Ok acc', log') →
  log' = log ++ filter (λ j, owns_positions indices j = true)
                       (seq c (length networks)).
Proof.
  induction networks as [|network networks IH]; intros c acc log acc' log'.
  - intros [= <- <-]. by rewrite app_nil_r.
  - rewrite clusters_loop_cons.
    destruct (cluster_step _ _ _ _ _ _ _ _) as [[acc1|e] log1] eqn:Hstep;
      [|done].
    intros ->%IH. apply cluster_step_calls in Hstep as ->.
    simpl. rewrite filter_cons, <- app_assoc.
    by destruct (owns_positions indices c).
Qed.

Lemma filter_ext_elem {A} (P Q : A → Prop) `{!∀ x, Decision (P x)}
    `{!∀ x, Decision (Q x)} (l : list A) :
  (∀ x, x ∈ l → P x ↔ Q x) → filter P l = filter Q l.
Proof.
  induction l as [|x l IH]; intros Hext; [done|].
  rewrite !filter_cons, IH by (intros; apply Hext; by right).
  pose proof (Hext x (list_elem_of_here _ _)) as Hx.
  destruct (decide (P x)), (decide (Q x)); [done|tauto|tauto|done].
Qed.

(** X12: on labels in range, a run of [forward] that returns has called
    each cluster network whose index is a label of the batch exactly once,
    in increasing order of index, and no other network. *)
Theorem networks_called_once_in_cluster_order net pc delta clusters
    (st : option St) (target : option (list Z)) log r log' :
  forward net (pc, delta, clusters) st target log = (Ok r, log') →
  valid_labels (length (cluster_networks net)) clusters →
  log' = log ++ filter (λ j, Z.of_nat j ∈ clusters)
                       (seq 0 (length (cluster_networks net))).
Proof.
  destruct r as [[loss outputs] state]. intros Hfwd Hvalid.
  destruct (forward_valid_Ok _ _ _ _ _ _ _ _ _ _ _ Hfwd Hvalid)
    as (lstm_out & indices & Hb & Hlen & Hpos & Hloop).
  apply clusters_loop_calls in Hloop as ->. f_equal.
  apply filter_ext_elem. intros j [_ Hj]%elem_of_seq. simpl in Hj.
  destruct (lookup_lt_is_Some_2 indices j) as [orig Horig]; [lia|].
  unfold owns_positions. rewrite Horig. rewrite (Hpos _ _ Horig).
  destruct (positions_of j clusters) as [|i rest] eqn:Hp.
  - split; [done|]. intros (i & Hi)%list_elem_of_lookup.
    apply elem_of_positions_of in Hi. rewrite Hp in Hi.
    by apply elem_of_nil in Hi.
  - split; [|done]. intros _.
    assert (i ∈ positions_of j clusters) as Hi by (rewrite Hp; left).
    apply elem_of_positions_of in Hi. apply list_elem_of_lookup. eauto.
Qed.

Lemma embedding_valid (weight : list (list F)) (codes : list Z) :
  Forall (λ c, 0 ≤ c < Z.of_nat (length weight)) codes →
  ∃ rows, embedding weight codes = Ok rows ∧ length rows = length codes.
Proof.
  unfold embedding. induction 1 as [|c codes Hc _ (rows & Hrows & Hlen)]; simpl.
  - by exists [].
  - rewrite decide_True by lia.
    destruct (at_pos_lt weight (Z.to_nat c)) as [row ->]; [lia|]. simpl.
    rewrite Hrows. simpl. exists (row :: rows). by rewrite <- Hlen.
Qed.

Lemma embedding_invalid (weight : list (list F)) (codes : list Z) c :
  c ∈ codes → ¬ (0 ≤ c < Z.of_nat (length weight)) →
  embedding weight codes = Raise IndexError.
Proof.
  unfold embedding. intros Hc Hbad.
  induction codes as [|c0 codes IH]; [by apply elem_of_nil in Hc|]. simpl.
  case_decide as Hpos; [|done].
  destruct (at_pos weight (Z.to_nat c0)) as [row|e] eqn:Hrow; simpl.
  - apply elem_of_cons in Hc as [->|Hc].
    + apply at_pos_Ok, lookup_lt_Some in Hrow. lia.
    + by rewrite IH.
  - unfold at_pos in Hrow. destruct (weight !! Z.to_nat c0); congruence.
Qed.

(** X13: [forward] raises [IndexError] when a PC code or an input-delta
    code is outside its embedding table, and [RuntimeError] when the codes
    are in range but [pc] and [delta] differ in length; in each case no
    cluster network has been called. *)
Theorem bad_codes_raise_before_any_network net pc delta clusters
    (st : option St) (target : option (list Z)) log :
  (∀ c, c ∈ pc → ¬ (0 ≤ c < Z.of_nat (length (pc_embed net))) →
        forward net (pc, delta, clusters) st target log
        = (Raise IndexError, log)) ∧
  (Forall (λ c, 0 ≤ c < Z.of_nat (length (pc_embed net))) pc →
   ∀ c, c ∈ delta → ¬ (0 ≤ c < Z.of_nat (length (delta_embed net))) →
        forward net (pc, delta, clusters) st target log
        = (Raise IndexError, log)) ∧
  (Forall (λ c, 0 ≤ c < Z.of_nat (length (pc_embed net))) pc →
   Forall (λ c, 0 ≤ c < Z.of_nat (length (delta_embed net))) delta →
   length pc ≠ length delta →
   forward net (pc, delta, clusters) st target log
   = (Raise RuntimeError, log)).
Proof.
  split_and!.
  - intros c Hc Hbad. rewrite forward_eq. unfold backbone.
    by rewrite (embedding_invalid _ _ c Hc Hbad).
  - intros Hpc c Hc Hbad. rewrite forward_eq. unfold backbone.
    destruct (embedding_valid _ _ Hpc) as (rows & -> & _). simpl.
    by rewrite (embedding_invalid _ _ c Hc Hbad).
  - intros Hpc Hdelta Hlen. rewrite forward_eq. unfold backbone.
    destruct (embedding_valid _ _ Hpc) as (rows1 & -> & Hl1).
    destruct (embedding_valid _ _ Hdelta) as (rows2 & -> & Hl2). simpl.
    unfold cat_last. rewrite decide_False by congruence. done.
Qed.

Lemma clusters_loop_step_raises net lstm_out indices (target : option (list Z))
    networks :
  ∀ c acc log i network,
  networks !! i = Some network →
  (∀ acc0 log0, ∃ e log1,
     cluster_step net lstm_out indices target acc0 (c + i) network log0
     = (Raise e, log1)) →
  ∃ e log', clusters_loop net lstm_out indices target c networks acc log
            = (Raise e, log').
Proof.
  induction networks as [|network0 networks IH];
    intros c acc log i network Hi Hraises; [done|].
  rewrite clusters_loop_cons. destruct i as [|i]; simpl in Hi.
  - injection Hi as ->. rewrite Nat.add_0_r in Hraises.
    destruct (Hraises acc log) as (e & log1 & ->). eauto.
  - destruct (cluster_step _ _ _ _ _ _ _ _) as [[acc'|e] log1]; [|by eauto].
    apply (IH (S c) acc' log1 i network); [done|].
    intros acc0 log0. replace (S c + i)%nat with (c + S i)%nat by lia.
    apply Hraises.
Qed.

Lemma gather_out_of_range {A} (xs : list A) positions p :
  p ∈ positions → (length xs ≤ p)%nat → gather xs positions = Raise IndexError.
Proof.
  unfold gather. intros Hp Hlen.
  induction positions as [|i positions IH]; [by apply elem_of_nil in Hp|].
  simpl. unfold at_pos at 1.
  destruct (xs !! i) as [x|] eqn:Hx; simpl; [|done].
  apply elem_of_cons in Hp as [->|Hp].
  - apply lookup_lt_Some in Hx. lia.
  - by rewrite IH.
Qed.

Lemma nll_picks_invalid (w : nat) : ∀ (probabilities : list (list F)) tgt t,
  Forall (λ row, length row = w) probabilities →
  t ∈ tgt → t ≠ -100 → ¬ (0 ≤ t < Z.of_nat w) →
  ∃ e, nll_picks probabilities tgt = Raise e.
Proof.
  induction probabilities as [|row probabilities IH]; intros tgt t Hw Ht Hne Hbad.
  - destruct tgt; [by apply elem_of_nil in Ht|]. by eexists.
  - destruct tgt as [|t0 tgt]; [by eexists|]. simpl.
    apply Forall_cons in Hw as [Hrow Hw].
    destruct (nll_pick row t0) as [p|e] eqn:Hpick; simpl; [|by eexists].
    apply elem_of_cons in Ht as [->|Ht].
    + exfalso. unfold nll_pick in Hpick. rewrite decide_False in Hpick by done.
      case_decide; [|done].
      destruct (at_pos row (Z.to_nat t0)) as [x|] eqn:Hx; [|done].
      apply at_pos_Ok, lookup_lt_Some in Hx. lia.
    + destruct (IH tgt t Hw Ht Hne Hbad) as [e ->]. by eexists.
Qed.

(** What a position [i] lacks for the iteration of its cluster to go
    through: an LSTM output, a target, or a target that is a code of the
    network's output. *)
Definition position_fails (lstm_out : list (list F))
    (target : option (list Z)) (network : Linear F) (i : nat) : Prop :=
  (length lstm_out ≤ i)%nat ∨
  ∃ tg, target = Some tg ∧
        ((length tg ≤ i)%nat ∨
         ∃ t, tg !! i = Some t ∧ t ≠ -100 ∧
              ¬ (0 ≤ t < Z.of_nat (out_features network))).

Lemma cluster_step_bad_position net lstm_out indices (target : option (list Z))
    k network orig i :
  indices !! k = Some orig → i ∈ orig →
  position_fails lstm_out target network i →
  ∀ acc log, ∃ e log',
    cluster_step net lstm_out indices target acc k network log
    = (Raise e, log').
Proof.
  intros Hk Hi Hfails [loss outputs] log. unfold cluster_step. unfold_monad.
  rewrite (proj2 (at_pos_Ok indices k orig) Hk).
  rewrite decide_False by (destruct orig; [by apply elem_of_nil in Hi|done]).
  destruct (gather lstm_out orig) as [inputs|e] eqn:Hg; simpl; [|by eauto].
  destruct Hfails as [Hshort|(tg & -> & Htg)].
  { by rewrite (gather_out_of_range _ _ i Hi Hshort) in Hg. }
  unfold_monad.
  destruct (gather tg orig) as [tgt|e] eqn:Hgt; simpl; [|by eauto].
  destruct Htg as [Hshort|(t & Ht & Hne & Hbad)].
  { by rewrite (gather_out_of_range _ _ i Hi Hshort) in Hgt. }
  assert (t ∈ tgt) as Hin.
  { apply list_elem_of_lookup in Hi as (j & Hj).
    destruct (gather_lookup _ _ _ Hgt j i Hj) as (t' & Ht' & Htgt).
    apply list_elem_of_lookup. exists j. congruence. }
  destruct (nll_picks_invalid (out_features network)
              (probabilities_of network inputs) tgt t) as [e He];
    [apply probabilities_of_width|done..|].
  unfold nll_loss. unfold probabilities_of in He. rewrite He. simpl. eauto.
Qed.

(** X14: [forward] does not compare the lengths of its inputs or check the
    targets itself, but it raises when a labelled position has no LSTM
    output, or (with a target) has no target or a target that is neither
    -100 nor a code of the output of its cluster's network. *)
Theorem position_without_row_or_valid_target_raises net pc delta clusters
    (st : option St) (target : option (list Z)) log lstm_out state i c
    network :
  backbone net pc delta st = Ok (lstm_out, state) →
  valid_labels (length (cluster_networks net)) clusters →
  clusters !! i = Some c →
  cluster_networks net !! Z.to_nat c = Some network →
  position_fails lstm_out target network i →
  ∃ e log', forward net (pc, delta, clusters) st target log = (Raise e, log').
Proof.
  intros Hb Hvalid Hi Hnet Hfails. rewrite forward_eq, Hb.
  destruct (route_total _ _ Hvalid) as [indices Hroute]. rewrite Hroute.
  destruct (route_valid _ _ _ Hroute Hvalid) as [Hlen Hpos].
  assert (0 ≤ c) as Hc.
  { unfold valid_labels in Hvalid. rewrite Forall_forall in Hvalid.
    apply (Hvalid c), list_elem_of_lookup. eauto. }
  destruct (lookup_lt_is_Some_2 indices (Z.to_nat c)) as [orig Horig].
  { rewrite Hlen. by eapply lookup_lt_Some. }
  destruct (clusters_loop_step_raises net lstm_out indices target
              (cluster_networks net) 0
              (PyInt 0, zeros (length pc) (num_pred net)) log
              (Z.to_nat c) network Hnet) as (e & log' & ->); [|by eauto].
  apply (cluster_step_bad_position _ _ _ _ _ _ orig i); [done| |done].
  rewrite (Hpos _ _ Horig). apply elem_of_positions_of.
  by rewrite Z2Nat.id.
Qed.

End ModelMore.

(** ** [train_clustering_lstm.py]: [load_data] and the model [main] builds

    [load_data] is modelled up to the tensors it hands to [DataLoader];
    [main] up to the construction of the model.  The exceptions of this
    script are Python's own. *)

Module Py.
Inductive exn : Type := KeyError | TypeError | IndexError.
End Py.

Inductive outcome (A : Type) : Type :=
  | Returns (a : A)
  | Throws (e : Py.exn).
Arguments Returns {A} a.
Arguments Throws {A} e.

Fixpoint mapT {A B} (f : A → outcome B) (xs : list A) : outcome (list B) :=
  match xs with
  | [] => Returns []
  | x :: xs' =>
      match f x with
      | Returns y =>
          match mapT f xs' with
          | Returns ys => Returns (y :: ys)
          | Throws e => Throws e
          end
      | Throws e => Throws e
      end
  end.

Section TrainScript.
Context `{Countable K}.

(** [get_delta_out = lambda x:
       target_vocab[x["cluster"]].get_val(x["delta_out"])]: a single
    [Vocab] cannot be indexed; a list is indexed as Python lists are. *)
Definition get_delta_out (target_vocab : TargetVocab K)
    (cluster : Z) (delta_out : K) : outcome Z :=
  match target_vocab with
  | PerCluster vocabs =>
      match py_index (length vocabs) cluster with
      | Some j =>
          match vocabs !! j with
          | Some vocab => Returns (get_val vocab delta_out)
          | None => Throws Py.IndexError
          end
      | None => Throws Py.IndexError
      end
  | Single _ => Throws Py.TypeError
  end.

(** The four tensors of [load_data]: PC codes, input-delta codes, cluster
    labels and target codes, one entry per row of the frame. *)
Definition load_data_tensors (data : DataFrame K)
    (vocabs : Vocab K * Vocab K * TargetVocab K)
  : outcome (list Z * list Z * list Z * list Z) :=
  let '(pc_vocab, delta_vocab, target_vocab) := vocabs in
  let pc := map (get_val pc_vocab) (col_pc data) in
  let delta_in := map (get_val delta_vocab) (col_delta_in data) in
  match col_cluster data with
  | Some clusters =>
      match mapT (λ row, get_delta_out target_vocab row.1 row.2)
                 (zip clusters (col_delta_out data)) with
      | Returns targets => Returns (pc, delta_in, clusters, targets)
      | Throws e => Throws e
      end
  | None => Throws Py.KeyError
  end.

(** The columns of a frame have one entry per row. *)
Definition frame_ok (data : DataFrame K) : Prop :=
  length (col_delta_in data) = length (col_pc data) ∧
  length (col_delta_out data) = length (col_pc data) ∧
  ∀ cl, col_cluster data = Some cl → length cl = length (col_pc data).

Section MainModel.
Context {F St : Type}.
Variables (w_pc w_delta : nat → nat → F) (w_head : nat → nat → nat → F)
          (b_head : nat → nat → F)
          (run_lstm : list (list F) → option St → result (list (list F) * St)).

(** The model of [main]: tables and networks one wider than the
    vocabularies, [num_pred = 10], [embed_dim = hidden_dim = 256].  The list
    comprehension over [target_vocab] cannot iterate a single [Vocab]. *)
Definition main_model (vocabs : Vocab K * Vocab K * TargetVocab K)
  : outcome (ClusteringLSTM F St) :=
  let '(pc_vocab, delta_vocab, target_vocab) := vocabs in
  match target_vocab with
  | PerCluster vocab_list =>
      Returns (ClusteringLSTM_init w_pc w_delta w_head b_head run_lstm
                 (Z.to_nat (len pc_vocab + 1))
                 (Z.to_nat (len delta_vocab + 1))
                 (num_output_delta_of vocab_list)
                 256 256 10)
  | Single _ => Throws Py.TypeError
  end.

End MainModel.

(** A batch cut from the tensors: [m] rows from row [j] on. *)
Definition rows_from {A} (j m : nat) (xs : list A) : list A :=
  take m (drop j xs).

End TrainScript.

Section TrainScriptFacts.
Context `{Countable K} `{!Ranking K}.
Implicit Types (k d : K) (v vocab : Vocab K) (vocab_list : list (Vocab K)).
Implicit Types (data train : DataFrame K).

Lemma mapT_Returns {A B} (f : A → outcome B) xs ys :
  mapT f xs = Returns ys →
  length ys = length xs ∧
  ∀ i x, xs !! i = Some x → ∃ y, f x = Returns y ∧ ys !! i = Some y.
Proof.
  revert ys. induction xs as [|x xs IH]; intros ys; simpl.
  - intros [= <-]. split; [done|]. intros i x Hi. by rewrite lookup_nil in Hi.
  - destruct (f x) as [y|e] eqn:Hy; [|done].
    destruct (mapT f xs) as [ys'|e]; [|done]. intros [= <-].
    destruct (IH ys' eq_refl) as [Hlen Hlook]. split; [simpl; lia|].
    intros [|i] x' Hi; simpl in *; [injection Hi as <-; eauto|by apply Hlook].
Qed.

Lemma mapT_total {A B} (f : A → outcome B) xs :
  Forall (λ x, ∃ y, f x = Returns y) xs → ∃ ys, mapT f xs = Returns ys.
Proof.
  induction 1 as [|x xs [y Hy] _ [ys Hys]]; simpl; [by eexists|].
  rewrite Hy, Hys. by eexists.
Qed.

Lemma mapT_Throws {A B} (f : A → outcome B) xs x e0 :
  (∀ x' e, f x' = Throws e → e = e0) → x ∈ xs → f x = Throws e0 →
  mapT f xs = Throws e0.
Proof.
  intros Honly Hx Hfx. induction xs as [|x0 xs IH];
    [by apply elem_of_nil in Hx|]. simpl.
  destruct (f x0) as [y|e] eqn:Hy; [|by rewrite (Honly _ _ Hy)].
  apply elem_of_cons in Hx as [->|Hx]; [congruence|]. by rewrite IH.
Qed.

Lemma get_delta_out_in_range vocab_list c d :
  - Z.of_nat (length vocab_list) ≤ c < Z.of_nat (length vocab_list) →
  ∃ j vocab, py_index (length vocab_list) c = Some j ∧
             vocab_list !! j = Some vocab ∧
             get_delta_out (PerCluster vocab_list) c d
             = Returns (get_val vocab d).
Proof.
  intros Hc. unfold get_delta_out.
  destruct (py_index (length vocab_list) c) as [j|] eqn:Hj.
  - destruct (lookup_lt_is_Some_2 vocab_list j) as [vocab Hv];
      [by eapply py_index_lt|].
    exists j, vocab. by rewrite Hv.
  - unfold py_index in Hj. repeat case_decide; try done; lia.
Qed.

Lemma get_delta_out_out_of_range vocab_list c d :
  ¬ (- Z.of_nat (length vocab_list) ≤ c < Z.of_nat (length vocab_list)) →
  get_delta_out (PerCluster vocab_list) c d = Throws Py.IndexError.
Proof.
  intros Hc. unfold get_delta_out, py_index.
  rewrite !decide_False; [done|lia..].
Qed.

Lemma get_delta_out_Returns vocab_list c d t :
  get_delta_out (PerCluster vocab_list) c d = Returns t →
  ∃ j vocab, py_index (length vocab_list) c = Some j ∧
             vocab_list !! j = Some vocab ∧ t = get_val vocab d.
Proof.
  unfold get_delta_out.
  destruct (py_index (length vocab_list) c) as [j|]; [|done].
  destruct (vocab_list !! j) as [vocab|] eqn:Hv; [|done].
  intros [= <-]. eauto.
Qed.

(** X15: with a list of vocabularies and a ["cluster"] column, [load_data]
    builds its tensors exactly when every label indexes the list as Python
    allows (negative labels counting from the end): one target per row,
    the labels passed on unchanged; any other label raises [IndexError].
    A single output vocabulary raises [TypeError] at the first row. *)
Theorem load_data_needs_labels_that_index_the_vocabularies
    data (pc_vocab delta_vocab : Vocab K) vocab_list (cl : list Z) :
  col_cluster data = Some cl →
  length (col_delta_out data) = length cl →
  (Forall (λ c, - Z.of_nat (length vocab_list) ≤ c
                < Z.of_nat (length vocab_list)) cl →
   ∃ targets,
     load_data_tensors data (pc_vocab, delta_vocab, PerCluster vocab_list)
     = Returns (map (get_val pc_vocab) (col_pc data),
                map (get_val delta_vocab) (col_delta_in data),
                cl, targets) ∧
     length targets = length cl) ∧
  (∀ c, c ∈ cl →
     ¬ (- Z.of_nat (length vocab_list) ≤ c < Z.of_nat (length vocab_list)) →
     load_data_tensors data (pc_vocab, delta_vocab, PerCluster vocab_list)
     = Throws Py.IndexError) ∧
  (∀ vocab, cl ≠ [] →
     load_data_tensors data (pc_vocab, delta_vocab, Single vocab)
     = Throws Py.TypeError).
Proof.
  intros Hcl Hlen. unfold load_data_tensors. rewrite Hcl. split_and!.
  - intros Hall.
    destruct (mapT_total
                (λ row : Z * K, get_delta_out (PerCluster vocab_list) row.1 row.2)
                (zip cl (col_delta_out data))) as [targets Ht].
    { rewrite Forall_forall. intros [c d] Hin. simpl.
      apply elem_of_zip_l in Hin. rewrite Forall_forall in Hall.
      destruct (get_delta_out_in_range vocab_list c d (Hall c Hin))
        as (j & vocab & _ & _ & Heq). eexists. exact Heq. }
    rewrite Ht. exists targets. split; [done|].
    apply mapT_Returns in Ht as [-> _]. rewrite length_zip_with. lia.
  - intros c Hc Hbad.
    apply list_elem_of_lookup in Hc as (i & Hi).
    destruct (lookup_lt_is_Some_2 (col_delta_out data) i) as [d Hd].
    { rewrite Hlen. by eapply lookup_lt_Some. }
    rewrite (mapT_Throws _ _ (c, d) Py.IndexError); [done| | |].
    + intros [c' d'] e. unfold get_delta_out. simpl.
      destruct (py_index _ c'); [|by intros [= <-]].
      destruct (vocab_list !! _); [done|by intros [= <-]].
    + apply elem_of_lookup_zip_with. eauto 10.
    + by apply get_delta_out_out_of_range.
  - intros vocab Hne. destruct cl as [|c cl]; [done|].
    destruct (col_delta_out data) as [|d ds]; [done|]. done.
Qed.

End TrainScriptFacts.

(** ** From [build_vocabs] through [load_data] to [forward] *)

Section PipelineFacts.
Context `{Countable K} `{!Ranking K} `{!TensorOps F} {St : Type}.
Variables (w_pc w_delta : nat → nat → F) (w_head : nat → nat → nat → F)
          (b_head : nat → nat → F)
          (run_lstm : list (list F) → option St → result (list (list F) * St)).
Implicit Types (k d : K) (v vocab pc_vocab delta_vocab : Vocab K).
Implicit Types (vocab_list : list (Vocab K)) (data train : DataFrame K).
Implicit Types (net : ClusteringLSTM F St).

Lemma build_vocabs_inv train num_clusters num_output_deltas
    pc_vocab delta_vocab target_vocab :
  build_vocabs train num_clusters num_output_deltas
  = (pc_vocab, delta_vocab, target_vocab) →
  vocab_inv pc_vocab ∧ vocab_inv delta_vocab ∧
  match target_vocab with
  | PerCluster vocab_list =>
      length vocab_list = num_clusters ∧ Forall vocab_inv vocab_list
  | Single vocab => vocab_inv vocab
  end.
Proof.
  unfold build_vocabs. intros Hb. injection Hb as <- <- <-.
  split_and!; [apply (vocab_inv_init (Some _))..|].
  destruct (col_cluster train) as [cl|]; [|apply (vocab_inv_init (Some _))].
  split; [by rewrite length_map, length_seq|].
  rewrite Forall_map. apply Forall_true. intros c.
  apply (vocab_inv_init (Some _)).
Qed.

Lemma matrix_length (rows cols : nat) (entry : nat → nat → F) :
  length (matrix rows cols entry) = rows.
Proof. unfold matrix. by rewrite length_map, length_seq. Qed.

Lemma main_model_Returns pc_vocab delta_vocab target_vocab net :
  main_model w_pc w_delta w_head b_head run_lstm
             (pc_vocab, delta_vocab, target_vocab) = Returns net →
  ∃ vocab_list,
    target_vocab = PerCluster vocab_list ∧
    num_pred net = 10%nat ∧
    length (pc_embed net) = Z.to_nat (len pc_vocab + 1) ∧
    length (delta_embed net) = Z.to_nat (len delta_vocab + 1) ∧
    length (cluster_networks net) = length vocab_list ∧
    ∀ j vocab, vocab_list !! j = Some vocab →
      ∃ network, cluster_networks net !! j = Some network ∧
                 out_features network = Z.to_nat (len vocab + 1).
Proof.
  unfold main_model. destruct target_vocab as [vocab_list|vocab]; [|done].
  intros [= <-]. exists vocab_list. split_and!; [done..| | | |].
  - apply matrix_length.
  - apply matrix_length.
  - simpl. unfold num_output_delta_of. by rewrite length_imap, length_map.
  - intros j vocab Hj.
    pose proof (init_out_features w_pc w_delta w_head b_head run_lstm
                  (Z.to_nat (len pc_vocab + 1)) (Z.to_nat (len delta_vocab + 1))
                  (num_output_delta_of vocab_list) 256 256 10 j) as Hw.
    assert (num_output_delta_of vocab_list !! j
            = Some (Z.to_nat (len vocab + 1))) as Hwidth.
    { unfold num_output_delta_of. change map with (@fmap list _).
      by rewrite list_lookup_fmap, Hj. }
    rewrite Hwidth in Hw.
    destruct (cluster_networks _ !! j) as [network|] eqn:Hnet;
      [|discriminate Hw].
    injection Hw as Hw. eauto.
Qed.

Lemma load_data_tensors_Returns data pc_vocab delta_vocab vocab_list
    pc delta clusters targets :
  load_data_tensors data (pc_vocab, delta_vocab, PerCluster vocab_list)
  = Returns (pc, delta, clusters, targets) →
  frame_ok data →
  col_cluster data = Some clusters ∧
  pc = map (get_val pc_vocab) (col_pc data) ∧
  delta = map (get_val delta_vocab) (col_delta_in data) ∧
  length pc = length clusters ∧ length delta = length clusters ∧
  length targets = length clusters ∧
  ∀ i c d, clusters !! i = Some c → col_delta_out data !! i = Some d →
    ∃ j vocab, py_index (length vocab_list) c = Some j ∧
               vocab_list !! j = Some vocab ∧
               targets !! i = Some (get_val vocab d).
Proof.
  unfold load_data_tensors. intros Hload (Hin & Hout & Hcl).
  destruct (col_cluster data) as [cl|]; [|done].
  specialize (Hcl cl eq_refl).
  destruct (mapT _ _) as [tg|e] eqn:Ht; [|done].
  injection Hload as <- <- <- <-.
  apply mapT_Returns in Ht as [Hlen Hlook].
  rewrite length_zip_with in Hlen. rewrite !length_map.
  split_and!; [done|done|done|lia|lia|lia|].
  intros i c d Hc Hd.
  destruct (Hlook i (c, d)) as (t & Ht & Hti).
  { apply lookup_zip_with_Some. eauto. }
  simpl in Ht. apply get_delta_out_Returns in Ht as (j & vocab & ? & ? & ->).
  eauto 10.
Qed.

Lemma embedding_of_codes (weight : list (list F)) v (keys : list K) :
  vocab_inv v → length weight = Z.to_nat (len v + 1) →
  ∃ rows, embedding weight (map (get_val v) keys) = Ok rows ∧
          length rows = length keys.
Proof.
  intros Hv Hw.
  destruct (embedding_valid weight (map (get_val v) keys))
    as (rows & Hrows & Hlen).
  - rewrite Forall_map. apply Forall_true. intros k.
    pose proof (get_val_within_width v k Hv). lia.
  - exists rows. by rewrite Hlen, length_map in *.
Qed.

Lemma get_key_get_val_iff v k :
  vocab_inv v →
  get_key v (get_val v k) = Some k ↔ is_Some (key_to_val v !! k).
Proof.
  intros Hv. split; [|by apply get_key_get_val].
  unfold get_key, get_val.
  destruct (key_to_val v !! k) as [c|] eqn:Hc; [eauto|]. simpl.
  by rewrite fallback_unassigned.
Qed.

Lemma rows_from_lookup {A} (j m : nat) (xs : list A) i x :
  rows_from j m xs !! i = Some x ↔ (i < m)%nat ∧ xs !! (j + i)%nat = Some x.
Proof.
  unfold rows_from. rewrite lookup_take_Some, lookup_drop. tauto.
Qed.

Lemma rows_from_length {A B} (j m : nat) (xs : list A) (ys : list B) :
  length xs = length ys →
  length (rows_from j m xs) = length (rows_from j m ys).
Proof.
  intros Hlen. unfold rows_from. rewrite !length_take, !length_drop. lia.
Qed.

Lemma rows_from_map {A B} (f : A → B) (j m : nat) (xs : list A) :
  rows_from j m (map f xs) = map f (rows_from j m xs).
Proof.
  unfold rows_from. change map with (@fmap list _).
  by rewrite fmap_take, fmap_drop.
Qed.

(** The codes [load_data] produces with the vocabularies of
    [build_vocabs] are codes of the tables and networks of [main]. *)
Lemma loaded_codes_fit train data num_clusters num_output_deltas
    pc delta clusters targets net :
  load_data_tensors data (build_vocabs train num_clusters num_output_deltas)
  = Returns (pc, delta, clusters, targets) →
  main_model w_pc w_delta w_head b_head run_lstm
             (build_vocabs train num_clusters num_output_deltas)
  = Returns net →
  frame_ok data →
  (∀ j m, ∃ rows, embedding (pc_embed net) (rows_from j m pc) = Ok rows ∧
                  length rows = length (rows_from j m clusters)) ∧
  (∀ j m, ∃ rows, embedding (delta_embed net) (rows_from j m delta) = Ok rows ∧
                  length rows = length (rows_from j m clusters)) ∧
  length (cluster_networks net) = num_clusters ∧
  num_pred net = 10%nat ∧
  length targets = length clusters ∧
  ∀ i c, clusters !! i = Some c →
    ∃ t j network,
      targets !! i = Some t ∧ py_index num_clusters c = Some j ∧
      cluster_networks net !! j = Some network ∧
      0 ≤ t < Z.of_nat (out_features network).
Proof.
  destruct (build_vocabs _ _ _) as [[pc_vocab delta_vocab] target_vocab] eqn:Hb.
  intros Hload Hmain Hframe.
  apply build_vocabs_inv in Hb as (Hpc & Hdelta & Htv).
  apply main_model_Returns in Hmain
    as (vocab_list & -> & Hk & Hwpc & Hwd & Hn & Hnets).
  destruct Htv as [Hlen Hinv].
  pose proof Hframe as (Hfin & Hfout & _).
  apply load_data_tensors_Returns in Hload
    as (Hcl & -> & -> & Hlpc & Hld & Hlt & Htargets); [|done].
  rewrite Hlen in Htargets. rewrite !length_map in *.
  split_and!; [| |lia|done|done|].
  - intros j m. rewrite rows_from_map.
    destruct (embedding_of_codes (pc_embed net) pc_vocab
                (rows_from j m (col_pc data)) Hpc Hwpc) as (rows & -> & Hrows).
    exists rows. split; [done|]. rewrite Hrows. apply rows_from_length. lia.
  - intros j m. rewrite rows_from_map.
    destruct (embedding_of_codes (delta_embed net) delta_vocab
                (rows_from j m (col_delta_in data)) Hdelta Hwd)
      as (rows & -> & Hrows).
    exists rows. split; [done|]. rewrite Hrows. apply rows_from_length. lia.
  - intros i c Hc.
    destruct (lookup_lt_is_Some_2 (col_delta_out data) i) as [d Hd].
    { apply lookup_lt_Some in Hc. lia. }
    destruct (Htargets i c d Hc Hd) as (j & vocab & Hj & Hvocab & Ht).
    destruct (Hnets j vocab Hvocab) as (network & Hnet & Hwidth).
    exists (get_val vocab d), j, network. split_and!; [done..| |].
    + rewrite Forall_forall in Hinv.
      pose proof (get_val_within_width vocab d
                    (Hinv vocab (list_elem_of_lookup_2 _ _ _ Hvocab))). lia.
    + rewrite Forall_forall in Hinv.
      pose proof (get_val_within_width vocab d
                    (Hinv vocab (list_elem_of_lookup_2 _ _ _ Hvocab))).
      rewrite Hwidth. lia.
Qed.

(** X16: the codes that [load_data] produces with the vocabularies of
    [build_vocabs] always fit the model that [main] sizes from the same
    vocabularies: every PC and input-delta code is a row of its embedding
    table (the fallback code is the last row), and every target is a code
    of the output of the network its label selects. *)
Theorem codes_of_load_data_fit_the_model_of_main
    train data num_clusters num_output_deltas pc delta clusters targets net :
  load_data_tensors data (build_vocabs train num_clusters num_output_deltas)
  = Returns (pc, delta, clusters, targets) →
  main_model w_pc w_delta w_head b_head run_lstm
             (build_vocabs train num_clusters num_output_deltas)
  = Returns net →
  frame_ok data →
  (∃ rows, embedding (pc_embed net) pc = Ok rows ∧
           length rows = length clusters) ∧
  (∃ rows, embedding (delta_embed net) delta = Ok rows ∧
           length rows = length clusters) ∧
  length (cluster_networks net) = num_clusters ∧
  ∀ i c, clusters !! i = Some c →
    ∃ t j network,
      targets !! i = Some t ∧ py_index num_clusters c = Some j ∧
      cluster_networks net !! j = Some network ∧
      0 ≤ t < Z.of_nat (out_features network).
Proof.
  intros Hload Hmain Hframe.
  destruct (loaded_codes_fit _ _ _ _ _ _ _ _ _ Hload Hmain Hframe)
    as (Hpc & Hdelta & Hn & _ & _ & Htargets).
  assert (∀ A (xs : list A), length xs = length clusters →
            rows_from 0 (length clusters) xs = xs) as Hall.
  { intros A xs Hlen. unfold rows_from. rewrite drop_0. apply take_ge. lia. }
  destruct (build_vocabs _ _ _) as [[pc_vocab delta_vocab] target_vocab].
  apply main_model_Returns in Hmain as (vocab_list & -> & _).
  apply load_data_tensors_Returns in Hload
    as (_ & _ & _ & Hlpc & Hld & _); [|done].
  specialize (Hpc 0%nat (length clusters)).
  specialize (Hdelta 0%nat (length clusters)).
  rewrite !Hall in Hpc, Hdelta by done. by split_and!.
Qed.

Lemma assigned_delta_vocab train num_clusters num_output_deltas k :
  is_Some (key_to_val (build_vocabs train num_clusters num_output_deltas).1.2
           !! k)
  ↔ (10 ≤ count k (col_delta_in train))%nat.
Proof.
  set (s := col_delta_in train).
  assert ((build_vocabs train num_clusters num_output_deltas).1.2
          = Vocab_init (Some (loc_count_ge 10 (value_counts s)).*1)) as ->
    by reflexivity.
  rewrite assigned_init, list_elem_of_fmap. unfold loc_count_ge. split.
  - intros ([k' n] & -> & Hin). apply list_elem_of_filter in Hin as [Hn Hin].
    apply elem_of_value_counts in Hin as [_ ->]. done.
  - intros Hk. exists (k, count k s). split; [done|].
    apply list_elem_of_filter. split; [done|].
    apply elem_of_value_counts. split; [|done]. apply count_pos. lia.
Qed.

(** X17: decoding what [load_data] encoded.  The code of a PC decodes
    back to the PC exactly when the PC occurs in the training frame, the
    code of an input delta exactly when the delta occurs there at least ten
    times, and the target of a row exactly when its output delta is a key
    of the vocabulary its label selects; every other value has the fallback
    code, which decodes to nothing. *)
Theorem codes_of_load_data_decode
    train data num_clusters num_output_deltas pc_vocab delta_vocab vocab_list
    pc delta clusters targets (i : nat) :
  build_vocabs train num_clusters num_output_deltas
  = (pc_vocab, delta_vocab, PerCluster vocab_list) →
  load_data_tensors data (pc_vocab, delta_vocab, PerCluster vocab_list)
  = Returns (pc, delta, clusters, targets) →
  frame_ok data →
  (∀ k, col_pc data !! i = Some k →
     pc !! i = Some (get_val pc_vocab k) ∧
     (get_key pc_vocab (get_val pc_vocab k) = Some k ↔ k ∈ col_pc train) ∧
     (k ∉ col_pc train →
      get_val pc_vocab k = len pc_vocab ∧
      get_key pc_vocab (get_val pc_vocab k) = None)) ∧
  (∀ k, col_delta_in data !! i = Some k →
     delta !! i = Some (get_val delta_vocab k) ∧
     (get_key delta_vocab (get_val delta_vocab k) = Some k ↔
      (10 ≤ count k (col_delta_in train))%nat) ∧
     ((count k (col_delta_in train) < 10)%nat →
      get_val delta_vocab k = len delta_vocab ∧
      get_key delta_vocab (get_val delta_vocab k) = None)) ∧
  (∀ c d, clusters !! i = Some c → col_delta_out data !! i = Some d →
     ∃ j vocab,
       py_index num_clusters c = Some j ∧ vocab_list !! j = Some vocab ∧
       targets !! i = Some (get_val vocab d) ∧
       (get_key vocab (get_val vocab d) = Some d ↔
        is_Some (key_to_val vocab !! d)) ∧
       (key_to_val vocab !! d = None →
        get_val vocab d = len vocab ∧
        get_key vocab (get_val vocab d) = None)).
Proof.
  intros Hb Hload Hframe.
  pose proof (assigned_delta_vocab train num_clusters num_output_deltas)
    as Hdelta_keys. rewrite Hb in Hdelta_keys. simpl in Hdelta_keys.
  assert (∀ k, is_Some (key_to_val pc_vocab !! k) ↔ k ∈ col_pc train)
    as Hpc_keys.
  { intros k.
    assert (pc_vocab = Vocab_init (Some (drop_duplicates (col_pc train))))
      as -> by (unfold build_vocabs in Hb; congruence).
    by rewrite assigned_init, elem_of_drop_duplicates. }
  apply build_vocabs_inv in Hb as (Hpc & Hdelta & Hlen & Hinv).
  apply load_data_tensors_Returns in Hload
    as (Hcl & -> & -> & _ & _ & _ & Htargets); [|done].
  assert (∀ v k, vocab_inv v → key_to_val v !! k = None →
            get_val v k = len v ∧ get_key v (get_val v k) = None) as Hfallback.
  { intros v k Hv Hk. rewrite (get_val_unassigned v k Hk).
    split; [done|]. by apply fallback_unassigned. }
  change map with (@fmap list _). split_and!.
  - intros k Hk. rewrite list_lookup_fmap, Hk.
    rewrite get_key_get_val_iff, Hpc_keys by done. split_and!; [done..|].
    intros Hnot. apply Hfallback; [done|].
    apply eq_None_not_Some. by rewrite Hpc_keys.
  - intros k Hk. rewrite list_lookup_fmap, Hk.
    rewrite get_key_get_val_iff, Hdelta_keys by done. split_and!; [done..|].
    intros Hfew. apply Hfallback; [done|].
    apply eq_None_not_Some. rewrite Hdelta_keys. lia.
  - intros c d Hc Hd.
    destruct (Htargets i c d Hc Hd) as (j & vocab & Hj & Hvocab & Ht).
    rewrite Hlen in Hj. exists j, vocab.
    rewrite Forall_forall in Hinv.
    pose proof (Hinv vocab (list_elem_of_lookup_2 _ _ _ Hvocab)) as Hv.
    split_and!; [done..|by apply get_key_get_val_iff|by apply Hfallback].
Qed.

(** A label that selects a network narrower than [num_pred] makes
    [forward] raise. *)
Lemma forward_narrow net pc delta clusters (st : option St)
    (target : option (list Z)) log c j network :
  c ∈ clusters →
  py_index (length (cluster_networks net)) c = Some j →
  cluster_networks net !! j = Some network →
  (out_features network < num_pred net)%nat →
  ∃ e log', forward net (pc, delta, clusters) st target log = (Raise e, log').
Proof.
  intros Hc Hj Hnet Hnarrow. rewrite forward_eq.
  destruct (backbone net pc delta st) as [[lstm_out state]|e]; [|by eauto].
  destruct (route _ clusters) as [indices|e] eqn:Hroute; [|by eauto].
  apply route_spec in Hroute as [_ Hslots].
  destruct (clusters_loop_narrow net lstm_out indices target
              (cluster_networks net) 0
              (PyInt 0, zeros (length pc) (num_pred net)) log
              j network (routed_from (length (cluster_networks net)) j 0
                                     clusters))
    as (e & log' & ->); [done| | |done|by eauto].
  - simpl. apply Hslots. by eapply py_index_lt.
  - by eapply routed_from_nonempty.
Qed.

(** X18: [main] asks for ten predictions from networks one wider than
    their vocabulary, so the model it builds raises on every batch in which
    a label selects a cluster whose vocabulary holds fewer than nine keys,
    a cluster without training rows for one. *)
Theorem model_of_main_raises_on_small_vocabulary
    pc_vocab delta_vocab vocab_list net pc delta clusters (st : option St)
    (target : option (list Z)) log c j vocab :
  main_model w_pc w_delta w_head b_head run_lstm
             (pc_vocab, delta_vocab, PerCluster vocab_list)
  = Returns net →
  c ∈ clusters →
  py_index (length vocab_list) c = Some j →
  vocab_list !! j = Some vocab →
  len vocab < 9 →
  ∃ e log', forward net (pc, delta, clusters) st target log = (Raise e, log').
Proof.
  intros Hmain Hc Hj Hvocab Hsmall.
  apply main_model_Returns in Hmain
    as (vocab_list' & [= <-] & Hk & _ & _ & Hn & Hnets).
  destruct (Hnets j vocab Hvocab) as (network & Hnet & Hwidth).
  apply (forward_narrow net pc delta clusters st target log c j network);
    [done|by rewrite Hn|done|lia].
Qed.

(** X19: a batch cut from the tensors of [load_data] goes through the
    model of [main]: when its labels are cluster indices, the vocabularies
    they select hold at least nine keys, and the backbone returns one
    output per row, [forward] returns a loss and ten predicted codes for
    every row of the batch. *)
Theorem batches_of_load_data_go_through_the_model_of_main
    train data num_clusters num_output_deltas pc_vocab delta_vocab vocab_list
    pc delta clusters targets net (j m : nat) (st : option St) log
    lstm_out state :
  build_vocabs train num_clusters num_output_deltas
  = (pc_vocab, delta_vocab, PerCluster vocab_list) →
  load_data_tensors data (pc_vocab, delta_vocab, PerCluster vocab_list)
  = Returns (pc, delta, clusters, targets) →
  main_model w_pc w_delta w_head b_head run_lstm
             (pc_vocab, delta_vocab, PerCluster vocab_list)
  = Returns net →
  frame_ok data →
  valid_labels num_clusters (rows_from j m clusters) →
  (∀ c vocab, c ∈ rows_from j m clusters →
              vocab_list !! Z.to_nat c = Some vocab → 9 ≤ len vocab) →
  backbone net (rows_from j m pc) (rows_from j m delta) st
  = Ok (lstm_out, state) →
  length lstm_out = length (rows_from j m pc) →
  ∃ loss outputs log',
    forward net
      (rows_from j m pc, rows_from j m delta, rows_from j m clusters)
      st (Some (rows_from j m targets)) log
    = (Ok (loss, outputs, state), log') ∧
    length outputs = length (rows_from j m clusters) ∧
    Forall (λ row, length row = 10%nat) outputs.
Proof.
  intros Hb Hload Hmain Hframe Hvalid Hbig Hbackbone Hout.
  rewrite <- Hb in Hload, Hmain.
  destruct (loaded_codes_fit _ _ _ _ _ _ _ _ _ Hload Hmain Hframe)
    as (_ & _ & Hn & Hk & Hlt & Htargets).
  rewrite Hb in Hload, Hmain.
  apply main_model_Returns in Hmain as (vl & [= <-] & _ & _ & _ & _ & Hnets).
  apply load_data_tensors_Returns in Hload
    as (_ & _ & _ & Hlpc & _ & _ & _); [|done].
  pose proof (rows_from_length j m pc clusters Hlpc) as Hlb.
  assert (∀ c, c ∈ rows_from j m clusters → 0 ≤ c < Z.of_nat num_clusters)
    as Hrange.
  { unfold valid_labels in Hvalid. by rewrite Forall_forall in Hvalid. }
  destruct (forward_total net (rows_from j m pc) (rows_from j m delta)
              (rows_from j m clusters) st (Some (rows_from j m targets)) log
              lstm_out state) as (loss & outputs & log' & Hfwd & Hl & Hshape);
    [done|done|by rewrite Hn|lia| | |].
  - intros i c Hi. pose proof (Hrange c (list_elem_of_lookup_2 _ _ _ Hi)) as Hc.
    apply rows_from_lookup in Hi as [Him Hi].
    destruct (Htargets _ _ Hi) as (t & j' & network & Ht & Hj' & Hnet & Hfit).
    rewrite py_index_valid in Hj' by done. injection Hj' as <-.
    exists t, network. split_and!; [|done|by right].
    by apply rows_from_lookup.
  - intros c network Hc Hnet. rewrite Hk.
    pose proof (Hrange c Hc) as Hcr.
    destruct (lookup_lt_is_Some_2 vocab_list (Z.to_nat c)) as [vocab Hvocab].
    { apply build_vocabs_inv in Hb as (_ & _ & Hlen & _). lia. }
    destruct (Hnets _ _ Hvocab) as (network' & Hnet' & Hwidth).
    assert (network' = network) as -> by congruence.
    pose proof (Hbig c vocab Hc Hvocab). lia.
  - exists loss, outputs, log'. rewrite Hk in Hshape.
    split_and!; [done|lia|done].
Qed.

End PipelineFacts.

(** ** Witnesses for the further properties *)

(** A training frame whose cluster 0 has nine distinct output deltas and
    whose cluster 1 has one. *)
Definition wide_frame : DataFrame Z :=
  {| col_pc := [100; 104; 100; 108; 104; 100; 100; 104; 108; 100; 112];
     col_delta_in := replicate 11 8;
     col_delta_out := [1; 2; 3; 4; 5; 6; 7; 8; 9; 1; 4];
     col_cluster := Some [0; 0; 0; 0; 0; 0; 0; 0; 0; 0; 1] |}.

Definition wide_vocabs : Vocab Z * Vocab Z * TargetVocab Z :=
  build_vocabs (Ranking0:=stable_ranking Z) wide_frame 2 50.

Definition wide_vocab_list : list (Vocab Z) :=
  match wide_vocabs.2 with PerCluster l => l | Single _ => [] end.

Definition wide_vocab_0 : Vocab Z :=
  make_output_vocab (Ranking0:=stable_ranking Z)
    (loc_cluster [0; 0; 0; 0; 0; 0; 0; 0; 0; 0; 1]
                 [1; 2; 3; 4; 5; 6; 7; 8; 9; 1; 4] 0) 50.

Definition wide_main : outcome (ClusteringLSTM Z (list Z)) :=
  main_model (λ i j, Z.of_nat (i + j)) (λ i j, Z.of_nat (i * j))
             (λ c j i, Z.of_nat (c + j * i) - 3)
             (λ c j, Z.of_nat j - Z.of_nat c)
             (sum_lstm 256) wide_vocabs.

Definition wide_net : ClusteringLSTM Z (list Z) :=
  match wide_main with Returns net => net | Throws _ => test_model end.

Definition wide_pc : list Z := [0; 1; 0; 2; 1; 0; 0; 1; 2; 0; 3].
Definition wide_delta : list Z := replicate 11 0.
Definition wide_clusters : list Z := [0; 0; 0; 0; 0; 0; 0; 0; 0; 0; 1].
Definition wide_targets : list Z := [0; 1; 2; 3; 4; 5; 6; 7; 8; 0; 0].

Definition wide_backbone_out : list (list Z) * list Z :=
  Eval vm_compute in
    match backbone wide_net (rows_from 0 9 wide_pc) (rows_from 0 9 wide_delta)
                   None with
    | Ok r => r
    | Raise _ => ([], [])
    end.

Lemma wide_frame_ok : frame_ok wide_frame.
Proof. split_and!; [done..|]. by intros cl [= <-]. Qed.

Lemma wide_vocabs_eq :
  build_vocabs (Ranking0:=stable_ranking Z) wide_frame 2 50
  = (wide_vocabs.1.1, wide_vocabs.1.2, PerCluster wide_vocab_list).
Proof. reflexivity. Qed.

Lemma wide_load :
  load_data_tensors wide_frame
    (wide_vocabs.1.1, wide_vocabs.1.2, PerCluster wide_vocab_list)
  = Returns (wide_pc, wide_delta, wide_clusters, wide_targets).
Proof. by vm_compute. Qed.

Lemma wide_main_eq :
  main_model (λ i j, Z.of_nat (i + j)) (λ i j, Z.of_nat (i * j))
             (λ c j i, Z.of_nat (c + j * i) - 3)
             (λ c j, Z.of_nat j - Z.of_nat c)
             (sum_lstm 256)
             (wide_vocabs.1.1, wide_vocabs.1.2, PerCluster wide_vocab_list)
  = Returns wide_net.
Proof. reflexivity. Qed.

Lemma cluster_without_rows_gets_empty_vocab_witness :
  ∃ vocabs v,
    (build_vocabs (Ranking0:=stable_ranking Z) crafted_frame 4 2).2
    = PerCluster vocabs ∧
    vocabs !! 2%nat = Some v ∧ v = Vocab_init None ∧
    len v = 0 ∧ (∀ k, get_val v k = 0) ∧ (∀ z, get_key v z = None).
Proof.
  apply (cluster_without_rows_gets_empty_vocab (Ranking0:=stable_ranking Z)
           crafted_frame 4 2 ([0; 0; 1; 0; 0; 0; 0] ++ replicate 24 5) 2).
  - reflexivity.
  - lia.
  - compute_done.
Defined.

Lemma forward_rows_are_cluster_predictions_witness :
  ∃ lstm_out,
    backbone test_model [0; 1; 2; 3] [3; 2; 1; 0] None
    = Ok (lstm_out, test_backbone_out.2) ∧
    length [[3; 2]; [3; 2]; [3; 2]; [3; 2]] = length [0; 1; 2; 3] ∧
    (∀ i c, [2; 3; 4; 5] !! i = Some c →
       ∃ network x,
         cluster_networks test_model !! Z.to_nat c = Some network ∧
         lstm_out !! i = Some x ∧
         [[3; 2]; [3; 2]; [3; 2]; [3; 2]] !! i
         = Some (predict_row (TensorOps0:=int_ops) test_model network x)) ∧
    (∀ i, (length [2; 3; 4; 5] ≤ i < length [0; 1; 2; 3])%nat →
          [[3; 2]; [3; 2]; [3; 2]; [3; 2]] !! i
          = Some (replicate (num_pred test_model) 0)).
Proof.
  apply (forward_rows_are_cluster_predictions (TensorOps0:=int_ops) test_model
           [0; 1; 2; 3] [3; 2; 1; 0] [2; 3; 4; 5] None (Some test_target) []
           (Tensor 21456) [[3; 2]; [3; 2]; [3; 2]; [3; 2]] test_backbone_out.2
           [2; 3; 4; 5]%nat).
  - by vm_compute.
  - unfold valid_labels. simpl. repeat constructor; lia.
Defined.

Lemma route_sends_each_position_to_one_cluster_witness :
  length [[]; []; [0]; [1]; [2]; [3]]%nat = 6%nat ∧
  concat [[]; []; [0]; [1]; [2]; [3]]%nat ≡ₚ seq 0 (length [2; 3; 4; 5]) ∧
  ∀ j orig, [[]; []; [0]; [1]; [2]; [3]]%nat !! j = Some orig →
    orig `sublist_of` seq 0 (length [2; 3; 4; 5]) ∧
    ∀ i, i ∈ orig ↔ ∃ c, [2; 3; 4; 5] !! i = Some c ∧ py_index 6 c = Some j.
Proof.
  apply (route_sends_each_position_to_one_cluster 6 [2; 3; 4; 5]).
  reflexivity.
Defined.

Lemma out_of_range_label_raises_witness :
  ∃ e, forward (TensorOps0:=int_ops) test_model
               ([0; 1], [1; 0], [2; 6]) None None []
       = (Raise e, []).
Proof.
  assert (6 ∈ [2; 6]) as H1 by compute_done.
  assert (¬ (- Z.of_nat (length (cluster_networks test_model)) ≤ 6
             < Z.of_nat (length (cluster_networks test_model)))) as H2
    by (simpl; lia).
  exact (proj1 (out_of_range_label_raises (TensorOps0:=int_ops) test_model
                  [0; 1] [1; 0] [2; 6] None None [] 6 H1 H2)).
Defined.

Lemma negative_label_counts_from_the_end_witness :
  forward (TensorOps0:=int_ops) test_model
          ([0; 1], [1; 0], [5; 2]) None None []
  = forward (TensorOps0:=int_ops) test_model
            ([0; 1], [1; 0], [-1; 2]) None None [].
Proof.
  apply (negative_label_counts_from_the_end (TensorOps0:=int_ops) test_model
           [0; 1] [1; 0] [-1; 2] None None []).
  simpl. repeat constructor; lia.
Defined.

Lemma target_does_not_change_predictions_witness :
  forward (TensorOps0:=int_ops) test_model test_X None None []
  = (Ok (PyInt 0, [[3; 2]; [3; 2]; [3; 2]; [3; 2]], test_backbone_out.2),
     [2; 3; 4; 5]%nat) ∧
  predict (TensorOps0:=int_ops) test_model test_X None []
  = (Ok ([[3; 2]; [3; 2]; [3; 2]; [3; 2]], test_backbone_out.2),
     [2; 3; 4; 5]%nat).
Proof.
  apply (target_does_not_change_predictions (TensorOps0:=int_ops) test_model
           [0; 1; 2; 3] [3; 2; 1; 0] [2; 3; 4; 5] None test_target []
           (Tensor 21456)).
  by vm_compute.
Defined.

Lemma networks_called_once_in_cluster_order_witness :
  [2; 3; 4; 5]%nat
  = [] ++ filter (λ j, Z.of_nat j ∈ [2; 3; 4; 5])
                 (seq 0 (length (cluster_networks test_model))).
Proof.
  apply (networks_called_once_in_cluster_order (TensorOps0:=int_ops)
           test_model [0; 1; 2; 3] [3; 2; 1; 0] [2; 3; 4; 5] None
           (Some test_target) []
           (Tensor 21456, [[3; 2]; [3; 2]; [3; 2]; [3; 2]],
            test_backbone_out.2)).
  - by vm_compute.
  - unfold valid_labels. simpl. repeat constructor; lia.
Defined.

Lemma position_without_row_or_valid_target_raises_witness :
  ∃ e log',
    forward (TensorOps0:=int_ops) test_model test_X None (Some [0; 1; 2; 9]) []
    = (Raise e, log').
Proof.
  apply (position_without_row_or_valid_target_raises (TensorOps0:=int_ops)
           test_model [0; 1; 2; 3] [3; 2; 1; 0] [2; 3; 4; 5] None
           (Some [0; 1; 2; 9]) [] test_backbone_out.1 test_backbone_out.2
           3 5 (MkLinear (map (λ j, (map (λ i, Z.of_nat (5 + j * i) - 3)
                                         (seq 0 30),
                                    Z.of_nat j - 5))
                              (seq 0 4)))).
  - by vm_compute.
  - unfold valid_labels. simpl. repeat constructor; lia.
  - reflexivity.
  - reflexivity.
  - right. exists [0; 1; 2; 9]. split; [done|]. right. exists 9.
    split_and!; [done|done|]. vm_compute. intros [_ Hlt]. discriminate Hlt.
Defined.

Lemma load_data_needs_labels_that_index_the_vocabularies_witness :
  (∃ targets,
     load_data_tensors wide_frame
       (wide_vocabs.1.1, wide_vocabs.1.2, PerCluster wide_vocab_list)
     = Returns (map (get_val wide_vocabs.1.1) (col_pc wide_frame),
                map (get_val wide_vocabs.1.2) (col_delta_in wide_frame),
                wide_clusters, targets) ∧
     length targets = length wide_clusters).
Proof.
  apply (proj1 (load_data_needs_labels_that_index_the_vocabularies
                  wide_frame wide_vocabs.1.1 wide_vocabs.1.2 wide_vocab_list
                  wide_clusters eq_refl eq_refl)).
  vm_compute. repeat constructor; discriminate.
Defined.

Lemma codes_of_load_data_fit_the_model_of_main_witness :
  (∃ rows, embedding (pc_embed wide_net) wide_pc = Ok rows ∧
           length rows = length wide_clusters) ∧
  (∃ rows, embedding (delta_embed wide_net) wide_delta = Ok rows ∧
           length rows = length wide_clusters) ∧
  length (cluster_networks wide_net) = 2%nat ∧
  ∀ i c, wide_clusters !! i = Some c →
    ∃ t j network,
      wide_targets !! i = Some t ∧ py_index 2 c = Some j ∧
      cluster_networks wide_net !! j = Some network ∧
      0 ≤ t < Z.of_nat (out_features network).
Proof.
  apply (codes_of_load_data_fit_the_model_of_main
           (Ranking0:=stable_ranking Z)
           (λ i j, Z.of_nat (i + j)) (λ i j, Z.of_nat (i * j))
           (λ c j i, Z.of_nat (c + j * i) - 3)
           (λ c j, Z.of_nat j - Z.of_nat c)
           (sum_lstm 256) wide_frame wide_frame 2 50).
  - exact wide_load.
  - exact wide_main_eq.
  - exact wide_frame_ok.
Defined.

Lemma codes_of_load_data_decode_witness :
  ∃ j vocab,
    py_index 2 0 = Some j ∧ wide_vocab_list !! j = Some vocab ∧
    wide_targets !! 4%nat = Some (get_val vocab 5) ∧
    (get_key vocab (get_val vocab 5) = Some 5 ↔
     is_Some (key_to_val vocab !! 5)) ∧
    (key_to_val vocab !! 5 = None →
     get_val vocab 5 = len vocab ∧ get_key vocab (get_val vocab 5) = None).
Proof.
  apply (proj2 (proj2 (codes_of_load_data_decode
                         (Ranking0:=stable_ranking Z)
                         wide_frame wide_frame 2 50
                         wide_vocabs.1.1 wide_vocabs.1.2 wide_vocab_list
                         wide_pc wide_delta wide_clusters wide_targets 4
                         wide_vocabs_eq wide_load wide_frame_ok)) 0 5);
    reflexivity.
Defined.

Lemma model_of_main_raises_on_small_vocabulary_witness :
  ∃ e log',
    forward (TensorOps0:=int_ops) wide_net ([3], [0], [1]) None (Some [0]) []
    = (Raise e, log').
Proof.
  assert (1 ∈ [1]) as H1 by compute_done.
  assert (∃ vocab, wide_vocab_list !! 1%nat = Some vocab ∧ len vocab < 9)
    as (vocab & H2 & H3) by (eexists; split; [reflexivity|by vm_compute]).
  exact (model_of_main_raises_on_small_vocabulary (TensorOps0:=int_ops)
           (λ i j, Z.of_nat (i + j)) (λ i j, Z.of_nat (i * j))
           (λ c j i, Z.of_nat (c + j * i) - 3)
           (λ c j, Z.of_nat j - Z.of_nat c) (sum_lstm 256)
           wide_vocabs.1.1 wide_vocabs.1.2 wide_vocab_list wide_net
           [3] [0] [1] None (Some [0]) [] 1 1%nat vocab
           wide_main_eq H1 eq_refl H2 H3).
Defined.

Lemma batches_of_load_data_go_through_the_model_of_main_witness :
  ∃ loss outputs log',
    forward (TensorOps0:=int_ops) wide_net
      (rows_from 0 9 wide_pc, rows_from 0 9 wide_delta,
       rows_from 0 9 wide_clusters)
      None (Some (rows_from 0 9 wide_targets)) []
    = (Ok (loss, outputs, wide_backbone_out.2), log') ∧
    length outputs = length (rows_from 0 9 wide_clusters) ∧
    Forall (λ row, length row = 10%nat) outputs.
Proof.
  apply (batches_of_load_data_go_through_the_model_of_main
           (Ranking0:=stable_ranking Z) (TensorOps0:=int_ops)
           (λ i j, Z.of_nat (i + j)) (λ i j, Z.of_nat (i * j))
           (λ c j i, Z.of_nat (c + j * i) - 3)
           (λ c j, Z.of_nat j - Z.of_nat c) (sum_lstm 256)
           wide_frame wide_frame 2 50
           wide_vocabs.1.1 wide_vocabs.1.2 wide_vocab_list
           wide_pc wide_delta wide_clusters wide_targets wide_net
           0 9 None [] wide_backbone_out.1 wide_backbone_out.2
           wide_vocabs_eq wide_load wide_main_eq wide_frame_ok).
  - unfold valid_labels. simpl. repeat constructor; lia.
  - intros c vocab Hc Hvocab.
    assert (c = 0) as ->.
    { simpl in Hc.
      repeat (apply elem_of_cons in Hc as [Hc|Hc]; [done|]).
      by apply elem_of_nil in Hc. }
    assert (wide_vocab_list !! Z.to_nat 0 = Some wide_vocab_0) as Hv0
      by (vm_compute; reflexivity).
    rewrite Hv0 in Hvocab. injection Hvocab as <-. by vm_compute.
  - by vm_compute.
  - reflexivity.
Defined.
